(** * PMM position fetcher: enumeration, batched resolution and join

    A shallow embedding of the JavaScript sources
    - [pmmPositionFetcher.js], class [PMMPositionFetcher], the library
      (second half of [src/unnamed/part_002]),
    - [multicall.js], class [Multicall3] (last part of [src/web/main.js]),
    - [config.js] ([src/unnamed/part_003]),
    - the discovery loop of [api/pmm-positions.js] (the HTTP handler) and
    - the scanner and the serial quantity fallback of [web/main.js] (the
      browser build),
    together with the properties of the three-stage pipeline.

    Conventions of the embedding.
    - A JavaScript exception is a value [Err msg] carrying [error.message].
    - Every remote read goes through one oracle [remote], which receives the
      requests issued so far (most recent first) and the current request.
      The requests issued by a run are therefore observable in the final
      state; a remote whose answers do not depend on the history is a remote
      whose state does not change.
    - An array that may hold [undefined] is a list of options; reading a
      property of [undefined] is the [TypeError] it is in JavaScript.
    - [console.log] output and the [debug] flag are not modelled.
    - [Date.now()] readings are explicit arguments.
    - ethers' ABI codec, [isAddress] and [formatUnits] are parameters. *)

From Stdlib Require Import ZArith String Ascii List Lia Bool.
From Stdlib Require Import DecimalString DecimalZ.
From stdpp Require Import base list.
Import ListNotations.

Local Open Scope string_scope.
Local Open Scope Z_scope.
Local Open Scope list_scope.

(** ** JavaScript values *)

Definition Address := string.
Definition Bytes := string.

(** [{ blockTag: n }]; [None] is [null], i.e. the latest block. *)
Definition BlockTag := option Z.

(** [ethers.ZeroAddress] *)
Definition ZeroAddress : Address :=
  "0x0000000000000000000000000000000000000000".

(** Outcome of an [await]: a value, or a thrown error with its message. *)
Inductive Result (A : Type) : Type :=
| Ok (a : A)
| Err (message : string).
Arguments Ok {A} a.
Arguments Err {A} message.

(** [String.prototype.includes] *)
Definition includes (s sub : string) : bool :=
  match String.index 0 sub s with
  | Some _ => true
  | None => false
  end.

(** Truthiness of a JavaScript string: the empty string is falsy. *)
Definition truthy (s : string) : bool := negb (String.eqb s "").

(** [a !== b] on strings. *)
Definition strictNe (a b : string) : bool := negb (String.eqb a b).

(** ** Calls, requests and the remote endpoint *)

(** [contract.interface.encodeFunctionData(method, params)] for the four
    methods the pipeline encodes.  The ABI encoding is kept symbolic. *)
Inductive CallData : Type :=
| EncUnderlying
| EncDecimals
| EncSymbol
| EncPositions (trader token : Address).

(** [{ target, allowFailure, callData }] *)
Record Call : Type := mkCall {
  target : Address;
  allowFailure : bool;
  callData : CallData
}.

(** One JSON-RPC interaction of a provider bound to chain [chain]. *)
Inductive Request : Type :=
| ReqBlockNumber (chain : Z)
| ReqAllLPTokens (chain : Z) (vault : Address) (index : nat) (tag : BlockTag)
| ReqAggregate3 (chain : Z) (multicall : Address) (calls : list Call)
    (tag : BlockTag)
| ReqUnderlying (chain : Z) (lp : Address) (tag : BlockTag)
| ReqDecimals (chain : Z) (lp : Address) (tag : BlockTag)
| ReqSymbol (chain : Z) (lp : Address) (tag : BlockTag)
| ReqPositions (chain : Z) (vault trader token : Address) (tag : BlockTag).

(** What the endpoint answers: a rejection, or a decoded value. *)
Inductive Response : Type :=
| RespError (message : string)
| RespNumber (n : Z)
| RespAddress (a : Address)
| RespString (s : string)
| RespResults (rs : list (bool * Bytes)).

(** Requests issued so far, most recent first. *)
Definition History := list Request.

(** ** config.js *)

Record ChainConfig : Type := mkChainConfig {
  name : string;
  creditVaultAddress : Address;
  multicall3Address : Address
}.

Definition multicall3Default : Address :=
  "0xcA11bde05977b3631167028862bE2a173976CA11".

(** [CHAIN_CONFIGS], with the default addresses. *)
Definition CHAIN_CONFIGS (chainId : Z) : option ChainConfig :=
  match chainId with
  | 1 => Some (mkChainConfig "Ethereum"
                 "0xe3D41d19564922C9952f692C5Dd0563030f5f2EF"
                 multicall3Default)
  | 56 => Some (mkChainConfig "BSC"
                  "0xBA8dB0CAf781cAc69b6acf6C848aC148264Cc05d"
                  multicall3Default)
  | 42161 => Some (mkChainConfig "Arbitrum"
                     "0xbA1cf8A63227b46575AF823BEB4d83D1025eff09"
                     multicall3Default)
  | 8453 => Some (mkChainConfig "Base"
                    "0x74a4Cd023e5AfB88369E3f22b02440F2614a1367"
                    multicall3Default)
  | _ => None
  end.

Definition SUPPORTED_CHAIN_IDS : list Z := [1; 56; 42161; 8453].

Definition isValidChainId (chainId : Z) : bool :=
  existsb (Z.eqb chainId) SUPPORTED_CHAIN_IDS.

Definition getChainConfig (chainId : Z) : Result ChainConfig :=
  match CHAIN_CONFIGS chainId with
  | Some config => Ok config
  | None => Err "Unsupported chain ID"
  end.

(** ** Records of the pipeline *)

(** An element of the array returned by [Multicall3.batchCall]:
    [{ success, data, call }]; [call] is [contractCalls[index]], which is
    [undefined] ([None]) past the end of the call list. *)
Module CallResult.
Record t : Type := mk {
  success : bool;
  data : Bytes;
  call : option Call
}.
End CallResult.

(** An element of [tokenData] (stage 2). *)
Module TokenData.
Record t : Type := mk {
  lpTokenAddress : Address;
  underlyingAddress : Address;
  decimals : nat;
  symbol : string;
  isLPToken : bool
}.
End TokenData.

(** What [getUnderlyingToken] returns: [{ address, decimals, symbol }]. *)
Module UnderlyingData.
Record t : Type := mk {
  address : Address;
  decimals : nat;
  symbol : string
}.
End UnderlyingData.

(** An element of the array returned by [batchGetPositions] (stage 3). *)
Module PositionResult.
Record t : Type := mk {
  tokenAddress : Address;
  position : string;
  success : bool;
  error : option string
}.
End PositionResult.

(** An element of [positions] in the report. *)
Module PositionData.
Record t : Type := mk {
  tokenAddress : Address;
  tokenSymbol : string;
  lpTokenAddress : option Address;
  position : string;
  positionFormatted : string;
  decimals : nat
}.
End PositionData.

Module Summary.
Record t : Type := mk {
  totalTokens : nat;
  tokensWithPositions : nat;
  fetchTime : Z
}.
End Summary.

(** The object returned by [listPmmPositions]; [targetBlock = None] stands
    for the string ['latest']. *)
Module Report.
Record t : Type := mk {
  chainId : Z;
  chainName : string;
  pmmAddress : Address;
  targetBlock : option Z;
  positions : list PositionData.t;
  summary : Summary.t
}.
End Report.

(** A slot of a JavaScript array that may hold [undefined]. *)
Abbreviation Slot A := (option A) (only parsing).

(** The [TypeError] of reading a property of [undefined]. *)
Definition typeError : string :=
  "Cannot read properties of undefined".

(** [bigint.toString()] *)
Definition toString (z : Z) : string :=
  NilZero.string_of_int (Z.to_int z).

(** [BigInt(s)] on decimal renderings; [None] is the [SyntaxError]. *)
Definition BigInt (s : string) : option Z :=
  option_map Z.of_int (NilZero.int_of_string s).

(** ** The result formatter

    Modelled from the spec: the sources contain no formatter and no parser
    of their own; every caller hands the quantity to [ethers.formatUnits],
    which is not part of the repository.  [format] follows section 4.6:
    the digits of the magnitude, padded with zeros on the left up to
    [scale + 1] digits, with the point before the last [scale] digits and
    the sign in front; nothing is rounded or trimmed, and scale 0 has no
    point. *)
Definition signOf (d : Decimal.int) : string :=
  match d with
  | Decimal.Pos _ => ""
  | Decimal.Neg _ => "-"
  end.

Definition padded (scale : nat) (u : Decimal.uint) : Decimal.uint :=
  Nat.iter (S scale - Decimal.nb_digits u) Decimal.D0 u.

Definition pointed (scale : nat) (u : Decimal.uint) : string :=
  let whole := Decimal.del_tail scale u in
  let fraction := Decimal.del_head (Decimal.nb_digits u - scale) u in
  match scale with
  | O => NilEmpty.string_of_uint whole
  | S _ =>
      NilEmpty.string_of_uint whole ++ "." ++ NilEmpty.string_of_uint fraction
  end.

Definition format (signedQuantity : Z) (scale : nat) : string :=
  let d := Z.to_int signedQuantity in
  signOf d ++ pointed scale (padded scale (Decimal.abs d)).

(** [blockNumber ? x : y] and [targetBlock || 'latest']: 0 and [null] are
    falsy. *)
Definition truthyBlock (blockNumber : BlockTag) : BlockTag :=
  match blockNumber with
  | Some n => if n =? 0 then None else Some n
  | None => None
  end.

(** The array walked by [for (i = 0; i < l.length; i += batchSize)] with
    [l.slice(i, i + batchSize)] as the loop's batch. *)
Fixpoint slices {A} (fuel batchSize i : nat) (l : list A) : list (list A) :=
  match fuel with
  | O => []
  | S fuel' =>
      if (i <? length l)%nat
      then take batchSize (drop i l) :: slices fuel' batchSize (i + batchSize) l
      else []
  end.

Definition batches {A} (batchSize : nat) (l : list A) : list (list A) :=
  slices (length l) batchSize 0 l.

(** [createContractCall(target, abi, method, params)] *)
Definition createContractCall (target : Address) (encoded : CallData) : Call :=
  mkCall target true encoded.

(** ** The fetcher object and its monad *)

(** The three memo maps of [PMMPositionFetcher] (their key sets) and the
    requests issued so far. *)
Record Fetcher : Type := mkFetcher {
  providers : list Z;
  contracts : list Z;
  multicalls : list Z;
  trace : History
}.

Definition emptyFetcher : Fetcher := mkFetcher [] [] [] [].

Definition has (k : Z) (keys : list Z) : bool := existsb (Z.eqb k) keys.

(** An [async] method: it may throw, and it keeps whatever it did to the
    fetcher before throwing. *)
Definition M (A : Type) : Type := Fetcher -> Result A * Fetcher.

Definition ret {A} (a : A) : M A := fun s => (Ok a, s).

Definition throw {A} (message : string) : M A := fun s => (Err message, s).

Definition bind {A B} (m : M A) (k : A -> M B) : M B :=
  fun s =>
    match m s with
    | (Ok a, s') => k a s'
    | (Err e, s') => (Err e, s')
    end.

(** [try { m } catch (error) { handler(error.message) }] *)
Definition tryCatch {A} (m : M A) (handler : string -> M A) : M A :=
  fun s =>
    match m s with
    | (Ok a, s') => (Ok a, s')
    | (Err e, s') => handler e s'
    end.

Notation "x <- m ;; k" := (bind m (fun x => k))
  (at level 100, m at next level, right associativity).
Notation "m ;;; k" := (bind m (fun _ => k))
  (at level 100, right associativity).

Section Pipeline.

(** The remote endpoint(s). *)
Variable remote : History -> Request -> Response.

(** ethers' codec and helpers, which the sources only call. *)
Variable isAddress : string -> bool.
Variable decodeAddress : Bytes -> option Address.
Variable decodeUint8 : Bytes -> option nat.
Variable decodeString : Bytes -> option string.
Variable decodeInt256 : Bytes -> option Z.
Variable formatUnits : Z -> nat -> string.

(** Send one request and record it. *)
Definition rpc (q : Request) : M Response :=
  fun s =>
    (Ok (remote (trace s) q),
     mkFetcher (providers s) (contracts s) (multicalls s) (q :: trace s)).

Definition badData {A} : M A := throw "could not decode result data".

Definition expectNumber (r : Response) : M Z :=
  match r with
  | RespNumber n => ret n
  | RespError e => throw e
  | _ => badData
  end.

Definition expectAddress (r : Response) : M Address :=
  match r with
  | RespAddress a => ret a
  | RespError e => throw e
  | _ => badData
  end.

Definition expectString (r : Response) : M string :=
  match r with
  | RespString a => ret a
  | RespError e => throw e
  | _ => badData
  end.

Definition expectResults (r : Response) : M (list (bool * Bytes)) :=
  match r with
  | RespResults rs => ret rs
  | RespError e => throw e
  | _ => badData
  end.

Definition setProviders (ps : list Z) : M unit :=
  fun s => (Ok tt, mkFetcher ps (contracts s) (multicalls s) (trace s)).
Definition setContracts (cs : list Z) : M unit :=
  fun s => (Ok tt, mkFetcher (providers s) cs (multicalls s) (trace s)).
Definition setMulticalls (ms : list Z) : M unit :=
  fun s => (Ok tt, mkFetcher (providers s) (contracts s) ms (trace s)).
Definition get : M Fetcher := fun s => (Ok s, s).

Definition liftResult {A} (r : Result A) : M A :=
  match r with
  | Ok a => ret a
  | Err e => throw e
  end.

(** *** PMMPositionFetcher.getProvider *)
Definition getProvider (chainId : Z) : M unit :=
  if negb (isValidChainId chainId) then throw "Unsupported chain ID"
  else
    s <- get ;;
    if has chainId (providers s) then ret tt
    else
      config <- liftResult (getChainConfig chainId) ;;
      (* liveness probe: provider.getBlockNumber(), raced with a timeout *)
      r <- rpc (ReqBlockNumber chainId) ;;
      expectNumber r ;;;
      s <- get ;;
      setProviders (chainId :: providers s).

(** *** PMMPositionFetcher.getCreditVaultContract
    The contract object is identified with its address, [contract.target];
    a memoised contract was built from the same configuration. *)
Definition getCreditVaultContract (chainId : Z) : M Address :=
  s <- get ;;
  if has chainId (contracts s) then
    config <- liftResult (getChainConfig chainId) ;;
    ret (creditVaultAddress config)
  else
    getProvider chainId ;;;
    config <- liftResult (getChainConfig chainId) ;;
    if String.eqb (creditVaultAddress config) ZeroAddress
    then throw "CreditVault address not configured"
    else
      s <- get ;;
      setContracts (chainId :: contracts s) ;;;
      ret (creditVaultAddress config).

(** *** PMMPositionFetcher.getMulticall
    The [Multicall3] object is identified with its contract address. *)
Definition getMulticall (chainId : Z) : M Address :=
  s <- get ;;
  if has chainId (multicalls s) then
    config <- liftResult (getChainConfig chainId) ;;
    ret (multicall3Address config)
  else
    getProvider chainId ;;;
    config <- liftResult (getChainConfig chainId) ;;
    if negb (truthy (multicall3Address config))
    then throw "Multicall3 address not configured"
    else
      s <- get ;;
      setMulticalls (chainId :: multicalls s) ;;;
      ret (multicall3Address config).

(** *** PMMPositionFetcher.cleanup
    Errors of [removeAllListeners] and [destroy] are caught and ignored;
    the three maps are cleared. *)
Definition cleanup : M unit :=
  fun s => (Ok tt, mkFetcher [] [] [] (trace s)).

(** *** PMMPositionFetcher.getAllLPTokens

    The [while (true)] loop, with [fuel] bounding the number of iterations
    of the model; [None] means the fuel ran out before the loop left.
    [lpTokens] is the array being filled (kept in push order). *)
Fixpoint scanLoop (fuel : nat) (chainId : Z) (vault : Address)
    (blockNumber : BlockTag) (index : nat) (lpTokens : list Address)
    (s : Fetcher) : option (Result (list Address) * Fetcher) :=
  match fuel with
  | O => None
  | S fuel' =>
      match (r <- rpc (ReqAllLPTokens chainId vault index blockNumber) ;;
             expectAddress r) s with
      | (Ok lpTokenAddress, s') =>
          if truthy lpTokenAddress && strictNe lpTokenAddress ZeroAddress
          then
            let lpTokens' := lpTokens ++ [lpTokenAddress] in
            let index' := S index in
            if (1000 <? index')%nat
            then Some (Ok lpTokens', s')            (* safety limit: break *)
            else scanLoop fuel' chainId vault blockNumber index' lpTokens' s'
          else Some (Ok lpTokens, s')               (* zero address: break *)
      | (Err message, s') =>
          if includes message "revert"
             || includes message "execution reverted"
          then Some (Ok lpTokens, s')               (* end of array: break *)
          else Some (Ok lpTokens, s')               (* warn, then break *)
      end
  end.

Definition getAllLPTokens (fuel : nat) (chainId : Z) (blockNumber : BlockTag)
    (s : Fetcher) : option (Result (list Address) * Fetcher) :=
  match getCreditVaultContract chainId s with
  | (Ok creditVault, s') =>
      (* the outer try/catch rethrows, but nothing inside it throws *)
      scanLoop fuel chainId creditVault blockNumber 0 [] s'
  | (Err e, s') => Some (Err e, s')
  end.

(** *** Multicall3.aggregate3, Multicall3.batchCall *)
Definition aggregate3 (chainId : Z) (multicall : Address) (calls : list Call)
    (blockNumber : BlockTag) : M (list (bool * Bytes)) :=
  r <- rpc (ReqAggregate3 chainId multicall calls (truthyBlock blockNumber)) ;;
  expectResults r.

Definition batchCall (chainId : Z) (multicall : Address)
    (contractCalls : list Call) (blockNumber : BlockTag)
    : M (list CallResult.t) :=
  results <- aggregate3 chainId multicall contractCalls blockNumber ;;
  ret (imap (fun index result =>
               CallResult.mk (fst result) (snd result) (contractCalls !! index))
            results).

(** *** Multicall3.batchCallWithRetry *)

(** [results.map((result, index) => ({ result, index, call }))
       .filter(({ result }) => !result.success)], kept as the pairs
    [(index, call)]; reading [success] of an [undefined] result throws. *)
Fixpoint failedCalls (contractCalls : list Call) (index : nat)
    (results : list (Slot CallResult.t))
    : Result (list (nat * Slot Call)) :=
  match results with
  | [] => Ok []
  | None :: _ => Err typeError
  | Some result :: rest =>
      match failedCalls contractCalls (S index) rest with
      | Ok failed =>
          Ok (if CallResult.success result then failed
              else (index, contractCalls !! index) :: failed)
      | Err e => Err e
      end
  end.

(** [failedCalls.forEach(({ index }, retryIndex) =>
       results[index] = retryResults[retryIndex])].  Every [index] comes from
    enumerating [results], so the assignment never extends the array. *)
Fixpoint overwrite (failed : list (nat * Slot Call)) (retryIndex : nat)
    (retryResults : list CallResult.t) (results : list (Slot CallResult.t))
    : list (Slot CallResult.t) :=
  match failed with
  | [] => results
  | (index, _) :: rest =>
      overwrite rest (S retryIndex) retryResults
        (<[index := retryResults !! retryIndex]> results)
  end.

(** [failedCalls.map(({ call }) => call)]; encoding an [undefined] call
    makes the aggregate request throw before it is sent. *)
Definition retryCalls (failed : list (nat * Slot Call)) : Result (list Call) :=
  match mapM snd failed with
  | Some calls => Ok calls
  | None => Err typeError
  end.

(** The [while (retryCount < maxRetries)] loop, by the number of retries
    left. *)
Fixpoint retryLoop (retriesLeft : nat) (chainId : Z) (multicall : Address)
    (contractCalls : list Call) (blockNumber : BlockTag)
    (results : list (Slot CallResult.t)) : M (list (Slot CallResult.t)) :=
  match retriesLeft with
  | O => ret results
  | S retriesLeft' =>
      failed <- liftResult (failedCalls contractCalls 0 results) ;;
      if (length failed =? 0)%nat then ret results
      else
        calls <- liftResult (retryCalls failed) ;;
        retryResults <- batchCall chainId multicall calls blockNumber ;;
        retryLoop retriesLeft' chainId multicall contractCalls blockNumber
          (overwrite failed 0 retryResults results)
  end.

Definition batchCallWithRetry (chainId : Z) (multicall : Address)
    (contractCalls : list Call) (maxRetries : nat) (blockNumber : BlockTag)
    : M (list (Slot CallResult.t)) :=
  results <- batchCall chainId multicall contractCalls blockNumber ;;
  retryLoop maxRetries chainId multicall contractCalls blockNumber
    (map Some results).

(** *** PMMPositionFetcher.getUnderlyingToken
    [Promise.all] starts the three reads before any of them is awaited. *)
Definition getUnderlyingToken (chainId : Z) (lpTokenAddress : Address)
    (blockNumber : BlockTag) : M (option UnderlyingData.t) :=
  tryCatch
    (getProvider chainId ;;;
     ru <- rpc (ReqUnderlying chainId lpTokenAddress blockNumber) ;;
     rd <- rpc (ReqDecimals chainId lpTokenAddress blockNumber) ;;
     rs <- rpc (ReqSymbol chainId lpTokenAddress blockNumber) ;;
     underlyingAddress <- expectAddress ru ;;
     decimals <- expectNumber rd ;;
     symbol <- expectString rs ;;
     ret (Some (UnderlyingData.mk underlyingAddress (Z.to_nat decimals)
                  symbol)))
    (fun _ => ret None).

(** *** PMMPositionFetcher.batchGetUnderlyingTokens *)

(** The three calls pushed for one LP token. *)
Definition underlyingCalls (batch : list Address) : list Call :=
  flat_map (fun lpTokenAddress =>
              [createContractCall lpTokenAddress EncUnderlying;
               createContractCall lpTokenAddress EncDecimals;
               createContractCall lpTokenAddress EncSymbol]) batch.

(** [results[k]] of an array that may be short or hold [undefined]. *)
Definition at_ {A} (results : list (Slot A)) (k : nat) : Slot A :=
  mjoin (results !! k).

(** The body of the [try] inside the success branch: decode the three raw
    results; a decode error is caught and replaced by the fallback. *)
Definition decodeTriplet (lpTokenAddress : Address)
    (underlyingResult decimalsResult symbolResult : CallResult.t)
    : TokenData.t :=
  match decodeAddress (CallResult.data underlyingResult) with
  | Some underlyingAddress =>
      match decodeUint8 (CallResult.data decimalsResult) with
      | Some decimals =>
          match decodeString (CallResult.data symbolResult) with
          | Some symbol =>
              if truthy underlyingAddress
                 && strictNe underlyingAddress ZeroAddress
              then TokenData.mk lpTokenAddress underlyingAddress decimals
                     symbol true
              else TokenData.mk lpTokenAddress lpTokenAddress 18 "LP" false
          | None => TokenData.mk lpTokenAddress lpTokenAddress 18 "LP" false
          end
      | None => TokenData.mk lpTokenAddress lpTokenAddress 18 "LP" false
      end
  | None => TokenData.mk lpTokenAddress lpTokenAddress 18 "LP" false
  end.

(** One iteration of [for (let j = 0; j < batch.length; j++)]: the entry
    pushed for [batch[j]], or the [TypeError] of an [undefined] result.
    [a.success && b.success && c.success] reads left to right and stops at
    the first [false]. *)
Definition tripletEntry (lpTokenAddress : Address) (j : nat)
    (results : list (Slot CallResult.t)) : Result TokenData.t :=
  match at_ results (j * 3) with
  | None => Err typeError
  | Some underlyingResult =>
      if CallResult.success underlyingResult then
        match at_ results (j * 3 + 1) with
        | None => Err typeError
        | Some decimalsResult =>
            if CallResult.success decimalsResult then
              match at_ results (j * 3 + 2) with
              | None => Err typeError
              | Some symbolResult =>
                  if CallResult.success symbolResult then
                    Ok (decodeTriplet lpTokenAddress underlyingResult
                          decimalsResult symbolResult)
                  else
                    Ok (TokenData.mk lpTokenAddress lpTokenAddress 18 "LP"
                          false)
              end
            else Ok (TokenData.mk lpTokenAddress lpTokenAddress 18 "LP" false)
        end
      else Ok (TokenData.mk lpTokenAddress lpTokenAddress 18 "LP" false)
  end.

(** The whole [for j] loop over the batch.  [tokenData] is the array shared
    by all batches: what was pushed before a throw stays pushed. *)
Fixpoint processTriplets (batch : list Address) (j : nat)
    (results : list (Slot CallResult.t)) (tokenData : list TokenData.t)
    : Result unit * list TokenData.t :=
  match batch with
  | [] => (Ok tt, tokenData)
  | lpTokenAddress :: rest =>
      match tripletEntry lpTokenAddress j results with
      | Ok entry => processTriplets rest (S j) results (tokenData ++ [entry])
      | Err e => (Err e, tokenData)
      end
  end.

(** The [catch] of a failed batch: one [getUnderlyingToken] per LP token. *)
Fixpoint underlyingFallback (chainId : Z) (blockNumber : BlockTag)
    (batch : list Address) (tokenData : list TokenData.t)
    : M (list TokenData.t) :=
  match batch with
  | [] => ret tokenData
  | lpTokenAddress :: rest =>
      tokenData' <-
        tryCatch
          (underlyingData <-
             getUnderlyingToken chainId lpTokenAddress blockNumber ;;
           match underlyingData with
           | Some u =>
               if strictNe (UnderlyingData.address u) ZeroAddress
               then ret (tokenData ++
                           [TokenData.mk lpTokenAddress
                              (UnderlyingData.address u)
                              (UnderlyingData.decimals u)
                              (UnderlyingData.symbol u) true])
               else ret (tokenData ++
                           [TokenData.mk lpTokenAddress lpTokenAddress 18
                              "LP" false])
           | None =>
               ret (tokenData ++
                      [TokenData.mk lpTokenAddress lpTokenAddress 18 "LP"
                         false])
           end)
          (fun _ =>
             ret (tokenData ++
                    [TokenData.mk lpTokenAddress lpTokenAddress 18 "LP"
                       false])) ;;
      underlyingFallback chainId blockNumber rest tokenData'
  end.

(** The body of the [for i] loop for one batch. *)
Definition underlyingBatch (chainId : Z) (multicall : Address)
    (blockNumber : BlockTag) (batch : list Address)
    (tokenData : list TokenData.t) : M (list TokenData.t) :=
  fun s =>
    match batchCallWithRetry chainId multicall (underlyingCalls batch) 1
            blockNumber s with
    | (Ok results, s') =>
        match processTriplets batch 0 results tokenData with
        | (Ok _, tokenData') => (Ok tokenData', s')
        | (Err _, tokenData') =>
            underlyingFallback chainId blockNumber batch tokenData' s'
        end
    | (Err _, s') => underlyingFallback chainId blockNumber batch tokenData s'
    end.

(** Run a loop body over the batches, threading the shared array. *)
Fixpoint forBatches {A B} (body : list A -> B -> M B)
    (bs : list (list A)) (acc : B) : M B :=
  match bs with
  | [] => ret acc
  | batch :: rest => acc' <- body batch acc ;; forBatches body rest acc'
  end.

Definition batchGetUnderlyingTokens (chainId : Z)
    (lpTokenAddresses : list Address) (blockNumber : BlockTag)
    : M (list TokenData.t) :=
  multicall <- getMulticall chainId ;;
  forBatches (underlyingBatch chainId multicall blockNumber)
    (batches 10 lpTokenAddresses) [].

(** *** PMMPositionFetcher.getPosition *)
Definition getPosition (chainId : Z) (traderAddress tokenAddress : Address)
    (blockNumber : BlockTag) : M Z :=
  tryCatch
    (creditVault <- getCreditVaultContract chainId ;;
     r <- rpc (ReqPositions chainId creditVault traderAddress tokenAddress
                 blockNumber) ;;
     expectNumber r)
    (fun _ => ret 0).

(** *** PMMPositionFetcher.batchGetPositions *)
Definition positionCalls (creditVault traderAddress : Address)
    (batch : list Address) : list Call :=
  map (fun tokenAddress =>
         createContractCall creditVault
           (EncPositions traderAddress tokenAddress)) batch.

(** The body of the [for j] loop.  The codec gives no message for a failed
    decode; ["decode failed"] stands for [decodeError.message]. *)
Definition positionEntry (tokenAddress : Address) (j : nat)
    (results : list (Slot CallResult.t)) : Result PositionResult.t :=
  match at_ results j with
  | None => Err typeError
  | Some result =>
      if CallResult.success result then
        match decodeInt256 (CallResult.data result) with
        | Some position =>
            Ok (PositionResult.mk tokenAddress (toString position) true None)
        | None =>
            Ok (PositionResult.mk tokenAddress "0" false
                  (Some "decode failed"))
        end
      else Ok (PositionResult.mk tokenAddress "0" false (Some "Call failed"))
  end.

Fixpoint processPositions (batch : list Address) (j : nat)
    (results : list (Slot CallResult.t)) (positions : list PositionResult.t)
    : Result unit * list PositionResult.t :=
  match batch with
  | [] => (Ok tt, positions)
  | tokenAddress :: rest =>
      match positionEntry tokenAddress j results with
      | Ok entry => processPositions rest (S j) results (positions ++ [entry])
      | Err e => (Err e, positions)
      end
  end.

Fixpoint positionsFallback (chainId : Z) (traderAddress : Address)
    (blockNumber : BlockTag) (batch : list Address)
    (positions : list PositionResult.t) : M (list PositionResult.t) :=
  match batch with
  | [] => ret positions
  | tokenAddress :: rest =>
      positions' <-
        tryCatch
          (position <-
             getPosition chainId traderAddress tokenAddress blockNumber ;;
           ret (positions ++
                  [PositionResult.mk tokenAddress (toString position) true
                     None]))
          (fun message =>
             ret (positions ++
                    [PositionResult.mk tokenAddress "0" false
                       (Some message)])) ;;
      positionsFallback chainId traderAddress blockNumber rest positions'
  end.

Definition positionsBatch (chainId : Z) (creditVault multicall : Address)
    (traderAddress : Address) (blockNumber : BlockTag) (batch : list Address)
    (positions : list PositionResult.t) : M (list PositionResult.t) :=
  fun s =>
    match batchCallWithRetry chainId multicall
            (positionCalls creditVault traderAddress batch) 1 blockNumber s
    with
    | (Ok results, s') =>
        match processPositions batch 0 results positions with
        | (Ok _, positions') => (Ok positions', s')
        | (Err _, positions') =>
            positionsFallback chainId traderAddress blockNumber batch
              positions' s'
        end
    | (Err _, s') =>
        positionsFallback chainId traderAddress blockNumber batch positions s'
    end.

Definition batchGetPositions (chainId : Z) (traderAddress : Address)
    (tokenAddresses : list Address) (blockNumber : BlockTag)
    : M (list PositionResult.t) :=
  creditVault <- getCreditVaultContract chainId ;;
  multicall <- getMulticall chainId ;;
  forBatches
    (positionsBatch chainId creditVault multicall traderAddress blockNumber)
    (batches 20 tokenAddresses) [].

(** *** PMMPositionFetcher.listPmmPositions *)

(** One iteration of the join loop [for (let i = 0; i < tokenData.length;
    i++)]: [None] when nothing is pushed. *)
Definition joinEntry (token : TokenData.t)
    (positionResult : Slot PositionResult.t)
    : Result (option PositionData.t) :=
  match positionResult with
  | None => Err typeError
  | Some positionResult =>
      if PositionResult.success positionResult
         && strictNe (PositionResult.position positionResult) "0"
      then
        match BigInt (PositionResult.position positionResult) with
        | None => Err "Cannot convert to a BigInt"
        | Some position =>
            Ok (Some (PositionData.mk
                        (TokenData.underlyingAddress token)
                        (TokenData.symbol token)
                        (if TokenData.isLPToken token
                         then Some (TokenData.lpTokenAddress token)
                         else None)
                        (toString position)
                        (formatUnits position (TokenData.decimals token))
                        (TokenData.decimals token)))
        end
      else Ok None
  end.

Fixpoint joinLoop (tokenData : list TokenData.t) (i : nat)
    (positionResults : list PositionResult.t)
    (positions : list PositionData.t) : Result (list PositionData.t) :=
  match tokenData with
  | [] => Ok positions
  | token :: rest =>
      match joinEntry token (positionResults !! i) with
      | Ok (Some positionData) =>
          joinLoop rest (S i) positionResults (positions ++ [positionData])
      | Ok None => joinLoop rest (S i) positionResults positions
      | Err e => Err e
      end
  end.

(** [startTime] and [endTime] are the two readings of [Date.now()]; [fuel]
    bounds the scan loop of stage 1 as in [scanLoop]. *)
Definition listPmmPositions (fuel : nat) (pmmAddress : Address) (chainId : Z)
    (targetBlock : BlockTag) (startTime endTime : Z) (s : Fetcher)
    : option (Result Report.t * Fetcher) :=
  if negb (isAddress pmmAddress) then Some (Err "Invalid PMM address", s)
  else if negb (isValidChainId chainId)
  then Some (Err "Unsupported chain ID", s)
  else
    match getChainConfig chainId with
    | Err e => Some (Err e, s)
    | Ok config =>
        match getAllLPTokens fuel chainId targetBlock s with
        | None => None
        | Some (Err e, s1) => Some (Err e, s1)
        | Some (Ok lpTokens, s1) =>
            if (length lpTokens =? 0)%nat then
              Some (Ok (Report.mk chainId (name config) pmmAddress
                          (truthyBlock targetBlock) []
                          (Summary.mk 0 0 (endTime - startTime))), s1)
            else
              Some
                ((tokenData <-
                    batchGetUnderlyingTokens chainId lpTokens targetBlock ;;
                  positionResults <-
                    batchGetPositions chainId pmmAddress
                      (map TokenData.underlyingAddress tokenData)
                      targetBlock ;;
                  positions <-
                    liftResult (joinLoop tokenData 0 positionResults []) ;;
                  ret (Report.mk chainId (name config) pmmAddress
                         (truthyBlock targetBlock) positions
                         (Summary.mk (length tokenData) (length positions)
                            (endTime - startTime)))) s1)
        end
    end.

(** *** PMMPositionFetcher.getCurrentBlock *)
Definition getCurrentBlock (chainId : Z) : M Z :=
  getProvider chainId ;;;
  r <- rpc (ReqBlockNumber chainId) ;;
  expectNumber r.

End Pipeline.

(** ** multicall.js: decodeResults

    [decode] stands for [decoder.decode], the decoder being
    [contract.interface.getFunction(method)]; whatever it throws is caught
    and reported in the entry. *)
Module Decoded.
Record t (D : Type) : Type := mk {
  success : bool;
  error : option string;
  data : option D;
  raw : option Bytes
}.
Arguments mk {D} success error data raw.
Arguments success {D} t.
Arguments error {D} t.
Arguments data {D} t.
Arguments raw {D} t.
End Decoded.



(** ** web/main.js: the browser build of the scanner

    [getProvider] has no liveness probe there and [getCreditVaultContract]
    is not memoised; the [while (true)] loop of [getAllLPTokens] is the
    library's loop, statement for statement (only the logging differs). *)
Module Web.
Section Web.
Variable remote : History -> Request -> Response.

Definition getProvider (chainId : Z) : M unit :=
  s <- get ;;
  if has chainId (providers s) then ret tt
  else
    match CHAIN_CONFIGS chainId with
    | None => throw "Unsupported chain ID"
    | Some _ => setProviders (chainId :: providers s)
    end.

Definition getCreditVaultContract (chainId : Z) : M Address :=
  getProvider chainId ;;;
  match CHAIN_CONFIGS chainId with
  | None => throw typeError
  | Some config => ret (creditVaultAddress config)
  end.

Definition getAllLPTokens (fuel : nat) (chainId : Z) (blockNumber : BlockTag)
    (s : Fetcher) : option (Result (list Address) * Fetcher) :=
  match getCreditVaultContract chainId s with
  | (Ok creditVault, s') =>
      scanLoop remote fuel chainId creditVault blockNumber 0 [] s'
  | (Err e, s') => Some (Err e, s')
  end.

(** The [catch] of a failed batch in [batchGetPositions]: the read is made
    directly, and its own [catch] records the failure. *)
Fixpoint positionsFallback (chainId : Z) (creditVault : Address)
    (traderAddress : Address) (blockNumber : BlockTag)
    (batch : list Address) (positions : list PositionResult.t)
    : M (list PositionResult.t) :=
  match batch with
  | [] => ret positions
  | tokenAddress :: rest =>
      positions' <-
        tryCatch
          (r <- rpc remote (ReqPositions chainId creditVault traderAddress
                              tokenAddress blockNumber) ;;
           position <- expectNumber r ;;
           ret (positions ++
                  [PositionResult.mk tokenAddress (toString position) true
                     None]))
          (fun _ =>
             ret (positions ++
                    [PositionResult.mk tokenAddress "0" false None])) ;;
      positionsFallback chainId creditVault traderAddress blockNumber rest
        positions'
  end.

(** *** The stages and the run of the browser build

    [this.log] writes to the page and is left out; [ethers.isAddress], the
    ABI decoders and [ethers.formatUnits] are parameters, as in the
    library. *)

Variable isAddress : string -> bool.
Variable decodeAddress : Bytes -> option Address.
Variable decodeUint8 : Bytes -> option nat.
Variable decodeString : Bytes -> option string.
Variable decodeInt256 : Bytes -> option Z.
Variable formatUnits : Z -> nat -> string.

(** [getMulticall], memoised by chain id.  The contract object is
    identified with its address; a memoised one was built from the same
    table. *)
Definition getMulticall (chainId : Z) : M Address :=
  s <- get ;;
  if has chainId (multicalls s) then
    match CHAIN_CONFIGS chainId with
    | None => throw typeError
    | Some config => ret (multicall3Address config)
    end
  else
    getProvider chainId ;;;
    match CHAIN_CONFIGS chainId with
    | None => throw typeError
    | Some config =>
        s <- get ;;
        setMulticalls (chainId :: multicalls s) ;;;
        ret (multicall3Address config)
    end.

(** [multicall.aggregate3.staticCall(batchCalls,
      { blockTag: blockNumber, value: 0 })]: the block tag is passed as it
    is. *)
Definition aggregate3 (chainId : Z) (multicall : Address) (calls : list Call)
    (blockNumber : BlockTag) : M (list (bool * Bytes)) :=
  r <- rpc remote (ReqAggregate3 chainId multicall calls blockNumber) ;;
  expectResults r.

(** [results[k]] of the decoded answer, whose elements are
    [(success, returnData)]: an index out of range throws. *)
Definition resultAt (results : list (bool * Bytes)) (k : nat)
    : Result (bool * Bytes) :=
  match results !! k with
  | Some result => Ok result
  | None => Err "out of result range"
  end.

(** The [try] inside the success branch of stage 2: a decode error is
    caught and replaced by the fallback. *)
Definition decodeTriplet (lpTokenAddress : Address)
    (underlyingData decimalsData symbolData : Bytes) : TokenData.t :=
  match decodeAddress underlyingData with
  | Some underlyingAddress =>
      match decodeUint8 decimalsData with
      | Some decimals =>
          match decodeString symbolData with
          | Some symbol =>
              if truthy underlyingAddress
                 && strictNe underlyingAddress ZeroAddress
              then TokenData.mk lpTokenAddress underlyingAddress decimals
                     symbol true
              else TokenData.mk lpTokenAddress lpTokenAddress 18 "LP" false
          | None => TokenData.mk lpTokenAddress lpTokenAddress 18 "LP" false
          end
      | None => TokenData.mk lpTokenAddress lpTokenAddress 18 "LP" false
      end
  | None => TokenData.mk lpTokenAddress lpTokenAddress 18 "LP" false
  end.

(** One iteration of [for (let j = 0; j < batch.length; j++)] of stage 2:
    the three results are read first, then their flags are tested. *)
Definition tripletEntry (lpTokenAddress : Address) (j : nat)
    (results : list (bool * Bytes)) : Result TokenData.t :=
  match resultAt results (j * 3) with
  | Err e => Err e
  | Ok underlyingResult =>
      match resultAt results (j * 3 + 1) with
      | Err e => Err e
      | Ok decimalsResult =>
          match resultAt results (j * 3 + 2) with
          | Err e => Err e
          | Ok symbolResult =>
              if fst underlyingResult && fst decimalsResult
                 && fst symbolResult
              then Ok (decodeTriplet lpTokenAddress (snd underlyingResult)
                         (snd decimalsResult) (snd symbolResult))
              else Ok (TokenData.mk lpTokenAddress lpTokenAddress 18 "LP"
                         false)
          end
      end
  end.

Fixpoint processTriplets (batch : list Address) (j : nat)
    (results : list (bool * Bytes)) (tokenData : list TokenData.t)
    : Result unit * list TokenData.t :=
  match batch with
  | [] => (Ok tt, tokenData)
  | lpTokenAddress :: rest =>
      match tripletEntry lpTokenAddress j results with
      | Ok entry => processTriplets rest (S j) results (tokenData ++ [entry])
      | Err e => (Err e, tokenData)
      end
  end.

(** The [catch] of a failed batch of stage 2: the three reads are awaited
    one after the other, so a failed read ends the item. *)
Fixpoint underlyingFallback (chainId : Z) (blockNumber : BlockTag)
    (batch : list Address) (tokenData : list TokenData.t)
    : M (list TokenData.t) :=
  match batch with
  | [] => ret tokenData
  | lpTokenAddress :: rest =>
      tokenData' <-
        tryCatch
          (getProvider chainId ;;;
           ru <- rpc remote (ReqUnderlying chainId lpTokenAddress
                               blockNumber) ;;
           underlyingAddress <- expectAddress ru ;;
           rd <- rpc remote (ReqDecimals chainId lpTokenAddress
                               blockNumber) ;;
           decimals <- expectNumber rd ;;
           rs <- rpc remote (ReqSymbol chainId lpTokenAddress blockNumber) ;;
           symbol <- expectString rs ;;
           if truthy underlyingAddress
              && strictNe underlyingAddress ZeroAddress
           then ret (tokenData ++
                       [TokenData.mk lpTokenAddress underlyingAddress
                          (Z.to_nat decimals) symbol true])
           else ret (tokenData ++
                       [TokenData.mk lpTokenAddress lpTokenAddress 18 "LP"
                          false]))
          (fun _ =>
             ret (tokenData ++
                    [TokenData.mk lpTokenAddress lpTokenAddress 18 "LP"
                       false])) ;;
      underlyingFallback chainId blockNumber rest tokenData'
  end.

Definition underlyingBatch (chainId : Z) (multicall : Address)
    (blockNumber : BlockTag) (batch : list Address)
    (tokenData : list TokenData.t) : M (list TokenData.t) :=
  fun s =>
    match aggregate3 chainId multicall (underlyingCalls batch) blockNumber s
    with
    | (Ok results, s') =>
        match processTriplets batch 0 results tokenData with
        | (Ok _, tokenData') => (Ok tokenData', s')
        | (Err _, tokenData') =>
            underlyingFallback chainId blockNumber batch tokenData' s'
        end
    | (Err _, s') => underlyingFallback chainId blockNumber batch tokenData s'
    end.

Definition batchGetUnderlyingTokens (chainId : Z)
    (lpTokenAddresses : list Address) (blockNumber : BlockTag)
    : M (list TokenData.t) :=
  multicall <- getMulticall chainId ;;
  forBatches (underlyingBatch chainId multicall blockNumber)
    (batches 10 lpTokenAddresses) [].

(** One iteration of the [for j] loop of stage 3. *)
Definition positionEntry (tokenAddress : Address) (j : nat)
    (results : list (bool * Bytes)) : Result PositionResult.t :=
  match resultAt results j with
  | Err e => Err e
  | Ok result =>
      if fst result then
        match decodeInt256 (snd result) with
        | Some position =>
            Ok (PositionResult.mk tokenAddress (toString position) true None)
        | None => Ok (PositionResult.mk tokenAddress "0" false None)
        end
      else Ok (PositionResult.mk tokenAddress "0" false None)
  end.

Fixpoint processPositions (batch : list Address) (j : nat)
    (results : list (bool * Bytes)) (positions : list PositionResult.t)
    : Result unit * list PositionResult.t :=
  match batch with
  | [] => (Ok tt, positions)
  | tokenAddress :: rest =>
      match positionEntry tokenAddress j results with
      | Ok entry => processPositions rest (S j) results (positions ++ [entry])
      | Err e => (Err e, positions)
      end
  end.

Definition positionsBatch (chainId : Z) (creditVault multicall : Address)
    (traderAddress : Address) (blockNumber : BlockTag) (batch : list Address)
    (positions : list PositionResult.t) : M (list PositionResult.t) :=
  fun s =>
    match aggregate3 chainId multicall
            (positionCalls creditVault traderAddress batch) blockNumber s
    with
    | (Ok results, s') =>
        match processPositions batch 0 results positions with
        | (Ok _, positions') => (Ok positions', s')
        | (Err _, positions') =>
            positionsFallback chainId creditVault traderAddress
              blockNumber batch positions' s'
        end
    | (Err _, s') =>
        positionsFallback chainId creditVault traderAddress
          blockNumber batch positions s'
    end.

Definition batchGetPositions (chainId : Z) (traderAddress : Address)
    (tokenAddresses : list Address) (blockNumber : BlockTag)
    : M (list PositionResult.t) :=
  creditVault <- getCreditVaultContract chainId ;;
  multicall <- getMulticall chainId ;;
  forBatches
    (positionsBatch chainId creditVault multicall traderAddress blockNumber)
    (batches 20 tokenAddresses) [].

(** [listPmmPositions]; the join loop is the library's, statement for
    statement.  [startTime] is read before the validation. *)
Definition listPmmPositions (fuel : nat) (pmmAddress : Address) (chainId : Z)
    (targetBlock : BlockTag) (startTime endTime : Z) (s : Fetcher)
    : option (Result Report.t * Fetcher) :=
  if negb (isAddress pmmAddress) then Some (Err "Invalid PMM address", s)
  else
    match CHAIN_CONFIGS chainId with
    | None => Some (Err "Unsupported chain ID", s)
    | Some config =>
        match getAllLPTokens fuel chainId targetBlock s with
        | None => None
        | Some (Err e, s1) => Some (Err e, s1)
        | Some (Ok lpTokens, s1) =>
            if (length lpTokens =? 0)%nat then
              Some (Ok (Report.mk chainId (name config) pmmAddress
                          (truthyBlock targetBlock) []
                          (Summary.mk 0 0 (endTime - startTime))), s1)
            else
              Some
                ((tokenData <-
                    batchGetUnderlyingTokens chainId lpTokens targetBlock ;;
                  positionResults <-
                    batchGetPositions chainId pmmAddress
                      (map TokenData.underlyingAddress tokenData)
                      targetBlock ;;
                  positions <-
                    liftResult (joinLoop formatUnits tokenData 0
                                  positionResults []) ;;
                  ret (Report.mk chainId (name config) pmmAddress
                         (truthyBlock targetBlock) positions
                         (Summary.mk (length tokenData) (length positions)
                            (endTime - startTime)))) s1)
        end
    end.

End Web.
End Web.

(** ** api/pmm-positions.js: the discovery loop of [handler]

    The handler keeps no object state; its state is the request history.
    An error that is not a revert is rethrown and reaches the handler's
    outer [catch], which answers with status 500. *)
Module Api.
Section Api.
Variable remote : History -> Request -> Response.

Definition allLPTokens (chainId : Z) (vault : Address) (index : nat)
    (targetBlock : BlockTag) (h : History) : Result Address * History :=
  let q := ReqAllLPTokens chainId vault index targetBlock in
  (match remote h q with
   | RespAddress a => Ok a
   | RespError e => Err e
   | _ => Err "could not decode result data"
   end, q :: h).

Fixpoint scanLoop (fuel : nat) (chainId : Z) (vault : Address)
    (targetBlock : BlockTag) (index : nat) (lpTokens : list Address)
    (h : History) : option (Result (list Address) * History) :=
  match fuel with
  | O => None
  | S fuel' =>
      match allLPTokens chainId vault index targetBlock h with
      | (Ok lpTokenAddress, h') =>
          if truthy lpTokenAddress && strictNe lpTokenAddress ZeroAddress
          then
            let lpTokens' := lpTokens ++ [lpTokenAddress] in
            let index' := S index in
            if (1000 <? index')%nat
            then Some (Ok lpTokens', h')            (* safety limit *)
            else scanLoop fuel' chainId vault targetBlock index' lpTokens' h'
          else Some (Ok lpTokens, h')
      | (Err message, h') =>
          if includes message "revert"
             || includes message "execution reverted"
          then Some (Ok lpTokens, h')
          else Some (Err message, h')               (* throw error *)
      end
  end.

(** What the handler does with the scan: the list goes on to the next
    stages, an error becomes the body of a 500 response. *)
Inductive Discovery : Type :=
| Discovered (lpTokens : list Address)
| Status500 (error : string).

Definition discover (fuel : nat) (chainId : Z) (vault : Address)
    (targetBlock : BlockTag) (h : History) : option (Discovery * History) :=
  match scanLoop fuel chainId vault targetBlock 0 [] h with
  | None => None
  | Some (Ok lpTokens, h') => Some (Discovered lpTokens, h')
  | Some (Err e, h') => Some (Status500 e, h')
  end.

End Api.
End Api.

(** * Specification-level definitions

    The vocabulary of the properties: what the remote is assumed to do, the
    functions that restate the spec's words, and the shapes the stage
    outputs are shown to have. *)

(** ** The registry scan *)

Section ScanSpecification.
Variable remote : History -> Request -> Response.

(** The reads of indices [from, from + 1, ..., from + count - 1], most
    recent first. *)
Definition readsOf (chainId : Z) (vault : Address) (tag : BlockTag)
    (from count : nat) : History :=
  rev (map (fun i => ReqAllLPTokens chainId vault i tag) (seq from count)).

(** A registry that never gives a terminal signal. *)
Definition neverTerminal (chainId : Z) (vault : Address) (tag : BlockTag)
    : Prop :=
  forall h i, exists a,
    remote h (ReqAllLPTokens chainId vault i tag) = RespAddress a /\
    truthy a && strictNe a ZeroAddress = true.

End ScanSpecification.

(** ** The batch executor with retry *)

(** The calls whose current result has [success = false], in call order:
    what the retry is meant to re-submit. *)
Fixpoint stillFailing (contractCalls : list Call)
    (results : list (Slot CallResult.t)) : list Call :=
  match contractCalls, results with
  | c :: cs, Some r :: rs =>
      if CallResult.success r then stillFailing cs rs
      else c :: stillFailing cs rs
  | _ :: cs, None :: rs => stillFailing cs rs
  | _, _ => []
  end.

(** Put the outcomes of a retry, in order, into the positions whose result
    had failed; every other position keeps its result. *)
Fixpoint patch (results : list (Slot CallResult.t))
    (retryResults : list CallResult.t) : list (Slot CallResult.t) :=
  match results with
  | [] => []
  | Some r :: rest =>
      if CallResult.success r then Some r :: patch rest retryResults
      else head retryResults :: patch rest (tail retryResults)
  | None :: rest => None :: patch rest retryResults
  end.

(** Every slot holds a result and there is one slot per call. *)
Definition complete (contractCalls : list Call)
    (results : list (Slot CallResult.t)) : Prop :=
  length results = length contractCalls /\ Forall is_Some results.

(** The aggregator answers with one result per submitted call. *)
Definition alignedAggregator (remote : History -> Request -> Response)
    : Prop :=
  forall h chainId multicall calls tag rs,
    remote h (ReqAggregate3 chainId multicall calls tag) = RespResults rs ->
    length rs = length calls.

Section RetrySpecification.
Variable remote : History -> Request -> Response.

(** Following the spec's words (4.3, [executeBatchWithRetry]): run the
    batch once, then up to [maxRetries] times re-submit only the calls whose
    result is failing and put the retry outcomes into those positions. *)
Fixpoint retrySpec (retriesLeft : nat) (chainId : Z) (multicall : Address)
    (contractCalls : list Call) (blockNumber : BlockTag)
    (results : list (Slot CallResult.t)) : M (list (Slot CallResult.t)) :=
  match retriesLeft with
  | O => ret results
  | S retriesLeft' =>
      match stillFailing contractCalls results with
      | [] => ret results
      | failing =>
          retryResults <-
            batchCall remote chainId multicall failing blockNumber ;;
          retrySpec retriesLeft' chainId multicall contractCalls blockNumber
            (patch results retryResults)
      end
  end.

Definition executeBatchWithRetry (chainId : Z) (multicall : Address)
    (contractCalls : list Call) (maxRetries : nat) (blockNumber : BlockTag)
    : M (list (Slot CallResult.t)) :=
  results <- batchCall remote chainId multicall contractCalls blockNumber ;;
  retrySpec maxRetries chainId multicall contractCalls blockNumber
    (map Some results).

(** Every result names the call at its own index. *)
Definition callsMatch (contractCalls : list Call)
    (results : list (Slot CallResult.t)) : Prop :=
  forall i r, results !! i = Some (Some r) ->
    CallResult.call r = contractCalls !! i.

(** What one aggregate request does to the fetcher. *)
Definition sent (q : Request) (s s' : Fetcher) : Prop :=
  s' = mkFetcher (providers s) (contracts s) (multicalls s) (q :: trace s).

End RetrySpecification.

(** ** Stage outputs and the report *)

(** The fallback metadata of an item. *)
Definition fallbackMetadata (lpTokenAddress : Address) : TokenData.t :=
  TokenData.mk lpTokenAddress lpTokenAddress 18 "LP" false.

(** An entry that stage 2 may produce for the item [lp]: the fallback, or
    a derived entry with a non-zero resolved reference. *)
Definition resolvedFor (lp : Address) (e : TokenData.t) : Prop :=
  TokenData.lpTokenAddress e = lp /\
  (e = fallbackMetadata lp \/
   (TokenData.isLPToken e = true /\
    TokenData.underlyingAddress e <> ZeroAddress)).

(** An entry that stage 3 may produce for the token [token]: a rendered
    quantity when successful, the placeholder ["0"] otherwise. *)
Definition quotedFor (token : Address) (p : PositionResult.t) : Prop :=
  PositionResult.tokenAddress p = token /\
  (if PositionResult.success p
   then exists z, PositionResult.position p = toString z
   else PositionResult.position p = "0").

(** The signed quantity of a successful stage-3 result. *)
Definition quantityOf (p : PositionResult.t) : option Z :=
  if PositionResult.success p then BigInt (PositionResult.position p)
  else None.

(** Whether the report has an entry for a quantity result. *)
Definition kept (p : PositionResult.t) : bool :=
  match quantityOf p with
  | Some z => negb (z =? 0)
  | None => false
  end.

(** The item identity a report entry stands for. *)
Definition itemOf (e : PositionData.t) : Address :=
  match PositionData.lpTokenAddress e with
  | Some lp => lp
  | None => PositionData.tokenAddress e
  end.

Section ReportSpecification.
Variable remote : History -> Request -> Response.
Variable decodeAddress : Bytes -> option Address.
Variable decodeUint8 : Bytes -> option nat.
Variable decodeString : Bytes -> option string.
Variable decodeInt256 : Bytes -> option Z.
Variable formatUnits : Z -> nat -> string.

(** The report entry of an item with quantity [z]. *)
Definition entryOf (t : TokenData.t) (z : Z) : PositionData.t :=
  PositionData.mk (TokenData.underlyingAddress t) (TokenData.symbol t)
    (if TokenData.isLPToken t then Some (TokenData.lpTokenAddress t)
     else None)
    (toString z) (formatUnits z (TokenData.decimals t))
    (TokenData.decimals t).

(** What the report holds for one index: an entry exactly when the
    quantity result is successful and its quantity is not zero. *)
Definition reported (t : TokenData.t) (p : PositionResult.t)
    : option PositionData.t :=
  match quantityOf p with
  | Some z => if z =? 0 then None else Some (entryOf t z)
  | None => None
  end.

(** The three stage outputs of a run that got past discovery. *)
Definition ranStages (fuel : nat) (pmmAddress : Address) (chainId : Z)
    (tag : BlockTag) (s s' : Fetcher) (lpTokens : list Address)
    (tokenData : list TokenData.t) (positionResults : list PositionResult.t)
    : Prop :=
  exists s1 s2,
    getAllLPTokens remote fuel chainId tag s = Some (Ok lpTokens, s1) /\
    batchGetUnderlyingTokens remote decodeAddress decodeUint8 decodeString
      chainId lpTokens tag s1 = (Ok tokenData, s2) /\
    batchGetPositions remote decodeInt256 chainId pmmAddress
      (map TokenData.underlyingAddress tokenData) tag s2
      = (Ok positionResults, s').

End ReportSpecification.

(** ** Running twice *)

(** A remote whose answers do not depend on what was asked before: its
    state does not change. *)
Definition stateless (remote : History -> Request -> Response) : Prop :=
  forall h h' q, remote h q = remote h' q.

(** The report with the elapsed time blanked. *)
Definition setFetchTime (t : Z) (r : Report.t) : Report.t :=
  Report.mk (Report.chainId r) (Report.chainName r) (Report.pmmAddress r)
    (Report.targetBlock r) (Report.positions r)
    (Summary.mk (Summary.totalTokens (Report.summary r))
       (Summary.tokensWithPositions (Report.summary r)) t).

Definition mapResult {A B} (f : A -> B) (r : Result A) : Result B :=
  match r with
  | Ok a => Ok (f a)
  | Err e => Err e
  end.

(** How the three connection methods of a fetcher answer for a chain. *)
Definition conn (remote : History -> Request -> Response) (chainId : Z)
    (s : Fetcher) : Result unit * Result Address * Result Address :=
  (fst (getProvider remote chainId s),
   fst (getCreditVaultContract remote chainId s),
   fst (getMulticall remote chainId s)).

Section RerunSpecification.
Variable remote : History -> Request -> Response.
Variable chainId : Z.
Variable decodeAddress : Bytes -> option Address.
Variable decodeUint8 : Bytes -> option nat.
Variable decodeString : Bytes -> option string.
Variable decodeInt256 : Bytes -> option Z.
Variable formatUnits : Z -> nat -> string.

(** A method keeps the connection behaviour, and its result depends on the
    fetcher through that behaviour only. *)
Definition Good {A} (f : M A) : Prop :=
  (forall s, conn remote chainId (snd (f s)) = conn remote chainId s) /\
  (forall s s', conn remote chainId s = conn remote chainId s' ->
     fst (f s) = fst (f s')).

(** The scan, whose model may run out of fuel. *)
Definition GoodO {A} (f : Fetcher -> option (Result A * Fetcher)) : Prop :=
  (forall s r s1, f s = Some (r, s1) ->
     conn remote chainId s1 = conn remote chainId s) /\
  (forall s s', conn remote chainId s = conn remote chainId s' ->
     option_map fst (f s) = option_map fst (f s')).

(** The part of [listPmmPositions] after a non-empty discovery. *)
Definition afterDiscovery (pmm : Address) (tag : BlockTag) (config : ChainConfig)
    (lpTokens : list Address) (elapsed : Z) : M Report.t :=
  tokenData <-
    batchGetUnderlyingTokens remote decodeAddress decodeUint8 decodeString
      chainId lpTokens tag ;;
  positionResults <-
    batchGetPositions remote decodeInt256 chainId pmm
      (map TokenData.underlyingAddress tokenData) tag ;;
  positions <- liftResult (joinLoop formatUnits tokenData 0 positionResults []) ;;
  ret (Report.mk chainId (name config) pmm (truthyBlock tag) positions
         (Summary.mk (length tokenData) (length positions) elapsed)).

End RerunSpecification.

(** ** The parser of decimal strings *)

(** Modelled from the spec: [parse] is the inverse named by the round-trip
    property of section 8; the sources have no such function.  It reads an
    optional sign, the whole digits, and, for a positive scale, a point
    followed by exactly [scale] digits; the value is the signed integer
    written by all the digits together. *)
Fixpoint splitPoint (s : string) : string * option string :=
  match s with
  | EmptyString => (EmptyString, None)
  | String c rest =>
      if Ascii.eqb c "." then (EmptyString, Some rest)
      else let (whole, fraction) := splitPoint rest in
           (String c whole, fraction)
  end.

Definition signed (negative : bool) (u : Decimal.uint) : Z :=
  Z.of_int (if negative then Decimal.Neg u else Decimal.Pos u).

Definition parseBody (negative : bool) (body : string) (scale : nat)
    : option Z :=
  let (w, f) := splitPoint body in
  match NilEmpty.uint_of_string w with
  | Some Decimal.Nil => None
  | Some whole =>
      match scale, f with
      | O, None => Some (signed negative whole)
      | S _, Some digits =>
          match NilEmpty.uint_of_string digits with
          | Some fraction =>
              if (Decimal.nb_digits fraction =? scale)%nat
              then Some (signed negative (Decimal.app whole fraction))
              else None
          | None => None
          end
      | _, _ => None
      end
  | None => None
  end.

Definition parse (s : string) (scale : nat) : option Z :=
  match s with
  | String c rest =>
      if Ascii.eqb c "-" then parseBody true rest scale
      else parseBody false s scale
  | EmptyString => None
  end.

(** The decimal strings of a given scale: an optional minus sign, whole
    digits without a superfluous leading zero, and for a positive scale a
    point and exactly [scale] fraction digits; minus zero is not one. *)
Definition decimalString (negative : bool) (whole fraction : Decimal.uint)
    (scale : nat) : string :=
  (if negative then "-" else "") ++
  match scale with
  | O => NilEmpty.string_of_uint whole
  | S _ =>
      NilEmpty.string_of_uint whole ++ "." ++
      NilEmpty.string_of_uint fraction
  end.

Definition isDecimal (scale : nat) (s : string) : Prop :=
  exists negative whole fraction,
    s = decimalString negative whole fraction scale /\
    Decimal.unorm whole = whole /\
    Decimal.nb_digits fraction = scale /\
    (negative = true ->
     Decimal.nzhead (Decimal.app whole fraction) <> Decimal.Nil).

Definition isNegative (d : Decimal.int) : bool :=
  match d with
  | Decimal.Pos _ => false
  | Decimal.Neg _ => true
  end.

(** ** Connections, memo maps and requests *)

(** What the scan collects: a non-empty address other than the zero
    address. *)
Definition collectable (r : Response) : bool :=
  match r with
  | RespAddress a => truthy a && strictNe a ZeroAddress
  | _ => false
  end.

(** The three memo maps are the same in both fetchers. *)
Definition sameMemo (s s' : Fetcher) : Prop :=
  providers s' = providers s /\ contracts s' = contracts s /\
  multicalls s' = multicalls s.

(** The answer of an [await]ed read that must be a number. *)
Definition numberOf (r : Response) : Result Z :=
  match r with
  | RespNumber n => Ok n
  | RespError e => Err e
  | _ => Err "could not decode result data"
  end.

(** The fetcher after one more request. *)
Definition pushed (q : Request) (s : Fetcher) : Fetcher :=
  mkFetcher (providers s) (contracts s) (multicalls s) (q :: trace s).

(** *** What a run may ask the remote *)

(** The liveness probe of [getProvider]. *)
Definition isProbe (q : Request) : bool :=
  match q with
  | ReqBlockNumber _ => true
  | _ => false
  end.

(** The number of liveness probes among some requests. *)
Definition probes (h : History) : nat := length (List.filter isProbe h).

Definition mem (a : Address) (l : list Address) : bool :=
  existsb (String.eqb a) l.

Definition tagEqb (a b : BlockTag) : bool :=
  match a, b with
  | Some x, Some y => x =? y
  | None, None => true
  | _, _ => false
  end.

(** A metadata sub-call of stage 2 on one of the LP tokens [lps]. *)
Definition metadataCall (lps : list Address) (c : Call) : bool :=
  allowFailure c && mem (target c) lps &&
  match callData c with
  | EncPositions _ _ => false
  | _ => true
  end.

(** A quantity sub-call of stage 3: [positions(pmm, token)] on the vault. *)
Definition positionCall (vault pmm : Address) (c : Call) : bool :=
  allowFailure c && String.eqb (target c) vault &&
  match callData c with
  | EncPositions trader _ => String.eqb trader pmm
  | _ => false
  end.

(** The call list of one aggregate request: at most 30 metadata sub-calls,
    or at most 20 quantity sub-calls. *)
Definition withinLimits (vault pmm : Address) (lps : list Address)
    (calls : list Call) : bool :=
  (forallb (metadataCall lps) calls && (length calls <=? 30)%nat)
  || (forallb (positionCall vault pmm) calls && (length calls <=? 20)%nat).

(** The requests a run for owner [pmm] on chain [chainId] at height [tag]
    may send, [lps] being the LP tokens the registry listed; [probe] says
    whether the liveness probe is among them. *)
Definition allowed (probe : bool) (chainId : Z) (config : ChainConfig)
    (pmm : Address) (tag : BlockTag) (lps : list Address) (q : Request)
    : bool :=
  match q with
  | ReqBlockNumber c => probe && (c =? chainId)
  | ReqAllLPTokens c v _ t =>
      (c =? chainId) && String.eqb v (creditVaultAddress config)
      && tagEqb t tag
  | ReqAggregate3 c m calls t =>
      (c =? chainId) && String.eqb m (multicall3Address config)
      && tagEqb t (truthyBlock tag)
      && withinLimits (creditVaultAddress config) pmm lps calls
  | ReqUnderlying c lp t | ReqDecimals c lp t | ReqSymbol c lp t =>
      (c =? chainId) && mem lp lps && tagEqb t tag
  | ReqPositions c v trader _ t =>
      (c =? chainId) && String.eqb v (creditVaultAddress config)
      && String.eqb trader pmm && tagEqb t tag
  end.

(** The configuration of a chain, when it has one. *)
Definition configOf (chainId : Z) : ChainConfig :=
  match CHAIN_CONFIGS chainId with
  | Some config => config
  | None => mkChainConfig "" "" ""
  end.

(** Every memoised provider belongs to a supported chain, and a chain with
    a memoised contract or aggregator has a memoised provider. *)
Definition wellFormed (s : Fetcher) : bool :=
  forallb isValidChainId (providers s)
  && forallb (fun k => has k (providers s)) (contracts s ++ multicalls s).

(** The LP tokens a run discovers from the fetcher [s]. *)
Definition discovered (remote : History -> Request -> Response) (fuel : nat)
    (chainId : Z) (tag : BlockTag) (s : Fetcher) : list Address :=
  match getAllLPTokens remote fuel chainId tag s with
  | Some (Ok lpTokens, _) => lpTokens
  | _ => []
  end.

(** A postcondition that says nothing. *)
Definition anything {A} : A -> Prop := fun _ => True.

Section Discipline.
Variable I : Fetcher -> Prop.
Variable P : Request -> Prop.

(** Started in a state satisfying [I], the method ends in one, has sent
    only requests satisfying [P], and its result satisfies [Q]. *)
Definition Keeps {A} (f : M A) (Q : A -> Prop) : Prop :=
  forall s, I s ->
    I (snd (f s)) /\
    (exists new, trace (snd (f s)) = new ++ trace s /\ Forall P new) /\
    (forall a, fst (f s) = Ok a -> Q a).

Definition KeepsO {A} (f : Fetcher -> option (Result A * Fetcher))
    (Q : A -> Prop) : Prop :=
  forall s r s', I s -> f s = Some (r, s') ->
    I s' /\
    (exists new, trace s' = new ++ trace s /\ Forall P new) /\
    (forall a, r = Ok a -> Q a).

End Discipline.

(** A well-formed fetcher with a memoised provider for the chain. *)
Definition connected (chainId : Z) (s : Fetcher) : Prop :=
  wellFormed s = true /\ has chainId (providers s) = true.

(** ** Stage outputs against an arbitrary aggregator *)

(** What a loop body may append for one batch: entries for a prefix of the
    batch (pushed before a throw), followed by one entry per item. *)
Definition covers {A B} (R : A -> B -> Prop) (batch : list A) (new : list B)
    : Prop :=
  exists extra entries k,
    new = extra ++ entries /\ Forall2 R batch entries /\
    Forall2 R (take k batch) extra.

(** A well-formed report entry for the discovered LP tokens [lps]: a
    non-zero quantity, rendered and formatted at the entry's scale, for one
    of the discovered items, with either a derived token that is not the
    zero address or the fallback label and scale. *)
Definition wellFormedEntry (formatUnits : Z -> nat -> string)
    (lps : list Address) (e : PositionData.t) : Prop :=
  (exists z, z <> 0 /\ PositionData.position e = toString z /\
     PositionData.positionFormatted e
     = formatUnits z (PositionData.decimals e)) /\
  itemOf e ∈ lps /\
  match PositionData.lpTokenAddress e with
  | Some _ => PositionData.tokenAddress e <> ZeroAddress
  | None => PositionData.tokenSymbol e = "LP" /\
            PositionData.decimals e = 18%nat
  end.


(** ** The browser build *)

(** The entry the browser's serial fallback records for a direct quantity
    read answered with [r]. *)
Definition webQuantity (token : Address) (r : Response) : PositionResult.t :=
  match r with
  | RespNumber z => PositionResult.mk token (toString z) true None
  | _ => PositionResult.mk token "0" false None
  end.

(** The direct quantity reads for some tokens, most recent first. *)
Definition positionReads (chainId : Z) (vault trader : Address)
    (tag : BlockTag) (tokens : list Address) : History :=
  rev (map (fun token => ReqPositions chainId vault trader token tag) tokens).

(** The requests a browser run may send: no liveness probe, and every
    request, the aggregate ones included, at the requested height. *)
Definition allowedWeb (chainId : Z) (config : ChainConfig) (pmm : Address)
    (tag : BlockTag) (lps : list Address) (q : Request) : bool :=
  match q with
  | ReqAggregate3 c m calls t =>
      (c =? chainId) && String.eqb m (multicall3Address config)
      && tagEqb t tag
      && withinLimits (creditVaultAddress config) pmm lps calls
  | _ => allowed false chainId config pmm tag lps q
  end.

(** The LP tokens a browser run discovers from the fetcher [s]. *)
Definition discoveredWeb (remote : History -> Request -> Response)
    (fuel : nat) (chainId : Z) (tag : BlockTag) (s : Fetcher)
    : list Address :=
  match Web.getAllLPTokens remote fuel chainId tag s with
  | Some (Ok lpTokens, _) => lpTokens
  | _ => []
  end.

(** * Concrete chains

    Remotes and codecs on which the definitions are run. *)

Definition lpA : Address := "0x1111111111111111111111111111111111111111".

Definition lpB : Address := "0x2222222222222222222222222222222222222222".

Definition lpC : Address := "0x3333333333333333333333333333333333333333".

Definition vaultEth : Address := "0xe3D41d19564922C9952f692C5Dd0563030f5f2EF".

(** A registry that answers every index with a non-zero address. *)
Definition endlessRegistry : History -> Request -> Response :=
  fun _ q =>
    match q with
    | ReqBlockNumber _ => RespNumber 19000000
    | ReqAllLPTokens _ _ _ _ => RespAddress lpA
    | _ => RespError "execution reverted"
    end.

(** A registry whose read of index [failAt] fails with a transport error,
    every earlier index answering with an address. *)
Definition flakyRegistry (failAt : nat) : History -> Request -> Response :=
  fun _ q =>
    match q with
    | ReqBlockNumber _ => RespNumber 19000000
    | ReqAllLPTokens _ _ index _ =>
        if (index <? failAt)%nat then RespAddress lpA
        else RespError "network timeout"
    | _ => RespError "execution reverted"
    end.

(** An aggregator on which the [decimals()] sub-call fails in the first
    aggregate request of a run and succeeds in every later one. *)
Definition isAggregate (q : Request) : bool :=
  match q with
  | ReqAggregate3 _ _ _ _ => true
  | _ => false
  end.

Definition flakyAggregator : History -> Request -> Response :=
  fun h q =>
    match q with
    | ReqBlockNumber _ => RespNumber 19000000
    | ReqAggregate3 _ _ calls _ =>
        RespResults
          (map (fun c =>
                  match callData c with
                  | EncDecimals => (existsb isAggregate h, "6")
                  | EncSymbol => (true, "USDC")
                  | _ => (true, "0xA0b86991c6218b36c1d19D4a2e9Eb0cE3606eB48")
                  end) calls)
    | _ => RespError "execution reverted"
    end.

(** *** A concrete chain

    Three registered LP tokens.  [lpA] resolves to [tokenA] (6 decimals) and
    the owner is short 1500 units of it; [lpB] reports the zero address as
    its underlying and the owner holds nothing of it; the [underlying()]
    call of [lpC] fails at every attempt, and so does the quantity read for
    it.  Raw data is written as text, and the codec reads it back. *)

Definition tokenA : Address := "0xA0b86991c6218b36c1d19D4a2e9Eb0cE3606eB48".

Definition trader : Address := "0x26a5652812905cc994009902c4b4dff950f96775".

Definition demoCall (c : Call) : bool * Bytes :=
  match callData c with
  | EncUnderlying =>
      if String.eqb (target c) lpA then (true, tokenA)
      else if String.eqb (target c) lpB then (true, ZeroAddress)
      else (false, "")
  | EncDecimals => (true, "6")
  | EncSymbol => (true, "USDC")
  | EncPositions _ token =>
      if String.eqb token tokenA then (true, "-1500")
      else if String.eqb token lpB then (true, "0")
      else (false, "")
  end.

Definition demoRemote : History -> Request -> Response :=
  fun _ q =>
    match q with
    | ReqBlockNumber _ => RespNumber 19000000
    | ReqAllLPTokens _ _ index _ =>
        nth index [RespAddress lpA; RespAddress lpB; RespAddress lpC]
          (RespError "execution reverted")
    | ReqAggregate3 _ _ calls _ => RespResults (map demoCall calls)
    | _ => RespError "execution reverted"
    end.

Definition demoIsAddress (a : string) : bool :=
  (String.length a =? 42)%nat.

Definition demoDecodeAddress (b : Bytes) : option Address :=
  if (String.length b =? 42)%nat then Some b else None.

Definition demoDecodeUint8 (b : Bytes) : option nat :=
  option_map Z.to_nat (BigInt b).

Definition demoDecodeString (b : Bytes) : option string := Some b.

Definition demoRun (startTime endTime : Z)
    : option (Result Report.t * Fetcher) :=
  listPmmPositions demoRemote demoIsAddress demoDecodeAddress
    demoDecodeUint8 demoDecodeString BigInt format 1001 trader 1 None
    startTime endTime emptyFetcher.

Definition demoReport (elapsed : Z) : Report.t :=
  Report.mk 1 "Ethereum" trader None
    [PositionData.mk tokenA "USDC" (Some lpA) "-1500" "-0.001500" 6]
    (Summary.mk 3 1 elapsed).

Definition demoFinal : Fetcher :=
  Eval vm_compute in
    match demoRun 0 0 with
    | Some (_, s) => s
    | None => emptyFetcher
    end.

(** An aggregator that answers with the first three results only,
    whatever the number of calls. *)
Definition shortAggregator : History -> Request -> Response :=
  fun _ q =>
    match q with
    | ReqBlockNumber _ => RespNumber 19000000
    | ReqAggregate3 _ _ calls _ => RespResults (firstn 3 (map demoCall calls))
    | _ => RespError "execution reverted"
    end.

(** A chain on which every aggregate request fails outright and the direct
    quantity read fails as well. *)
Definition brokenRemote : History -> Request -> Response :=
  fun _ q =>
    match q with
    | ReqBlockNumber _ => RespNumber 19000000
    | ReqAggregate3 _ _ _ _ => RespError "aggregate3 unavailable"
    | ReqPositions _ _ _ _ _ => RespError "request timeout"
    | _ => RespError "execution reverted"
    end.

(** Two runs for the same owner, chain and pinned height on the concrete
    chain, the second on the fetcher the first one left behind. *)
Definition pinnedRun (startTime endTime : Z) (s : Fetcher)
    : option (Result Report.t * Fetcher) :=
  listPmmPositions demoRemote demoIsAddress demoDecodeAddress
    demoDecodeUint8 demoDecodeString BigInt format 1001 trader 1
    (Some 19000000) startTime endTime s.

Definition pinnedReport (elapsed : Z) : Report.t :=
  Report.mk 1 "Ethereum" trader (Some 19000000)
    [PositionData.mk tokenA "USDC" (Some lpA) "-1500" "-0.001500" 6]
    (Summary.mk 3 1 elapsed).

Definition pinnedFinal : Fetcher :=
  Eval vm_compute in
    match pinnedRun 0 0 emptyFetcher with
    | Some (_, s) => s
    | None => emptyFetcher
    end.

(** * Properties *)

(** ** Stage 1: the registry scan *)

Section ScanProperties.
Variable remote : History -> Request -> Response.

Lemma readsOf_S chainId vault tag from count :
  readsOf chainId vault tag from (S count) =
  readsOf chainId vault tag (S from) count ++
  [ReqAllLPTokens chainId vault from tag].
Proof. unfold readsOf. simpl. reflexivity. Qed.

Lemma scanLoop_total fuel : forall chainId vault tag index lpTokens s,
  (index <= 1000)%nat -> (1001 - index <= fuel)%nat ->
  exists lps s',
    scanLoop remote fuel chainId vault tag index lpTokens s
      = Some (Ok lps, s') /\
    (length lps <= length lpTokens + (1001 - index))%nat /\
    (forall fuel', (1001 - index <= fuel')%nat ->
       scanLoop remote fuel' chainId vault tag index lpTokens s
         = Some (Ok lps, s')).
Proof.
  induction fuel as [|fuel IH]; intros chainId vault tag index lpTokens s Hi Hf.
  - lia.
  - assert (Hstep: forall f, scanLoop remote (S f) chainId vault tag index lpTokens s =
      match (bind (rpc remote (ReqAllLPTokens chainId vault index tag)) expectAddress) s with
      | (Ok a, s') =>
          if truthy a && strictNe a ZeroAddress
          then if (1000 <? S index)%nat then Some (Ok (lpTokens ++ [a]), s')
               else scanLoop remote f chainId vault tag (S index) (lpTokens ++ [a]) s'
          else Some (Ok lpTokens, s')
      | (Err message, s') =>
          if includes message "revert" || includes message "execution reverted"
          then Some (Ok lpTokens, s') else Some (Ok lpTokens, s')
      end) by reflexivity.
    rewrite Hstep.
    match goal with
    | |- context [match ?m with (_, _) => _ end] =>
        destruct m as [[a|e] s'] eqn:E
    end.
    + destruct (truthy a && strictNe a ZeroAddress) eqn:Ea.
      * destruct (1000 <? S index)%nat eqn:Ecap.
        -- exists (lpTokens ++ [a]), s'. split; [reflexivity|]. split.
           ++ rewrite length_app. simpl. lia.
           ++ intros [|f'] Hf'; [lia|]. apply Hstep.
        -- apply Nat.ltb_ge in Ecap.
           destruct (IH chainId vault tag (S index) (lpTokens ++ [a]) s')
             as (lps & s'' & H1 & H2 & H3); [lia|lia|].
           exists lps, s''. split; [exact H1|]. split.
           ++ rewrite length_app in H2. simpl in H2. lia.
           ++ intros [|f'] Hf'; [lia|]. rewrite Hstep. apply H3. lia.
      * exists lpTokens, s'. split; [reflexivity|]. split; [lia|].
        intros [|f'] Hf'; [lia|]. apply Hstep.
    + destruct (includes e "revert" || includes e "execution reverted");
        (exists lpTokens, s'; split; [reflexivity|]; split; [lia|];
         intros [|f'] Hf'; [lia|]; apply Hstep).
Qed.

Lemma rpc_expectAddress_neverTerminal chainId vault tag :
  neverTerminal remote chainId vault tag ->
  forall index s, exists a,
    bind (rpc remote (ReqAllLPTokens chainId vault index tag)) expectAddress s
      = (Ok a, mkFetcher (providers s) (contracts s) (multicalls s)
                 (ReqAllLPTokens chainId vault index tag :: trace s)) /\
    truthy a && strictNe a ZeroAddress = true.
Proof.
  intros Hn index s. destruct (Hn (trace s) index) as (a & Ha & Hok).
  exists a. split; [|exact Hok].
  unfold bind, rpc. rewrite Ha. reflexivity.
Qed.

Lemma scanLoop_neverTerminal chainId vault tag :
  neverTerminal remote chainId vault tag ->
  forall fuel index lpTokens s,
    (index <= 1000)%nat -> (1001 - index <= fuel)%nat ->
    exists lps s',
      scanLoop remote fuel chainId vault tag index lpTokens s
        = Some (Ok lps, s') /\
      length lps = (length lpTokens + (1001 - index))%nat /\
      trace s' = readsOf chainId vault tag index (1001 - index) ++ trace s.
Proof.
  intros Hn fuel. induction fuel as [|fuel IH]; intros index lpTokens s Hi Hf.
  - lia.
  - destruct (rpc_expectAddress_neverTerminal chainId vault tag Hn index s)
      as (a & Hread & Hok).
    assert (Hstep: scanLoop remote (S fuel) chainId vault tag index lpTokens s =
      match (bind (rpc remote (ReqAllLPTokens chainId vault index tag)) expectAddress) s with
      | (Ok a, s') =>
          if truthy a && strictNe a ZeroAddress
          then if (1000 <? S index)%nat then Some (Ok (lpTokens ++ [a]), s')
               else scanLoop remote fuel chainId vault tag (S index) (lpTokens ++ [a]) s'
          else Some (Ok lpTokens, s')
      | (Err message, s') =>
          if includes message "revert" || includes message "execution reverted"
          then Some (Ok lpTokens, s') else Some (Ok lpTokens, s')
      end) by reflexivity.
    rewrite Hstep, Hread, Hok. clear Hstep.
    destruct (1000 <? S index)%nat eqn:Ecap.
    + apply Nat.ltb_lt in Ecap. assert (index = 1000%nat) by lia. subst index.
      eexists _, _. split; [reflexivity|]. split.
      * rewrite length_app. simpl. lia.
      * reflexivity.
    + apply Nat.ltb_ge in Ecap.
      destruct (IH (S index) (lpTokens ++ [a])
                  (mkFetcher (providers s) (contracts s) (multicalls s)
                     (ReqAllLPTokens chainId vault index tag :: trace s)))
        as (lps & s'' & H1 & H2 & H3); [lia|lia|].
      exists lps, s''. split; [exact H1|]. split.
      * rewrite H2, length_app. simpl. lia.
      * rewrite H3. simpl.
        replace (1001 - index)%nat with (S (1001 - S index)) by lia.
        rewrite readsOf_S, <- app_assoc. reflexivity.
Qed.

(** The same two facts for the handler's loop. *)

Lemma api_scanLoop_S fuel chainId vault tag index lpTokens h :
  Api.scanLoop remote (S fuel) chainId vault tag index lpTokens h =
  match Api.allLPTokens remote chainId vault index tag h with
  | (Ok a, h') =>
      if truthy a && strictNe a ZeroAddress
      then if (1000 <? S index)%nat then Some (Ok (lpTokens ++ [a]), h')
           else Api.scanLoop remote fuel chainId vault tag (S index)
                  (lpTokens ++ [a]) h'
      else Some (Ok lpTokens, h')
  | (Err message, h') =>
      if includes message "revert" || includes message "execution reverted"
      then Some (Ok lpTokens, h') else Some (Err message, h')
  end.
Proof. reflexivity. Qed.

Lemma api_scanLoop_total fuel : forall chainId vault tag index lpTokens h,
  (index <= 1000)%nat -> (1001 - index <= fuel)%nat ->
  exists r h',
    Api.scanLoop remote fuel chainId vault tag index lpTokens h
      = Some (r, h') /\
    (forall lps, r = Ok lps ->
       (length lps <= length lpTokens + (1001 - index))%nat).
Proof.
  induction fuel as [|fuel IH]; intros chainId vault tag index lpTokens h Hi Hf.
  - lia.
  - rewrite api_scanLoop_S.
    destruct (Api.allLPTokens remote chainId vault index tag h)
      as [[a|e] h'] eqn:E.
    + destruct (truthy a && strictNe a ZeroAddress) eqn:Ea.
      * destruct (1000 <? S index)%nat eqn:Ecap.
        -- eexists _, _. split; [reflexivity|]. intros lps [= <-].
           rewrite length_app. simpl. lia.
        -- apply Nat.ltb_ge in Ecap.
           destruct (IH chainId vault tag (S index) (lpTokens ++ [a]) h')
             as (r & h'' & H1 & H2); [lia|lia|].
           exists r, h''. split; [exact H1|]. intros lps Hr.
           specialize (H2 lps Hr). rewrite length_app in H2. simpl in H2. lia.
      * eexists _, _. split; [reflexivity|]. intros lps [= <-]. lia.
    + destruct (includes e "revert" || includes e "execution reverted").
      * eexists _, _. split; [reflexivity|]. intros lps [= <-]. lia.
      * eexists _, _. split; [reflexivity|]. intros lps [=].
Qed.

Lemma api_scanLoop_neverTerminal chainId vault tag :
  neverTerminal remote chainId vault tag ->
  forall fuel index lpTokens h,
    (index <= 1000)%nat -> (1001 - index <= fuel)%nat ->
    exists lps h',
      Api.scanLoop remote fuel chainId vault tag index lpTokens h
        = Some (Ok lps, h') /\
      length lps = (length lpTokens + (1001 - index))%nat /\
      h' = readsOf chainId vault tag index (1001 - index) ++ h.
Proof.
  intros Hn fuel. induction fuel as [|fuel IH]; intros index lpTokens h Hi Hf.
  - lia.
  - rewrite api_scanLoop_S. unfold Api.allLPTokens.
    destruct (Hn h index) as (a & Ha & Hok). rewrite Ha, Hok.
    destruct (1000 <? S index)%nat eqn:Ecap.
    + apply Nat.ltb_lt in Ecap. assert (index = 1000%nat) by lia. subst index.
      eexists _, _. split; [reflexivity|]. split.
      * rewrite length_app. simpl. lia.
      * reflexivity.
    + apply Nat.ltb_ge in Ecap.
      destruct (IH (S index) (lpTokens ++ [a])
                  (ReqAllLPTokens chainId vault index tag :: h))
        as (lps & h'' & H1 & H2 & H3); [lia|lia|].
      exists lps, h''. split; [exact H1|]. split.
      * rewrite H2, length_app. simpl. lia.
      * rewrite H3.
        replace (1001 - index)%nat with (S (1001 - S index)) by lia.
        rewrite readsOf_S, <- app_assoc. reflexivity.
Qed.

End ScanProperties.

(** ** The batch executor with retry *)

Section RetryProperties.
Variable remote : History -> Request -> Response.

Lemma tail_drop {A} (l : list A) : forall k, tail (drop k l) = drop (S k) l.
Proof.
  induction l as [|x l IH]; intros [|k]; simpl; try reflexivity.
  apply IH.
Qed.

Lemma overwrite_patch calls retryResults : forall post pre k failed,
  failedCalls calls (length pre) post = Ok failed ->
  overwrite failed k retryResults (pre ++ post)
    = pre ++ patch post (drop k retryResults).
Proof.
  induction post as [|[r|] rest IH]; intros pre k failed Hf; simpl in Hf.
  - injection Hf as <-. reflexivity.
  - destruct (failedCalls calls (S (length pre)) rest) as [f'|e] eqn:E;
      [|discriminate].
    injection Hf as <-. simpl.
    destruct (CallResult.success r).
    + specialize (IH (pre ++ [Some r]) k f').
      rewrite length_app, Nat.add_1_r in IH.
      replace (pre ++ Some r :: rest) with ((pre ++ [Some r]) ++ rest)
        by (now rewrite <- app_assoc).
      rewrite IH by exact E. now rewrite <- app_assoc.
    + simpl.
      specialize (IH (pre ++ [retryResults !! k]) (S k) f').
      rewrite length_app, Nat.add_1_r in IH.
      replace (<[length pre:=retryResults !! k]> (pre ++ Some r :: rest))
        with ((pre ++ [retryResults !! k]) ++ rest).
      * rewrite IH by exact E. rewrite <- app_assoc. simpl.
        f_equal. f_equal.
        -- now rewrite head_lookup, lookup_drop, Nat.add_0_r.
        -- now rewrite tail_drop.
      * rewrite insert_app_r_alt by lia.
        rewrite Nat.sub_diag. now rewrite <- app_assoc.
  - discriminate.
Qed.

Lemma failedCalls_stillFailing : forall results calls pre,
  Forall is_Some results ->
  (length results <= length calls)%nat ->
  exists failed,
    failedCalls (pre ++ calls) (length pre) results = Ok failed /\
    mapM snd failed = Some (stillFailing calls results).
Proof.
  induction results as [|[r|] rest IH]; intros calls pre Hall Hlen.
  - exists []. split; [reflexivity|]. now destruct calls.
  - destruct calls as [|c cs]; [simpl in Hlen; lia|].
    inversion Hall as [|? ? _ Hrest]; subst.
    destruct (IH cs (pre ++ [c]) Hrest) as (f' & Hf' & Hm);
      [simpl in Hlen; lia|].
    rewrite length_app, Nat.add_1_r, <- app_assoc in Hf'. simpl in Hf'.
    simpl. rewrite Hf'.
    destruct (CallResult.success r).
    + exists f'. split; [reflexivity|exact Hm].
    + eexists. split; [reflexivity|].
      rewrite lookup_app_r by lia. rewrite Nat.sub_diag. simpl.
      rewrite Hm. reflexivity.
  - inversion Hall as [|? ? Hnone _]; subst. destruct Hnone as [? [=]].
Qed.

(** [patch] keeps the length, keeps every successful result, and fills
    the failing positions when there are enough retry outcomes. *)
Lemma length_patch : forall results rr, length (patch results rr) = length results.
Proof.
  induction results as [|[r|] rest IH]; intros rr; simpl; auto.
  destruct (CallResult.success r); simpl; now rewrite IH.
Qed.

Lemma patch_keeps_success : forall results rr i r,
  results !! i = Some (Some r) -> CallResult.success r = true ->
  patch results rr !! i = Some (Some r).
Proof.
  induction results as [|[x|] rest IH]; intros rr [|i] r Hi Hs; simpl in *;
    try discriminate.
  - injection Hi as ->. now rewrite Hs.
  - destruct (CallResult.success x); simpl; now apply IH.
  - now apply IH.
Qed.

Lemma patch_complete : forall calls results rr,
  complete calls results ->
  length rr = length (stillFailing calls results) ->
  complete calls (patch results rr).
Proof.
  intros calls results rr [Hlen Hall] Hrr. split.
  - now rewrite length_patch.
  - revert calls rr Hlen Hrr. induction Hall as [|x rest Hx Hrest IH];
      intros calls rr Hlen Hrr; [constructor|].
    destruct calls as [|c cs]; [discriminate|].
    destruct x as [r|]; [|destruct Hx as [? [=]]].
    simpl in *. destruct (CallResult.success r).
    + constructor; [eauto|]. apply (IH cs); [lia|exact Hrr].
    + destruct rr as [|x rr]; [discriminate|]. simpl in *.
      constructor; [eauto|]. apply (IH cs); lia.
Qed.

Lemma batchCall_sent chainId multicall calls tag s r s' :
  batchCall remote chainId multicall calls tag s = (r, s') ->
  sent (ReqAggregate3 chainId multicall calls (truthyBlock tag)) s s'.
Proof.
  unfold batchCall, aggregate3, bind, rpc, expectResults, sent.
  destruct (remote (trace s) _); simpl; intros [= _ <-]; reflexivity.
Qed.

Lemma batchCall_ok chainId multicall calls tag s rs s' :
  alignedAggregator remote ->
  batchCall remote chainId multicall calls tag s = (Ok rs, s') ->
  length rs = length calls /\
  (forall i r, rs !! i = Some r -> CallResult.call r = calls !! i).
Proof.
  intros Hal. unfold batchCall, aggregate3, bind, rpc, expectResults.
  destruct (remote (trace s) _) as [| | | |raw] eqn:E; simpl; try discriminate.
  intros [= <- _]. split.
  - rewrite length_imap. eapply Hal, E.
  - intros i r Hi. rewrite list_lookup_imap in Hi.
    destruct (raw !! i); simpl in Hi; [|discriminate].
    now injection Hi as <-.
Qed.

Lemma complete_map_Some calls (rs : list CallResult.t) :
  length rs = length calls -> complete calls (map Some rs).
Proof.
  intros H. split; [now rewrite length_map|].
  apply Forall_forall. intros x Hx. apply list_elem_of_In, in_map_iff in Hx.
  destruct Hx as (r & <- & _). eauto.
Qed.

Lemma mapM_snd_length (failed : list (nat * option Call)) calls :
  mapM snd failed = Some calls -> length failed = length calls.
Proof. intros H. eapply (length_mapM snd), H. Qed.

Lemma retryLoop_refines chainId multicall calls tag :
  alignedAggregator remote ->
  forall n results s, complete calls results ->
    retryLoop remote n chainId multicall calls tag results s
      = retrySpec remote n chainId multicall calls tag results s.
Proof.
  intros Hal. induction n as [|n IH]; intros results s Hc; [reflexivity|].
  destruct Hc as [Hlen Hall].
  destruct (failedCalls_stillFailing results calls [] Hall) as (failed & Hf & Hm);
    [lia|].
  simpl in Hf. pose proof (mapM_snd_length _ _ Hm) as Hfl.
  cbn [retryLoop retrySpec]. unfold bind, liftResult, retryCalls, ret.
  rewrite Hf.
  destruct (stillFailing calls results) as [|c failing] eqn:Efail.
  - destruct failed; [reflexivity|discriminate].
  - destruct failed as [|f0 failed]; [discriminate|].
    cbn [length Nat.eqb]. rewrite Hm.
    destruct (batchCall remote chainId multicall (c :: failing) tag s)
      as [[rr|e] s1] eqn:Eb; [|reflexivity].
    pose proof (overwrite_patch calls rr results [] 0 (f0 :: failed) Hf) as Ho.
    rewrite drop_0 in Ho. simpl app in Ho. rewrite Ho.
    apply IH. apply patch_complete; [now split|].
    rewrite Efail. now apply (batchCall_ok _ _ _ _ _ _ _ Hal Eb).
Qed.

Lemma patch_callsMatch : forall calls results rr,
  length results = length calls ->
  callsMatch calls results ->
  (forall k x, rr !! k = Some x ->
     CallResult.call x = stillFailing calls results !! k) ->
  length rr = length (stillFailing calls results) ->
  callsMatch calls (patch results rr).
Proof.
  induction calls as [|c cs IH]; intros [|x rest] rr Hlen Hcm Hrr Hl;
    try discriminate.
  assert (Hrest: callsMatch cs rest)
    by (intros i r Hi; apply (Hcm (S i) r Hi)).
  destruct x as [r0|]; simpl in *.
  - destruct (CallResult.success r0) eqn:Es.
    + intros [|i] r Hi; simpl in Hi.
      * injection Hi as <-. apply (Hcm 0%nat r0 eq_refl).
      * apply (IH rest rr) in Hi; auto.
    + destruct rr as [|y rr]; [discriminate|]. simpl in *.
      intros [|i] r Hi; simpl in Hi.
      * injection Hi as <-. apply (Hrr 0%nat y eq_refl).
      * apply (IH rest rr) in Hi; auto.
        intros k z Hk. apply (Hrr (S k) z Hk).
  - intros [|i] r Hi; simpl in Hi; [discriminate|].
    apply (IH rest rr) in Hi; auto.
Qed.

Lemma retrySpec_props chainId multicall calls tag :
  alignedAggregator remote ->
  forall n results s out s',
    complete calls results -> callsMatch calls results ->
    retrySpec remote n chainId multicall calls tag results s = (out, s') ->
    (exists retries,
        trace s' = retries ++ trace s /\ (length retries <= n)%nat) /\
    forall final, out = Ok final ->
      complete calls final /\ callsMatch calls final /\
      forall i r, results !! i = Some (Some r) ->
        CallResult.success r = true -> final !! i = Some (Some r).
Proof.
  intros Hal. induction n as [|n IH]; intros results s out s' Hc Hcm H.
  - injection H as <- <-. split.
    + exists []. split; [reflexivity|simpl; lia].
    + intros final [= <-]. auto.
  - simpl in H. destruct (stillFailing calls results) as [|c failing] eqn:Ef.
    + injection H as <- <-. split.
      * exists []. split; [reflexivity|simpl; lia].
      * intros final [= <-]. auto.
    + unfold bind in H.
      destruct (batchCall remote chainId multicall (c :: failing) tag s)
        as [[rr|e] s1] eqn:Eb.
      * pose proof (batchCall_sent _ _ _ _ _ _ _ Eb) as Hs.
        destruct (batchCall_ok _ _ _ _ _ _ _ Hal Eb) as [Hl Hcall].
        assert (Hc': complete calls (patch results rr))
          by (apply patch_complete; [exact Hc|now rewrite Ef]).
        assert (Hcm': callsMatch calls (patch results rr)).
        { apply patch_callsMatch; [apply Hc|exact Hcm| |now rewrite Ef].
          rewrite Ef. exact Hcall. }
        destruct (IH _ _ _ _ Hc' Hcm' H) as [(retries & Ht & Hn) Hfin].
        split.
        -- exists (retries ++ [ReqAggregate3 chainId multicall (c :: failing)
                                 (truthyBlock tag)]).
           rewrite Ht, Hs. simpl. rewrite <- app_assoc. split; [reflexivity|].
           rewrite length_app. simpl. lia.
        -- intros final ->. destruct (Hfin final eq_refl) as (H1 & H2 & H3).
           split; [exact H1|]. split; [exact H2|].
           intros i r Hi Hsucc. apply H3; [|exact Hsucc].
           now apply patch_keeps_success.
      * injection H as <- <-.
        pose proof (batchCall_sent _ _ _ _ _ _ _ Eb) as Hs.
        split.
        -- exists [ReqAggregate3 chainId multicall (c :: failing)
                     (truthyBlock tag)].
           rewrite Hs. split; [reflexivity|simpl; lia].
        -- intros final [=].
Qed.

End RetryProperties.

Lemma batchCallWithRetry_complete remote chainId multicall calls n tag s
    results s' :
  alignedAggregator remote ->
  batchCallWithRetry remote chainId multicall calls n tag s
    = (Ok results, s') ->
  complete calls results.
Proof.
  intros Hal H. unfold batchCallWithRetry, bind in H.
  destruct (batchCall remote chainId multicall calls tag s)
    as [[r0|e] s0] eqn:Eb; [|discriminate].
  destruct (batchCall_ok _ _ _ _ _ _ _ _ Hal Eb) as [Hlen Hcall].
  assert (Hc: complete calls (map Some r0)) by now apply complete_map_Some.
  rewrite retryLoop_refines in H by assumption.
  eapply retrySpec_props in H; [|exact Hal|exact Hc|].
  - destruct H as [_ H]. now apply (H results eq_refl).
  - intros i r Hi. rewrite list_lookup_fmap in Hi.
    destruct (r0 !! i) as [x|] eqn:Ei; simpl in Hi; [|discriminate].
    injection Hi as ->. now apply Hcall.
Qed.

(** ** Decimal renderings *)

Lemma to_int_not_nil z :
  Z.to_int z <> Decimal.Pos Decimal.Nil /\
  Z.to_int z <> Decimal.Neg Decimal.Nil.
Proof.
  destruct z as [|p|p]; simpl; split; try discriminate;
    intros [= H]; now apply (DecimalPos.Unsigned.to_uint_nonnil p).
Qed.

Lemma BigInt_toString z : BigInt (toString z) = Some z.
Proof.
  unfold BigInt, toString. destruct (to_int_not_nil z) as [H1 H2].
  rewrite NilZero.isi by assumption. simpl. now rewrite DecimalZ.of_to.
Qed.

Lemma toString_inj a b : toString a = toString b -> a = b.
Proof.
  intros H. apply (f_equal BigInt) in H.
  rewrite !BigInt_toString in H. now injection H.
Qed.

Lemma toString_zero z : toString z = "0" <-> z = 0.
Proof.
  split; [|now intros ->]. intros H. now apply toString_inj.
Qed.

Lemma strictNe_true a b : strictNe a b = true <-> a <> b.
Proof.
  unfold strictNe. rewrite negb_true_iff. apply String.eqb_neq.
Qed.

(** ** Batching *)

Lemma concat_slices {A} (batchSize : nat) (l : list A) :
  (1 <= batchSize)%nat ->
  forall fuel i, (length l - i <= fuel)%nat ->
    concat (slices fuel batchSize i l) = drop i l.
Proof.
  intros Hb. induction fuel as [|fuel IH]; intros i Hf.
  - simpl. symmetry. apply drop_ge. lia.
  - simpl. destruct (i <? length l)%nat eqn:E.
    + apply Nat.ltb_lt in E. simpl. rewrite IH by lia.
      rewrite <- (drop_drop l batchSize i). apply take_drop.
    + apply Nat.ltb_ge in E. simpl. symmetry. now apply drop_ge.
Qed.

Lemma concat_batches {A} (batchSize : nat) (l : list A) :
  (1 <= batchSize)%nat -> concat (batches batchSize l) = l.
Proof.
  intros Hb. unfold batches. rewrite concat_slices by lia. apply drop_0.
Qed.

(** ** Stages 2 and 3 *)

Section StageProperties.
Variable remote : History -> Request -> Response.
Variable decodeAddress : Bytes -> option Address.
Variable decodeUint8 : Bytes -> option nat.
Variable decodeString : Bytes -> option string.
Variable decodeInt256 : Bytes -> option Z.

Lemma forBatches_app {A B} (R : A -> B -> Prop)
    (body : list A -> list B -> M (list B)) :
  (forall batch acc s, exists entries s',
      body batch acc s = (Ok (acc ++ entries), s') /\
      Forall2 R batch entries) ->
  forall bs acc s, exists entries s',
    forBatches body bs acc s = (Ok (acc ++ entries), s') /\
    Forall2 R (concat bs) entries.
Proof.
  intros Hbody. induction bs as [|batch rest IH]; intros acc s.
  - exists [], s. simpl. rewrite app_nil_r. split; [reflexivity|constructor].
  - destruct (Hbody batch acc s) as (e1 & s1 & H1 & R1).
    destruct (IH (acc ++ e1) s1) as (e2 & s2 & H2 & R2).
    exists (e1 ++ e2), s2. split.
    + simpl. unfold bind. rewrite H1, H2. now rewrite app_assoc.
    + simpl. now apply Forall2_app.
Qed.

Lemma forBatches_total {A B} (body : list A -> B -> M B) :
  (forall batch acc s, exists acc' s', body batch acc s = (Ok acc', s')) ->
  forall bs acc s, exists acc' s', forBatches body bs acc s = (Ok acc', s').
Proof.
  intros Hbody. induction bs as [|batch rest IH]; intros acc s.
  - now exists acc, s.
  - destruct (Hbody batch acc s) as (a1 & s1 & H1).
    destruct (IH a1 s1) as (a2 & s2 & H2).
    exists a2, s2. simpl. unfold bind. now rewrite H1.
Qed.

(** *** Stage 2 *)

Lemma decodeTriplet_resolved lp ur dr sr :
  resolvedFor lp (decodeTriplet decodeAddress decodeUint8 decodeString
                    lp ur dr sr).
Proof.
  unfold decodeTriplet, resolvedFor, fallbackMetadata.
  destruct (decodeAddress _) as [a|]; [|auto].
  destruct (decodeUint8 _) as [d|]; [|auto].
  destruct (decodeString _) as [y|]; [|auto].
  destruct (truthy a && strictNe a ZeroAddress) eqn:E; [|auto].
  apply andb_true_iff in E as [_ E]. apply strictNe_true in E.
  simpl. auto.
Qed.

Lemma tripletEntry_resolved lp j results e :
  tripletEntry decodeAddress decodeUint8 decodeString lp j results = Ok e ->
  resolvedFor lp e.
Proof.
  unfold tripletEntry.
  assert (Hfb: resolvedFor lp (TokenData.mk lp lp 18 "LP" false))
    by (split; [reflexivity|now left]).
  destruct (at_ results (j * 3)) as [ur|]; [|discriminate].
  destruct (CallResult.success ur); [|now intros [= <-]].
  destruct (at_ results (j * 3 + 1)) as [dr|]; [|discriminate].
  destruct (CallResult.success dr); [|now intros [= <-]].
  destruct (at_ results (j * 3 + 2)) as [sr|]; [|discriminate].
  destruct (CallResult.success sr); [|now intros [= <-]].
  intros [= <-]. apply decodeTriplet_resolved.
Qed.

Lemma tripletEntry_defined lp j results :
  (forall k, (k < 3)%nat -> is_Some (at_ results (j * 3 + k))) ->
  exists e,
    tripletEntry decodeAddress decodeUint8 decodeString lp j results = Ok e.
Proof.
  intros H. unfold tripletEntry.
  destruct (H 0%nat) as [ur Hu]; [lia|]. rewrite Nat.add_0_r in Hu.
  destruct (H 1%nat) as [dr Hd]; [lia|].
  destruct (H 2%nat) as [sr Hs]; [lia|].
  rewrite Hu, Hd, Hs.
  destruct (CallResult.success ur), (CallResult.success dr),
    (CallResult.success sr); eauto.
Qed.

Lemma processTriplets_complete : forall batch j results tokenData,
  (forall k, (k < 3 * length batch)%nat ->
     is_Some (at_ results (j * 3 + k))) ->
  exists entries,
    processTriplets decodeAddress decodeUint8 decodeString batch j results
      tokenData = (Ok tt, tokenData ++ entries) /\
    Forall2 resolvedFor batch entries /\
    forall k lp, batch !! k = Some lp ->
      exists e, entries !! k = Some e /\
        tripletEntry decodeAddress decodeUint8 decodeString lp (j + k)
          results = Ok e.
Proof.
  induction batch as [|lp rest IH]; intros j results tokenData H.
  - exists []. simpl. rewrite app_nil_r.
    split; [reflexivity|]. split; [constructor|]. intros k lp [=].
  - destruct (tripletEntry_defined lp j results) as [e He].
    { intros k Hk. apply H. simpl. lia. }
    destruct (IH (S j) results (tokenData ++ [e])) as (es & H1 & H2 & H3).
    { intros k Hk. replace (S j * 3 + k)%nat with (j * 3 + (3 + k))%nat by lia.
      apply H. simpl. lia. }
    exists (e :: es). simpl. rewrite He, H1, <- app_assoc. simpl.
    split; [reflexivity|]. split.
    + constructor; [|exact H2]. eapply tripletEntry_resolved, He.
    + intros [|k] lp' Hk; simpl in Hk.
      * injection Hk as <-. exists e. rewrite Nat.add_0_r. auto.
      * destruct (H3 k lp' Hk) as (e' & Hk' & He').
        exists e'. split; [exact Hk'|].
        now replace (j + S k)%nat with (S j + k)%nat by lia.
Qed.

Lemma getUnderlyingToken_total chainId lp tag s :
  exists r s', getUnderlyingToken remote chainId lp tag s = (Ok r, s').
Proof.
  unfold getUnderlyingToken, tryCatch.
  match goal with
  | |- context [match ?m with (_, _) => _ end] =>
      destruct m as [[r|e] s']
  end; eauto.
Qed.

Lemma underlyingFallback_spec chainId tag : forall batch tokenData s,
  exists entries s',
    underlyingFallback remote chainId tag batch tokenData s
      = (Ok (tokenData ++ entries), s') /\
    Forall2 resolvedFor batch entries.
Proof.
  induction batch as [|lp rest IH]; intros tokenData s.
  - exists [], s. simpl. rewrite app_nil_r. split; [reflexivity|constructor].
  - assert (Hstep: exists e s1,
      tryCatch
        (bind (getUnderlyingToken remote chainId lp tag)
           (fun underlyingData =>
              match underlyingData with
              | Some u =>
                  if strictNe (UnderlyingData.address u) ZeroAddress
                  then ret (tokenData ++
                              [TokenData.mk lp (UnderlyingData.address u)
                                 (UnderlyingData.decimals u)
                                 (UnderlyingData.symbol u) true])
                  else ret (tokenData ++ [TokenData.mk lp lp 18 "LP" false])
              | None => ret (tokenData ++ [TokenData.mk lp lp 18 "LP" false])
              end))
        (fun _ => ret (tokenData ++ [TokenData.mk lp lp 18 "LP" false])) s
      = (Ok (tokenData ++ [e]), s1) /\ resolvedFor lp e).
    { assert (Hfb: resolvedFor lp (TokenData.mk lp lp 18 "LP" false))
        by (split; [reflexivity|now left]).
      unfold tryCatch, bind.
      destruct (getUnderlyingToken_total chainId lp tag s) as (r & s1 & Hr).
      rewrite Hr. destruct r as [u|].
      - destruct (strictNe (UnderlyingData.address u) ZeroAddress) eqn:E.
        + eexists _, s1. split; [reflexivity|].
          apply strictNe_true in E. split; [reflexivity|]. right. auto.
        + eexists _, s1. split; [reflexivity|exact Hfb].
      - eexists _, s1. split; [reflexivity|exact Hfb]. }
    destruct Hstep as (e & s1 & H1 & R1).
    destruct (IH (tokenData ++ [e]) s1) as (es & s2 & H2 & R2).
    exists (e :: es), s2. split.
    + cbn [underlyingFallback]. unfold bind at 1. rewrite H1, H2.
      now rewrite <- app_assoc.
    + now constructor.
Qed.

Lemma length_underlyingCalls batch :
  length (underlyingCalls batch) = (3 * length batch)%nat.
Proof.
  induction batch as [|lp rest IH]; [reflexivity|].
  unfold underlyingCalls in *. simpl. rewrite IH. lia.
Qed.

Lemma complete_at calls results k :
  complete calls results -> (k < length calls)%nat ->
  is_Some (at_ results k).
Proof.
  intros [Hlen Hall] Hk. unfold at_.
  destruct (lookup_lt_is_Some_2 results k) as [x Hx]; [lia|].
  rewrite Hx. simpl. rewrite Forall_lookup in Hall. now apply (Hall k x).
Qed.

Lemma underlyingBatch_spec chainId multicall tag :
  alignedAggregator remote ->
  forall batch tokenData s, exists entries s',
    underlyingBatch remote decodeAddress decodeUint8 decodeString chainId
      multicall tag batch tokenData s = (Ok (tokenData ++ entries), s') /\
    Forall2 resolvedFor batch entries.
Proof.
  intros Hal batch tokenData s. unfold underlyingBatch.
  destruct (batchCallWithRetry remote chainId multicall
              (underlyingCalls batch) 1 tag s) as [[results|e] s1] eqn:Eb.
  - pose proof (batchCallWithRetry_complete _ _ _ _ _ _ _ _ _ Hal Eb) as Hc.
    destruct (processTriplets_complete batch 0 results tokenData)
      as (es & H1 & H2 & _).
    { intros k Hk. apply (complete_at _ _ _ Hc).
      rewrite length_underlyingCalls. lia. }
    rewrite H1. eauto.
  - apply underlyingFallback_spec.
Qed.

Lemma underlyingBatch_total chainId multicall tag batch tokenData s :
  exists tokenData' s',
    underlyingBatch remote decodeAddress decodeUint8 decodeString chainId
      multicall tag batch tokenData s = (Ok tokenData', s').
Proof.
  unfold underlyingBatch.
  destruct (batchCallWithRetry remote chainId multicall
              (underlyingCalls batch) 1 tag s) as [[results|e] s1].
  - destruct (processTriplets decodeAddress decodeUint8 decodeString batch 0
                results tokenData) as [[[]|e] td'].
    + eauto.
    + destruct (underlyingFallback_spec chainId tag batch td' s1)
        as (es & s2 & H & _). eauto.
  - destruct (underlyingFallback_spec chainId tag batch tokenData s1)
      as (es & s2 & H & _). eauto.
Qed.

(** *** Stage 3 *)

Lemma positionEntry_quoted token j results p :
  positionEntry decodeInt256 token j results = Ok p -> quotedFor token p.
Proof.
  unfold positionEntry, quotedFor.
  destruct (at_ results j) as [r|]; [|discriminate].
  destruct (CallResult.success r).
  - destruct (decodeInt256 _) as [z|]; intros [= <-]; simpl; eauto.
  - intros [= <-]. simpl. auto.
Qed.

Lemma processPositions_complete : forall batch j results positions,
  (forall k, (k < length batch)%nat -> is_Some (at_ results (j + k))) ->
  exists entries,
    processPositions decodeInt256 batch j results positions
      = (Ok tt, positions ++ entries) /\
    Forall2 quotedFor batch entries.
Proof.
  induction batch as [|token rest IH]; intros j results positions H.
  - exists []. simpl. rewrite app_nil_r. split; [reflexivity|constructor].
  - assert (He: exists e, positionEntry decodeInt256 token j results = Ok e).
    { unfold positionEntry. destruct (H 0%nat) as [r Hr]; [simpl; lia|].
      rewrite Nat.add_0_r in Hr. rewrite Hr.
      destruct (CallResult.success r); [|eauto].
      destruct (decodeInt256 _); eauto. }
    destruct He as [e He].
    destruct (IH (S j) results (positions ++ [e])) as (es & H1 & H2).
    { intros k Hk. replace (S j + k)%nat with (j + S k)%nat by lia.
      apply H. simpl. lia. }
    exists (e :: es). simpl. rewrite He, H1, <- app_assoc.
    split; [reflexivity|]. constructor; [|exact H2].
    eapply positionEntry_quoted, He.
Qed.

Lemma getPosition_total chainId trader token tag s :
  exists z s', getPosition remote chainId trader token tag s = (Ok z, s').
Proof.
  unfold getPosition, tryCatch.
  match goal with
  | |- context [match ?m with (_, _) => _ end] =>
      destruct m as [[r|e] s']
  end; eauto.
Qed.

(** Every entry of the serial fallback is marked successful: [getPosition]
    never throws, so the [catch] around it is never entered. *)
Lemma positionsFallback_spec chainId trader tag : forall batch positions s,
  exists entries s',
    positionsFallback remote chainId trader tag batch positions s
      = (Ok (positions ++ entries), s') /\
    Forall2 quotedFor batch entries /\
    Forall (fun p => PositionResult.success p = true) entries.
Proof.
  induction batch as [|token rest IH]; intros positions s.
  - exists [], s. simpl. rewrite app_nil_r. repeat split; constructor.
  - destruct (getPosition_total chainId trader token tag s) as (z & s1 & Hz).
    destruct (IH (positions ++ [PositionResult.mk token (toString z) true
                                  None]) s1) as (es & s2 & H2 & R2 & S2).
    exists (PositionResult.mk token (toString z) true None :: es), s2.
    split; [|split].
    + cbn [positionsFallback]. unfold bind at 1, tryCatch, bind at 1.
      rewrite Hz. unfold ret at 1. rewrite H2. now rewrite <- app_assoc.
    + constructor; [|exact R2]. split; [reflexivity|]. simpl. eauto.
    + constructor; [reflexivity|exact S2].
Qed.

Lemma length_positionCalls vault trader batch :
  length (positionCalls vault trader batch) = length batch.
Proof. apply length_map. Qed.

Lemma positionsBatch_spec chainId vault multicall trader tag :
  alignedAggregator remote ->
  forall batch positions s, exists entries s',
    positionsBatch remote decodeInt256 chainId vault multicall trader tag
      batch positions s = (Ok (positions ++ entries), s') /\
    Forall2 quotedFor batch entries.
Proof.
  intros Hal batch positions s. unfold positionsBatch.
  destruct (batchCallWithRetry remote chainId multicall
              (positionCalls vault trader batch) 1 tag s)
    as [[results|e] s1] eqn:Eb.
  - pose proof (batchCallWithRetry_complete _ _ _ _ _ _ _ _ _ Hal Eb) as Hc.
    destruct (processPositions_complete batch 0 results positions)
      as (es & H1 & H2).
    { intros k Hk. apply (complete_at _ _ _ Hc).
      rewrite length_positionCalls. simpl. lia. }
    rewrite H1. eauto.
  - destruct (positionsFallback_spec chainId trader tag batch positions s1)
      as (es & s2 & H1 & H2 & _). eauto.
Qed.

Lemma positionsBatch_total chainId vault multicall trader tag batch
    positions s :
  exists positions' s',
    positionsBatch remote decodeInt256 chainId vault multicall trader tag
      batch positions s = (Ok positions', s').
Proof.
  unfold positionsBatch.
  destruct (batchCallWithRetry remote chainId multicall
              (positionCalls vault trader batch) 1 tag s)
    as [[results|e] s1].
  - destruct (processPositions decodeInt256 batch 0 results positions)
      as [[[]|e] ps'].
    + eauto.
    + destruct (positionsFallback_spec chainId trader tag batch ps' s1)
        as (es & s2 & H & _). eauto.
  - destruct (positionsFallback_spec chainId trader tag batch positions s1)
      as (es & s2 & H & _). eauto.
Qed.

(** *** The two stages as a whole *)

Lemma batchGetUnderlyingTokens_spec chainId lps tag s r s' :
  alignedAggregator remote ->
  batchGetUnderlyingTokens remote decodeAddress decodeUint8 decodeString
    chainId lps tag s = (r, s') ->
  match getMulticall remote chainId s with
  | (Ok _, _) => exists tokenData, r = Ok tokenData /\
                                   Forall2 resolvedFor lps tokenData
  | (Err e, _) => r = Err e
  end.
Proof.
  intros Hal. unfold batchGetUnderlyingTokens, bind.
  destruct (getMulticall remote chainId s) as [[mc|e] s1].
  - destruct (forBatches_app resolvedFor
                (underlyingBatch remote decodeAddress decodeUint8
                   decodeString chainId mc tag)
                (underlyingBatch_spec chainId mc tag Hal)
                (batches 10 lps) [] s1) as (es & s2 & H & R).
    rewrite H. intros [= <- <-]. exists es. split; [reflexivity|].
    now rewrite concat_batches in R by lia.
  - now intros [= <- <-].
Qed.

Lemma batchGetPositions_spec chainId trader tokens tag s r s' :
  alignedAggregator remote ->
  batchGetPositions remote decodeInt256 chainId trader tokens tag s
    = (r, s') ->
  match bind (getCreditVaultContract remote chainId)
          (fun _ => getMulticall remote chainId) s with
  | (Ok _, _) => exists positions, r = Ok positions /\
                                   Forall2 quotedFor tokens positions
  | (Err e, _) => r = Err e
  end.
Proof.
  intros Hal. unfold batchGetPositions, bind.
  destruct (getCreditVaultContract remote chainId s) as [[vault|e] s1];
    [|now intros [= <- <-]].
  destruct (getMulticall remote chainId s1) as [[mc|e] s2];
    [|now intros [= <- <-]].
  destruct (forBatches_app quotedFor
              (positionsBatch remote decodeInt256 chainId vault mc trader
                 tag)
              (positionsBatch_spec chainId vault mc trader tag Hal)
              (batches 20 tokens) [] s2) as (es & s3 & H & R).
  rewrite H. intros [= <- <-]. exists es. split; [reflexivity|].
  now rewrite concat_batches in R by lia.
Qed.

End StageProperties.

(** ** The join and the report *)

Section RunProperties.
Variable remote : History -> Request -> Response.
Variable isAddress : string -> bool.
Variable decodeAddress : Bytes -> option Address.
Variable decodeUint8 : Bytes -> option nat.
Variable decodeString : Bytes -> option string.
Variable decodeInt256 : Bytes -> option Z.
Variable formatUnits : Z -> nat -> string.

Lemma listPmmPositions_inv fuel pmm chainId tag t0 t1 s report s' :
  listPmmPositions remote isAddress decodeAddress decodeUint8 decodeString
    decodeInt256 formatUnits fuel pmm chainId tag t0 t1 s
    = Some (Ok report, s') ->
  exists config, getChainConfig chainId = Ok config /\
    ((getAllLPTokens remote fuel chainId tag s = Some (Ok [], s') /\
      report = Report.mk chainId (name config) pmm (truthyBlock tag) []
                 (Summary.mk 0 0 (t1 - t0))) \/
     (exists lps td prs positions,
        lps <> [] /\
        ranStages remote decodeAddress decodeUint8 decodeString decodeInt256 fuel pmm chainId tag s s' lps td prs /\
        joinLoop formatUnits td 0 prs [] = Ok positions /\
        report = Report.mk chainId (name config) pmm (truthyBlock tag)
                   positions
                   (Summary.mk (length td) (length positions) (t1 - t0)))).
Proof.
  unfold listPmmPositions.
  destruct (negb (isAddress pmm)); [discriminate|].
  destruct (negb (isValidChainId chainId)); [discriminate|].
  destruct (getChainConfig chainId) as [config|e]; [|discriminate].
  destruct (getAllLPTokens remote fuel chainId tag s)
    as [[[lps|e] s1]|] eqn:Escan; try discriminate.
  intros H. exists config. split; [reflexivity|].
  destruct lps as [|lp lps].
  - left. simpl in H. injection H as <- <-. auto.
  - right. cbn [length Nat.eqb] in H. unfold bind in H.
    destruct (batchGetUnderlyingTokens _ _ _ _ _ _ _ s1)
      as [[td|e] s2] eqn:E2; [|discriminate].
    destruct (batchGetPositions _ _ _ _ _ _ s2)
      as [[prs|e] s3] eqn:E3; [|discriminate].
    destruct (joinLoop formatUnits td 0 prs []) as [positions|e] eqn:Ej;
      [|discriminate].
    simpl in H. injection H as <- <-.
    exists (lp :: lps), td, prs, positions.
    split; [discriminate|]. split; [|auto].
    exists s1, s2. auto.
Qed.

Lemma joinEntry_reported t p :
  quotedFor (TokenData.underlyingAddress t) p ->
  joinEntry formatUnits t (Some p) = Ok (reported formatUnits t p).
Proof.
  intros [_ Hq]. unfold joinEntry, reported, quantityOf.
  destruct (PositionResult.success p); [|reflexivity].
  destruct Hq as [z Hz]. rewrite Hz, BigInt_toString. simpl.
  destruct (Z.eqb_spec z 0) as [->|Hnz].
  - reflexivity.
  - assert (Hne: strictNe (toString z) "0" = true).
    { apply strictNe_true. intros H. now apply toString_zero in H. }
    rewrite Hne. reflexivity.
Qed.

Lemma joinLoop_spec : forall td ps pre acc,
  Forall2 (fun t p => quotedFor (TokenData.underlyingAddress t) p) td ps ->
  joinLoop formatUnits td (length pre) (pre ++ ps) acc
    = Ok (acc ++ omap (fun tp => reported formatUnits (fst tp) (snd tp)) (zip td ps)).
Proof.
  intros td ps pre acc H. revert pre acc.
  induction H as [|t p td ps Hq _ IH]; intros pre acc.
  - simpl. now rewrite app_nil_r.
  - cbn [joinLoop]. rewrite lookup_app_r by lia. rewrite Nat.sub_diag.
    cbn [lookup list_lookup]. rewrite (joinEntry_reported t p Hq).
    specialize (IH (pre ++ [p])).
    rewrite length_app, Nat.add_1_r, <- app_assoc in IH. simpl in IH.
    cbn [zip zip_with omap list_omap fst snd].
    destruct (reported formatUnits t p) as [e|].
    + rewrite IH, <- app_assoc. reflexivity.
    + apply IH.
Qed.

Lemma quoted_map tokenData prs :
  Forall2 quotedFor (map TokenData.underlyingAddress tokenData) prs ->
  Forall2 (fun t p => quotedFor (TokenData.underlyingAddress t) p)
    tokenData prs.
Proof.
  revert prs. induction tokenData as [|t td IH]; intros prs H;
    inversion H; subst; constructor; auto.
Qed.

(** The stage outputs of a run are index-aligned. *)
Lemma ranStages_aligned fuel pmm chainId tag s s' lps td prs :
  alignedAggregator remote ->
  ranStages remote decodeAddress decodeUint8 decodeString decodeInt256 fuel pmm chainId tag s s' lps td prs ->
  Forall2 resolvedFor lps td /\
  Forall2 (fun t p => quotedFor (TokenData.underlyingAddress t) p) td prs.
Proof.
  intros Hal (s1 & s2 & _ & H2 & H3).
  apply (batchGetUnderlyingTokens_spec _ _ _ _ _ _ _ _ _ _ Hal) in H2.
  apply (batchGetPositions_spec _ _ _ _ _ _ _ _ _ Hal) in H3.
  destruct (getMulticall remote chainId s1) as [[mc|e] sa];
    [|discriminate].
  destruct H2 as (td' & [= <-] & R2). split; [exact R2|].
  destruct (bind (getCreditVaultContract remote chainId)
              (fun _ => getMulticall remote chainId) s2) as [[x|e] sb];
    [|discriminate].
  destruct H3 as (prs' & [= <-] & R3). now apply quoted_map.
Qed.

End RunProperties.

Lemma flakyAggregator_aligned : alignedAggregator flakyAggregator.
Proof.
  intros h chainId multicall calls tag rs [= <-]. apply length_map.
Qed.

(** C3. [batchCallWithRetry] runs the full batch once and then, at most
    [maxRetries] times, re-submits exactly the calls whose result is
    failing and writes the retry outcomes into their original positions
    (it coincides with the specification-level [executeBatchWithRetry],
    built from [stillFailing] and [patch]); the returned list has the length
    and order of the call list, results that were already successful are
    unchanged, and a call failing to the end keeps a failed result. *)
Theorem batchCallWithRetry_retries_only_failed
    (remote : History -> Request -> Response)
    (Haligned : alignedAggregator remote)
    (chainId : Z) (multicall : Address) (calls : list Call)
    (maxRetries : nat) (tag : BlockTag) (s : Fetcher) :
  batchCallWithRetry remote chainId multicall calls maxRetries tag s
    = executeBatchWithRetry remote chainId multicall calls maxRetries tag s /\
  forall r0 s0 out s',
    batchCall remote chainId multicall calls tag s = (Ok r0, s0) ->
    batchCallWithRetry remote chainId multicall calls maxRetries tag s
      = (out, s') ->
    trace s0
      = ReqAggregate3 chainId multicall calls (truthyBlock tag) :: trace s /\
    (exists retries,
        trace s' = retries ++ trace s0 /\
        (length retries <= maxRetries)%nat) /\
    forall final, out = Ok final ->
      length final = length calls /\
      (forall i, (i < length calls)%nat ->
         exists r, final !! i = Some (Some r) /\
                   CallResult.call r = calls !! i) /\
      (forall i r, r0 !! i = Some r -> CallResult.success r = true ->
         final !! i = Some (Some r)) /\
      (forall i r, final !! i = Some (Some r) ->
         CallResult.success r = false ->
         exists r', r0 !! i = Some r' /\ CallResult.success r' = false).
Proof.
  assert (Href: batchCallWithRetry remote chainId multicall calls maxRetries
                  tag s
                = executeBatchWithRetry remote chainId multicall calls
                    maxRetries tag s).
  { unfold batchCallWithRetry, executeBatchWithRetry, bind.
    destruct (batchCall remote chainId multicall calls tag s)
      as [[r0|e] s0] eqn:Eb; [|reflexivity].
    apply retryLoop_refines; [exact Haligned|].
    apply complete_map_Some.
    now apply (batchCall_ok _ _ _ _ _ _ _ _ Haligned Eb). }
  split; [exact Href|].
  intros r0 s0 out s' Eb Hrun. rewrite Href in Hrun.
  unfold executeBatchWithRetry, bind in Hrun. rewrite Eb in Hrun.
  destruct (batchCall_ok _ _ _ _ _ _ _ _ Haligned Eb) as [Hlen Hcall].
  assert (Hc: complete calls (map Some r0)) by now apply complete_map_Some.
  assert (Hcm: callsMatch calls (map Some r0)).
  { intros i r Hi. rewrite list_lookup_fmap in Hi.
    destruct (r0 !! i) as [x|] eqn:Ei; simpl in Hi; [|discriminate].
    injection Hi as ->. now apply Hcall. }
  destruct (retrySpec_props remote chainId multicall calls tag Haligned
              maxRetries (map Some r0) s0 out s' Hc Hcm Hrun)
    as [Htrace Hfin].
  split; [now rewrite (batchCall_sent _ _ _ _ _ _ _ _ Eb)|].
  split; [exact Htrace|].
  intros final ->. destruct (Hfin final eq_refl) as ([Hl Hall] & Hm & Hkeep).
  split; [exact Hl|]. split; [|split].
  - intros i Hi.
    destruct (lookup_lt_is_Some_2 final i) as [x Hx]; [lia|].
    rewrite Forall_lookup in Hall. destruct (Hall i x Hx) as [r ->].
    exists r. split; [exact Hx|]. now apply Hm.
  - intros i r Hi Hs. apply Hkeep; [|exact Hs].
    rewrite list_lookup_fmap, Hi. reflexivity.
  - intros i r Hi Hs.
    destruct (lookup_lt_is_Some_2 r0 i) as [r' Hr'].
    { apply lookup_lt_Some in Hi. lia. }
    exists r'. split; [exact Hr'|].
    destruct (CallResult.success r') eqn:Es'; [|reflexivity].
    assert (Hk: final !! i = Some (Some r')).
    { apply Hkeep; [|exact Es']. rewrite list_lookup_fmap, Hr'. reflexivity. }
    rewrite Hk in Hi. injection Hi as ->. congruence.
Qed.

Lemma batchCallWithRetry_retries_only_failed_witness :
  alignedAggregator flakyAggregator /\
  batchCallWithRetry flakyAggregator 1 multicall3Default
      (underlyingCalls [lpA; lpB]) 1 None emptyFetcher
    = executeBatchWithRetry flakyAggregator 1 multicall3Default
        (underlyingCalls [lpA; lpB]) 1 None emptyFetcher.
Proof.
  split; [exact flakyAggregator_aligned|].
  exact (proj1 (batchCallWithRetry_retries_only_failed flakyAggregator
                  flakyAggregator_aligned 1 multicall3Default
                  (underlyingCalls [lpA; lpB]) 1 None emptyFetcher)).
Defined.

Lemma endlessRegistry_neverTerminal chainId vault tag :
  neverTerminal endlessRegistry chainId vault tag.
Proof. intros h i. exists lpA. split; reflexivity. Qed.

Lemma scan_never_fails remote fuel chainId vault tag s r s' :
  (1001 <= fuel)%nat ->
  scanLoop remote fuel chainId vault tag 0 [] s = Some (r, s') ->
  exists lps, r = Ok lps.
Proof.
  intros Hf H.
  destruct (scanLoop_total remote fuel chainId vault tag 0 [] s)
    as (lps & s'' & H1 & _); [lia|lia|].
  rewrite H1 in H. injection H as <- <-. now exists lps.
Qed.

(** C9. The registry scan terminates whatever the remote answers (any fuel
    of at least 1001 iterations is enough, in the library and in the HTTP
    handler), and it returns at most 1001 identities; against a registry
    that never gives a terminal signal it reads exactly the indices 0 to
    1000 inclusive and collects all 1001 answers, one more than the nominal
    cap of 1000. *)
Theorem scan_terminates_within_cap
    (remote : History -> Request -> Response) (fuel : nat) (chainId : Z)
    (tag : BlockTag) (Hfuel : (1001 <= fuel)%nat) :
  (forall s, exists r s',
      getAllLPTokens remote fuel chainId tag s = Some (r, s') /\
      forall lps, r = Ok lps -> (length lps <= 1001)%nat) /\
  (forall vault h, exists d h',
      Api.discover remote fuel chainId vault tag h = Some (d, h') /\
      forall lps, d = Api.Discovered lps -> (length lps <= 1001)%nat) /\
  (forall vault, neverTerminal remote chainId vault tag ->
     (forall s, exists lps s',
         scanLoop remote fuel chainId vault tag 0 [] s = Some (Ok lps, s') /\
         length lps = 1001%nat /\
         trace s' = readsOf chainId vault tag 0 1001 ++ trace s) /\
     (forall h, exists lps h',
         Api.scanLoop remote fuel chainId vault tag 0 [] h
           = Some (Ok lps, h') /\
         length lps = 1001%nat /\
         h' = readsOf chainId vault tag 0 1001 ++ h)).
Proof.
  split; [|split].
  - intros s. unfold getAllLPTokens.
    destruct (getCreditVaultContract remote chainId s) as [[vault|e] s1].
    + destruct (scanLoop_total remote fuel chainId vault tag 0 [] s1)
        as (lps & s' & H1 & H2 & _); [lia|lia|].
      exists (Ok lps), s'. split; [exact H1|].
      intros lps' [= <-]. simpl in H2. lia.
    + exists (Err e), s1. split; [reflexivity|]. intros lps [=].
  - intros vault h. unfold Api.discover.
    destruct (api_scanLoop_total remote fuel chainId vault tag 0 [] h)
      as (r & h' & H1 & H2); [lia|lia|].
    rewrite H1. destruct r as [lps|e].
    + exists (Api.Discovered lps), h'. split; [reflexivity|].
      intros lps' [= <-]. specialize (H2 lps eq_refl). simpl in H2. lia.
    + exists (Api.Status500 e), h'. split; [reflexivity|]. intros lps [=].
  - intros vault Hn. split.
    + intros s.
      destruct (scanLoop_neverTerminal remote chainId vault tag Hn fuel 0 [] s)
        as (lps & s' & H1 & H2 & H3); [lia|lia|].
      exists lps, s'. auto.
    + intros h.
      destruct (api_scanLoop_neverTerminal remote chainId vault tag Hn
                  fuel 0 [] h) as (lps & h' & H1 & H2 & H3); [lia|lia|].
      exists lps, h'. auto.
Qed.

Lemma scan_terminates_within_cap_witness :
  (1001 <= 1001)%nat /\
  exists lps s',
    scanLoop endlessRegistry 1001 1 vaultEth None 0 [] emptyFetcher
      = Some (Ok lps, s') /\
    length lps = 1001%nat /\
    trace s' = readsOf 1 vaultEth None 0 1001 ++ trace emptyFetcher.
Proof.
  split; [apply le_n|].
  destruct (scan_terminates_within_cap endlessRegistry 1001 1 None
              (le_n 1001)) as (_ & _ & H).
  destruct (H vaultEth (endlessRegistry_neverTerminal 1 vaultEth None))
    as (Hlib & _).
  exact (Hlib emptyFetcher).
Defined.

Lemma demoRemote_aligned : alignedAggregator demoRemote.
Proof.
  intros h chainId multicall calls tag rs [= <-]. apply length_map.
Qed.

Lemma demoRun_ok : demoRun 1000 1250 = Some (Ok (demoReport 250), demoFinal).
Proof. vm_compute. reflexivity. Qed.

(** ** The claims about stages 2 and 3 and the report *)

(** C2. In every successful run the metadata list of stage 2 is as long as
    the item list of stage 1 and the quantity list of stage 3 is as long as
    the metadata list; entry [i] of each list belongs to item [i], so a
    failed sub-result is a placeholder at its own index and no list
    shrinks.  (The aggregator is taken to answer with one result per
    submitted call, as the data model of the spec has it.) *)
Theorem stage_lists_stay_aligned
    (remote : History -> Request -> Response) (isAddress : string -> bool)
    (decodeAddress : Bytes -> option Address)
    (decodeUint8 : Bytes -> option nat)
    (decodeString : Bytes -> option string)
    (decodeInt256 : Bytes -> option Z) (formatUnits : Z -> nat -> string)
    (Haligned : alignedAggregator remote)
    (fuel : nat) (pmm : Address) (chainId : Z) (tag : BlockTag)
    (t0 t1 : Z) (s s' : Fetcher) (report : Report.t)
    (Hrun : listPmmPositions remote isAddress decodeAddress decodeUint8
              decodeString decodeInt256 formatUnits fuel pmm chainId tag
              t0 t1 s = Some (Ok report, s')) :
  (getAllLPTokens remote fuel chainId tag s = Some (Ok [], s') /\
   Summary.totalTokens (Report.summary report) = 0%nat) \/
  exists lps td prs,
    ranStages remote decodeAddress decodeUint8 decodeString decodeInt256
      fuel pmm chainId tag s s' lps td prs /\
    length td = length lps /\
    length prs = length td /\
    Summary.totalTokens (Report.summary report) = length lps /\
    (forall i lp, lps !! i = Some lp ->
       exists t, td !! i = Some t /\ TokenData.lpTokenAddress t = lp) /\
    (forall i t, td !! i = Some t ->
       exists p, prs !! i = Some p /\
         PositionResult.tokenAddress p = TokenData.underlyingAddress t).
Proof.
  destruct (listPmmPositions_inv _ _ _ _ _ _ _ _ _ _ _ _ _ _ _ _ Hrun)
    as (config & _ & [[Hscan ->]|(lps & td & prs & positions & _ & Hst & _ & ->)]).
  - left. auto.
  - right. exists lps, td, prs.
    destruct (ranStages_aligned _ _ _ _ _ _ _ _ _ _ _ _ _ _ Haligned Hst)
      as [R2 R3].
    pose proof (Forall2_length _ _ _ R2) as L2.
    pose proof (Forall2_length _ _ _ R3) as L3.
    split; [exact Hst|]. split; [lia|]. split; [lia|]. split; [simpl; lia|].
    split.
    + intros i lp Hi.
      destruct (Forall2_lookup_l _ _ _ _ _ R2 Hi) as (t & Ht & [Hlp _]).
      eauto.
    + intros i t Hi.
      destruct (Forall2_lookup_l _ _ _ _ _ R3 Hi) as (p & Hp & [Hq _]).
      eauto.
Qed.

Lemma stage_lists_stay_aligned_witness :
  alignedAggregator demoRemote /\
  demoRun 1000 1250 = Some (Ok (demoReport 250), demoFinal) /\
  exists (lps : list Address) (td : list TokenData.t)
         (prs : list PositionResult.t),
    length td = length lps /\ length prs = length td /\
    length lps = 3%nat.
Proof.
  split; [exact demoRemote_aligned|]. split; [exact demoRun_ok|].
  destruct (stage_lists_stay_aligned demoRemote demoIsAddress
              demoDecodeAddress demoDecodeUint8 demoDecodeString BigInt
              format demoRemote_aligned 1001 trader 1 None 1000 1250
              emptyFetcher demoFinal (demoReport 250) demoRun_ok)
    as [[_ H]|(lps & td & prs & _ & H1 & H2 & H3 & _)].
  - discriminate H.
  - exists lps, td, prs. split; [exact H1|]. split; [exact H2|].
    symmetry. exact H3.
Defined.

(** The assumption on the aggregator cannot be dropped: when an aggregate
    answer is shorter than the call list, the entries pushed before the
    [TypeError] of the first missing result stay in [tokenData], and the
    [catch] then resolves the whole batch again. *)
Lemma short_aggregate_answer_repeats_items :
  fst (batchGetUnderlyingTokens shortAggregator demoDecodeAddress
         demoDecodeUint8 demoDecodeString 1 [lpA; lpB] None emptyFetcher)
  = Ok [TokenData.mk lpA tokenA 6 "USDC" true;
        fallbackMetadata lpA;
        fallbackMetadata lpB].
Proof. vm_compute. reflexivity. Qed.

(** C4. Stage 2 gives every item exactly one metadata entry, at the item's
    own index.  In the aggregate path the entry of item [k] is computed from
    its own three results only, and it is exactly the fallback
    [{ lp, lp, 18, "LP", false }] as soon as one of the three sub-results
    failed after the retry, one of them cannot be decoded, or the decoded
    reference is the zero address.  Over the whole stage an entry is either
    that fallback or a derived entry with a non-zero reference. *)
Theorem metadata_fallback_policy
    (remote : History -> Request -> Response)
    (decodeAddress : Bytes -> option Address)
    (decodeUint8 : Bytes -> option nat)
    (decodeString : Bytes -> option string)
    (Haligned : alignedAggregator remote) :
  (forall lp j results ur dr sr,
      at_ results (j * 3) = Some ur ->
      at_ results (j * 3 + 1) = Some dr ->
      at_ results (j * 3 + 2) = Some sr ->
      CallResult.success ur = false \/ CallResult.success dr = false \/
      CallResult.success sr = false \/
      decodeAddress (CallResult.data ur) = None \/
      decodeUint8 (CallResult.data dr) = None \/
      decodeString (CallResult.data sr) = None \/
      decodeAddress (CallResult.data ur) = Some ZeroAddress ->
      tripletEntry decodeAddress decodeUint8 decodeString lp j results
        = Ok (fallbackMetadata lp)) /\
  (forall lp j results results',
      (forall m, (m < 3)%nat ->
         at_ results (j * 3 + m) = at_ results' (j * 3 + m)) ->
      tripletEntry decodeAddress decodeUint8 decodeString lp j results
        = tripletEntry decodeAddress decodeUint8 decodeString lp j results') /\
  (forall chainId multicall tag batch tokenData s results s1,
      batchCallWithRetry remote chainId multicall (underlyingCalls batch) 1
        tag s = (Ok results, s1) ->
      exists entries,
        underlyingBatch remote decodeAddress decodeUint8 decodeString
          chainId multicall tag batch tokenData s
          = (Ok (tokenData ++ entries), s1) /\
        length entries = length batch /\
        forall k lp, batch !! k = Some lp ->
          exists e, entries !! k = Some e /\
            tripletEntry decodeAddress decodeUint8 decodeString lp k results
              = Ok e) /\
  (forall chainId lps tag s tokenData s',
      batchGetUnderlyingTokens remote decodeAddress decodeUint8 decodeString
        chainId lps tag s = (Ok tokenData, s') ->
      length tokenData = length lps /\
      forall i lp, lps !! i = Some lp ->
        exists e, tokenData !! i = Some e /\ resolvedFor lp e).
Proof.
  split; [|split; [|split]].
  - intros lp j results ur dr sr Hu Hd Hs Hfail.
    unfold tripletEntry. rewrite Hu, Hd, Hs. unfold fallbackMetadata.
    destruct (CallResult.success ur) eqn:Eu; [|reflexivity].
    destruct (CallResult.success dr) eqn:Ed; [|reflexivity].
    destruct (CallResult.success sr) eqn:Es; [|reflexivity].
    unfold decodeTriplet.
    destruct Hfail as [H|[H|[H|[H|[H|[H|H]]]]]]; try discriminate;
      try (rewrite H; reflexivity).
    + destruct (decodeAddress _); [|reflexivity]. now rewrite H.
    + destruct (decodeAddress _); [|reflexivity].
      destruct (decodeUint8 _); [|reflexivity]. now rewrite H.
    + rewrite H. destruct (decodeUint8 _); [|reflexivity].
      destruct (decodeString _); reflexivity.
  - intros lp j results results' Heq. unfold tripletEntry.
    rewrite <- (Heq 1%nat), <- (Heq 2%nat) by lia.
    pose proof (Heq 0%nat) as H0. rewrite Nat.add_0_r in H0.
    rewrite <- H0 by lia. reflexivity.
  - intros chainId multicall tag batch tokenData s results s1 Hb.
    pose proof (batchCallWithRetry_complete _ _ _ _ _ _ _ _ _ Haligned Hb)
      as Hc.
    destruct (processTriplets_complete decodeAddress decodeUint8
                decodeString batch 0 results tokenData) as (es & H1 & H2 & H3).
    { intros k Hk. apply (complete_at _ _ _ Hc).
      rewrite length_underlyingCalls. lia. }
    exists es. unfold underlyingBatch. rewrite Hb, H1.
    split; [reflexivity|]. split.
    + symmetry. eapply Forall2_length, H2.
    + exact H3.
  - intros chainId lps tag s tokenData s' H.
    apply (batchGetUnderlyingTokens_spec _ _ _ _ _ _ _ _ _ _ Haligned) in H.
    destruct (getMulticall remote chainId s) as [[mc|e] sa]; [|discriminate].
    destruct H as (td & [= <-] & R). split.
    + symmetry. eapply Forall2_length, R.
    + intros i lp Hi.
      destruct (Forall2_lookup_l _ _ _ _ _ R Hi) as (e & He & Hr). eauto.
Qed.

Lemma metadata_fallback_policy_witness :
  alignedAggregator demoRemote /\
  tripletEntry demoDecodeAddress demoDecodeUint8 demoDecodeString lpC 0
    [Some (CallResult.mk false "" None);
     Some (CallResult.mk true "6" None);
     Some (CallResult.mk true "USDC" None)]
  = Ok (fallbackMetadata lpC).
Proof.
  split; [exact demoRemote_aligned|].
  apply (proj1 (metadata_fallback_policy demoRemote demoDecodeAddress
                  demoDecodeUint8 demoDecodeString demoRemote_aligned))
    with (ur := CallResult.mk false "" None)
         (dr := CallResult.mk true "6" None)
         (sr := CallResult.mk true "USDC" None);
    try reflexivity.
  left. reflexivity.
Defined.

(** Whatever happens to the aggregate requests, a stage never throws once
    the multicall object is there: a failed batch is absorbed by the serial
    fallback. *)
Lemma batch_failure_is_absorbed
    (remote : History -> Request -> Response)
    (decodeAddress : Bytes -> option Address)
    (decodeUint8 : Bytes -> option nat)
    (decodeString : Bytes -> option string)
    (decodeInt256 : Bytes -> option Z)
    (chainId : Z) (vault multicall trader : Address) (tag : BlockTag) :
  (forall bs acc s, exists acc' s',
      forBatches (underlyingBatch remote decodeAddress decodeUint8
                    decodeString chainId multicall tag) bs acc s
        = (Ok acc', s')) /\
  (forall bs acc s, exists acc' s',
      forBatches (positionsBatch remote decodeInt256 chainId vault multicall
                    trader tag) bs acc s = (Ok acc', s')) /\
  (forall batch tokenData s e s1,
      batchCallWithRetry remote chainId multicall (underlyingCalls batch) 1
        tag s = (Err e, s1) ->
      exists entries s',
        underlyingBatch remote decodeAddress decodeUint8 decodeString
          chainId multicall tag batch tokenData s
          = (Ok (tokenData ++ entries), s') /\
        length entries = length batch) /\
  (forall batch positions s e s1,
      batchCallWithRetry remote chainId multicall
        (positionCalls vault trader batch) 1 tag s = (Err e, s1) ->
      exists entries s',
        positionsBatch remote decodeInt256 chainId vault multicall trader
          tag batch positions s = (Ok (positions ++ entries), s') /\
        length entries = length batch /\
        Forall (fun p => PositionResult.success p = true) entries).
Proof.
  split; [|split; [|split]].
  - apply forBatches_total. intros. apply underlyingBatch_total.
  - apply forBatches_total. intros. apply positionsBatch_total.
  - intros batch tokenData s e s1 Hb. unfold underlyingBatch. rewrite Hb.
    destruct (underlyingFallback_spec remote chainId tag batch tokenData s1)
      as (es & s2 & H & R).
    exists es, s2. split; [exact H|]. symmetry. eapply Forall2_length, R.
  - intros batch positions s e s1 Hb. unfold positionsBatch. rewrite Hb.
    destruct (positionsFallback_spec remote chainId trader tag batch
                positions s1) as (es & s2 & H & R & S).
    exists es, s2. split; [exact H|]. split; [|exact S].
    symmetry. eapply Forall2_length, R.
Qed.

(** C5. Where the claim breaks: on a chain whose aggregate requests fail
    outright and whose direct quantity read fails too, the library's serial
    fallback of stage 3 records the failed read as
    [{ position: "0", success: true }], not as a [success: false]
    placeholder; the same fallback in the browser build records
    [success: false].  The length of the output and the absence of any
    thrown error are as claimed. *)
Theorem serial_fallback_marks_failed_read_successful :
  fst (batchGetPositions brokenRemote BigInt 1 trader [tokenA] None
         emptyFetcher)
    = Ok [PositionResult.mk tokenA "0" true None] /\
  fst (Web.positionsFallback brokenRemote 1 vaultEth trader None [tokenA] []
         emptyFetcher)
    = Ok [PositionResult.mk tokenA "0" false None].
Proof. split; vm_compute; reflexivity. Qed.

(** C1. Where the claim breaks: when the read of index 2 fails with a
    transport error ("network timeout", which is neither the sentinel nor a
    revert), the scans of the library and of the browser build stop silently
    and return the two identities read so far; when index 0 fails that way,
    the library run ends successfully with the zero-summary report.  Only
    the HTTP handler surfaces the error (status 500). *)
Theorem scan_treats_any_error_as_end :
  option_map fst (getAllLPTokens (flakyRegistry 2) 1001 1 None emptyFetcher)
    = Some (Ok [lpA; lpA]) /\
  option_map fst
    (Web.getAllLPTokens (flakyRegistry 2) 1001 1 None emptyFetcher)
    = Some (Ok [lpA; lpA]) /\
  option_map fst
    (listPmmPositions (flakyRegistry 0) demoIsAddress demoDecodeAddress
       demoDecodeUint8 demoDecodeString BigInt format 1001 trader 1 None
       1000 1250 emptyFetcher)
    = Some (Ok (Report.mk 1 "Ethereum" trader None []
                  (Summary.mk 0 0 250))) /\
  option_map fst (Api.discover (flakyRegistry 2) 1001 1 vaultEth None [])
    = Some (Api.Status500 "network timeout").
Proof. repeat split; vm_compute; reflexivity. Qed.

(** *** Order of discovery *)

Lemma rpc_expectAddress_inv remote q s a s' :
  bind (rpc remote q) expectAddress s = (Ok a, s') ->
  remote (trace s) q = RespAddress a /\ trace s' = q :: trace s.
Proof.
  unfold bind, rpc, expectAddress.
  destruct (remote (trace s) q); simpl; try discriminate.
  intros [= <- <-]. auto.
Qed.

Lemma scanLoop_order remote chainId vault tag : forall fuel index acc s lps s',
  scanLoop remote fuel chainId vault tag index acc s = Some (Ok lps, s') ->
  exists new, lps = acc ++ new /\
    forall k a, new !! k = Some a ->
      remote (readsOf chainId vault tag index k ++ trace s)
        (ReqAllLPTokens chainId vault (index + k) tag) = RespAddress a.
Proof.
  induction fuel as [|fuel IH]; intros index acc s lps s' H; [discriminate|].
  assert (Hstep: scanLoop remote (S fuel) chainId vault tag index acc s =
    match (bind (rpc remote (ReqAllLPTokens chainId vault index tag))
             expectAddress) s with
    | (Ok a, s') =>
        if truthy a && strictNe a ZeroAddress
        then if (1000 <? S index)%nat then Some (Ok (acc ++ [a]), s')
             else scanLoop remote fuel chainId vault tag (S index)
                    (acc ++ [a]) s'
        else Some (Ok acc, s')
    | (Err message, s') =>
        if includes message "revert" || includes message "execution reverted"
        then Some (Ok acc, s') else Some (Ok acc, s')
    end) by reflexivity.
  rewrite Hstep in H. clear Hstep.
  assert (Hnone: exists new, acc = acc ++ new /\
            forall k a, new !! k = Some a ->
              remote (readsOf chainId vault tag index k ++ trace s)
                (ReqAllLPTokens chainId vault (index + k) tag)
              = RespAddress a).
  { exists []. split; [now rewrite app_nil_r|]. intros k a [=]. }
  match type of H with
  | match ?m with (_, _) => _ end = _ => destruct m as [[a|e] s1] eqn:E
  end.
  - apply rpc_expectAddress_inv in E as [Ea Et].
    assert (Hone: forall k b, [a] !! k = Some b ->
              remote (readsOf chainId vault tag index k ++ trace s)
                (ReqAllLPTokens chainId vault (index + k) tag)
              = RespAddress b).
    { intros [|k] b Hk; simpl in Hk; [|discriminate].
      injection Hk as <-. now rewrite Nat.add_0_r. }
    destruct (truthy a && strictNe a ZeroAddress).
    + destruct (1000 <? S index)%nat.
      * injection H as <- <-. exists [a]. auto.
      * destruct (IH _ _ _ _ _ H) as (new & -> & Hnew).
        exists (a :: new). split; [now rewrite <- app_assoc|].
        intros [|k] b Hk; simpl in Hk.
        -- apply (Hone 0%nat). exact Hk.
        -- specialize (Hnew k b Hk). rewrite Et in Hnew.
           rewrite readsOf_S, <- app_assoc. simpl.
           now replace (index + S k)%nat with (S index + k)%nat by lia.
    + injection H as <- <-. exact Hnone.
  - destruct (includes e "revert" || includes e "execution reverted");
      injection H as <- <-; exact Hnone.
Qed.

Section ReportProperties.
Variable formatUnits : Z -> nat -> string.

Lemma reported_kept t p :
  reported formatUnits t p
  = if kept p
    then option_map (entryOf formatUnits t) (quantityOf p)
    else None.
Proof.
  unfold reported, kept. destruct (quantityOf p) as [z|]; [|reflexivity].
  now destruct (z =? 0).
Qed.

Lemma itemOf_entryOf lp t z :
  resolvedFor lp t -> itemOf (entryOf formatUnits t z) = lp.
Proof.
  intros [Hlp [->|[Hd _]]]; unfold itemOf, entryOf; simpl.
  - reflexivity.
  - now rewrite Hd.
Qed.

Lemma items_of_report : forall lps td prs,
  Forall2 resolvedFor lps td ->
  map itemOf (omap (fun tp => reported formatUnits (fst tp) (snd tp))
                (zip td prs))
  = omap (fun lp_p => if kept (snd lp_p) then Some (fst lp_p) else None)
      (zip lps prs).
Proof.
  intros lps td prs H. revert prs.
  induction H as [|lp t lps td Hr _ IH]; intros [|p prs]; try reflexivity.
  cbn [zip zip_with omap list_omap fst snd]. rewrite reported_kept.
  destruct (kept p) eqn:Ek.
  - unfold kept in Ek. destruct (quantityOf p) as [z|]; [|discriminate].
    simpl. rewrite (itemOf_entryOf lp t z Hr). f_equal. apply IH.
  - apply IH.
Qed.

Lemma kept_sublist {A} (lps : list A) : forall prs,
  sublist (omap (fun lp_p => if kept (snd lp_p) then Some (fst lp_p)
                             else None) (zip lps prs)) lps.
Proof.
  induction lps as [|lp lps IH]; intros [|p prs];
    try apply sublist_nil_l.
  cbn [zip zip_with omap list_omap fst snd].
  destruct (kept p).
  - apply sublist_skip, IH.
  - apply sublist_cons, IH.
Qed.

Lemma kept_iff p token :
  quotedFor token p ->
  (kept p = true <->
   PositionResult.success p = true /\
   exists z, PositionResult.position p = toString z /\ z <> 0).
Proof.
  intros [_ Hq]. unfold kept, quantityOf.
  destruct (PositionResult.success p).
  - destruct Hq as [z Hz]. rewrite Hz, BigInt_toString. split.
    + intros H. split; [reflexivity|]. exists z. split; [reflexivity|].
      apply negb_true_iff, Z.eqb_neq in H. exact H.
    + intros (_ & z' & Hz' & Hnz). apply toString_inj in Hz'. subst z'.
      now apply negb_true_iff, Z.eqb_neq.
  - split; [discriminate|]. now intros [[=] _].
Qed.

End ReportProperties.

(** C8. In a successful run the report holds an entry for an index exactly
    when the quantity result of that index is successful and its signed
    quantity is not zero (a negative quantity counts); a zero or failed
    quantity yields neither an entry nor an error;
    [summary.tokensWithPositions] is the number of entries; and when no
    index has a non-zero successful quantity the entry list is empty and
    the count is 0. *)
Theorem report_keeps_nonzero_successes
    (remote : History -> Request -> Response) (isAddress : string -> bool)
    (decodeAddress : Bytes -> option Address)
    (decodeUint8 : Bytes -> option nat)
    (decodeString : Bytes -> option string)
    (decodeInt256 : Bytes -> option Z) (formatUnits : Z -> nat -> string)
    (Haligned : alignedAggregator remote)
    (fuel : nat) (pmm : Address) (chainId : Z) (tag : BlockTag)
    (t0 t1 : Z) (s s' : Fetcher) (report : Report.t)
    (Hrun : listPmmPositions remote isAddress decodeAddress decodeUint8
              decodeString decodeInt256 formatUnits fuel pmm chainId tag
              t0 t1 s = Some (Ok report, s')) :
  Summary.tokensWithPositions (Report.summary report)
    = length (Report.positions report) /\
  ((getAllLPTokens remote fuel chainId tag s = Some (Ok [], s') /\
    Report.positions report = []) \/
   exists lps td prs,
     ranStages remote decodeAddress decodeUint8 decodeString decodeInt256
       fuel pmm chainId tag s s' lps td prs /\
     length prs = length td /\
     Report.positions report
       = omap (fun tp => reported formatUnits (fst tp) (snd tp))
           (zip td prs) /\
     (forall i t p, td !! i = Some t -> prs !! i = Some p ->
        (is_Some (reported formatUnits t p) <->
         PositionResult.success p = true /\
         exists z, PositionResult.position p = toString z /\ z <> 0)) /\
     ((forall p, p ∈ prs -> kept p = false) ->
      Report.positions report = [] /\
      Summary.tokensWithPositions (Report.summary report) = 0%nat)).
Proof.
  destruct (listPmmPositions_inv _ _ _ _ _ _ _ _ _ _ _ _ _ _ _ _ Hrun)
    as (config & _ & [[Hscan ->]|(lps & td & prs & positions & _ & Hst & Hj & ->)]).
  - split; [reflexivity|]. left. auto.
  - split; [reflexivity|]. right. exists lps, td, prs.
    destruct (ranStages_aligned _ _ _ _ _ _ _ _ _ _ _ _ _ _ Haligned Hst)
      as [R2 R3].
    pose proof (joinLoop_spec formatUnits td prs [] [] R3) as Hspec.
    simpl in Hspec. rewrite Hspec in Hj. injection Hj as <-.
    split; [exact Hst|]. split; [symmetry; eapply Forall2_length, R3|].
    split; [reflexivity|]. split.
    + intros i t p Ht Hp.
      assert (Hq: quotedFor (TokenData.underlyingAddress t) p).
      { destruct (Forall2_lookup_l _ _ _ _ _ R3 Ht) as (p' & Hp' & Hq).
        rewrite Hp in Hp'. now injection Hp' as <-. }
      rewrite <- (kept_iff p _ Hq), reported_kept.
      destruct (kept p) eqn:Ek.
      * split; [reflexivity|]. intros _. unfold kept in Ek.
        destruct (quantityOf p); [simpl; eauto|discriminate].
      * split; [intros [? [=]]|discriminate].
    + intros Hnone. cbn [Report.positions Report.summary
                         Summary.tokensWithPositions].
      assert (Hempty: omap (fun tp => reported formatUnits (fst tp) (snd tp))
                        (zip td prs) = []).
      { clear -Hnone. revert prs Hnone.
        induction td as [|t td IH]; intros [|p prs] Hnone; try reflexivity.
        cbn [zip zip_with omap list_omap fst snd].
        rewrite reported_kept, (Hnone p) by apply list_elem_of_here.
        apply IH. intros q Hq. apply Hnone. now apply list_elem_of_further. }
      rewrite Hempty. auto.
Qed.

Lemma report_keeps_nonzero_successes_witness :
  alignedAggregator demoRemote /\
  demoRun 1000 1250 = Some (Ok (demoReport 250), demoFinal) /\
  Summary.tokensWithPositions (Report.summary (demoReport 250))
    = length (Report.positions (demoReport 250)).
Proof.
  split; [exact demoRemote_aligned|]. split; [exact demoRun_ok|].
  exact (proj1 (report_keeps_nonzero_successes demoRemote demoIsAddress
                  demoDecodeAddress demoDecodeUint8 demoDecodeString BigInt
                  format demoRemote_aligned 1001 trader 1 None 1000 1250
                  emptyFetcher demoFinal (demoReport 250) demoRun_ok)).
Defined.

(** C10. The entries of the report appear in discovery order.  The scan
    collects the answer to the read of index [k] at position [k]; stages 2
    and 3 and the join keep every index in place; so the item identities of
    the report entries are, in order, the discovered identities at the
    indices whose quantity result is successful and non-zero, a
    subsequence of the discovered list. *)
Theorem report_follows_discovery_order
    (remote : History -> Request -> Response) (isAddress : string -> bool)
    (decodeAddress : Bytes -> option Address)
    (decodeUint8 : Bytes -> option nat)
    (decodeString : Bytes -> option string)
    (decodeInt256 : Bytes -> option Z) (formatUnits : Z -> nat -> string)
    (Haligned : alignedAggregator remote)
    (fuel : nat) (pmm : Address) (chainId : Z) (tag : BlockTag)
    (t0 t1 : Z) (s s' : Fetcher) (report : Report.t)
    (Hrun : listPmmPositions remote isAddress decodeAddress decodeUint8
              decodeString decodeInt256 formatUnits fuel pmm chainId tag
              t0 t1 s = Some (Ok report, s')) :
  exists lps s1,
    getAllLPTokens remote fuel chainId tag s = Some (Ok lps, s1) /\
    (exists vault s0,
        getCreditVaultContract remote chainId s = (Ok vault, s0) /\
        forall k a, lps !! k = Some a ->
          remote (readsOf chainId vault tag 0 k ++ trace s0)
            (ReqAllLPTokens chainId vault k tag) = RespAddress a) /\
    sublist (map itemOf (Report.positions report)) lps /\
    ((lps = [] /\ Report.positions report = []) \/
     exists td prs,
       ranStages remote decodeAddress decodeUint8 decodeString decodeInt256
         fuel pmm chainId tag s s' lps td prs /\
       length prs = length lps /\
       map itemOf (Report.positions report)
         = omap (fun lp_p => if kept (snd lp_p) then Some (fst lp_p)
                             else None) (zip lps prs)).
Proof.
  assert (Hscan: forall lps s1,
    getAllLPTokens remote fuel chainId tag s = Some (Ok lps, s1) ->
    exists vault s0,
      getCreditVaultContract remote chainId s = (Ok vault, s0) /\
      forall k a, lps !! k = Some a ->
        remote (readsOf chainId vault tag 0 k ++ trace s0)
          (ReqAllLPTokens chainId vault k tag) = RespAddress a).
  { intros lps s1 H. unfold getAllLPTokens in H.
    destruct (getCreditVaultContract remote chainId s) as [[vault|e] s0];
      [|discriminate].
    exists vault, s0. split; [reflexivity|].
    destruct (scanLoop_order _ _ _ _ _ _ _ _ _ _ H) as (new & -> & Hnew).
    exact Hnew. }
  destruct (listPmmPositions_inv _ _ _ _ _ _ _ _ _ _ _ _ _ _ _ _ Hrun)
    as (config & _ & [[Hs ->]|(lps & td & prs & positions & _ & Hst & Hj & ->)]).
  - exists [], s'. split; [exact Hs|]. split; [now apply (Hscan [] s')|].
    split; [constructor|]. left. auto.
  - destruct (ranStages_aligned _ _ _ _ _ _ _ _ _ _ _ _ _ _ Haligned Hst)
      as [R2 R3].
    pose proof (joinLoop_spec formatUnits td prs [] [] R3) as Hspec.
    simpl in Hspec. rewrite Hspec in Hj. injection Hj as <-.
    pose proof (items_of_report formatUnits lps td prs R2) as Hitems.
    destruct Hst as (s1 & s2 & H1 & H2 & H3).
    exists lps, s1. split; [exact H1|]. split; [now apply (Hscan lps s1)|].
    cbn [Report.positions]. rewrite Hitems. split; [apply kept_sublist|].
    right. exists td, prs. split; [now exists s1, s2|].
    split; [|reflexivity].
    rewrite <- (Forall2_length _ _ _ R3). symmetry.
    eapply Forall2_length, R2.
Qed.

Lemma report_follows_discovery_order_witness :
  alignedAggregator demoRemote /\
  demoRun 1000 1250 = Some (Ok (demoReport 250), demoFinal) /\
  exists lps : list Address,
    sublist (map itemOf (Report.positions (demoReport 250))) lps.
Proof.
  split; [exact demoRemote_aligned|]. split; [exact demoRun_ok|].
  destruct (report_follows_discovery_order demoRemote demoIsAddress
              demoDecodeAddress demoDecodeUint8 demoDecodeString BigInt
              format demoRemote_aligned 1001 trader 1 None 1000 1250
              emptyFetcher demoFinal (demoReport 250) demoRun_ok)
    as (lps & _ & _ & _ & Hsub & _).
  exists lps. exact Hsub.
Defined.

(** ** Running twice *)

Create HintDb good.

Section Idempotence.
Variable remote : History -> Request -> Response.
Hypothesis Hstateless : stateless remote.
Variable chainId : Z.

Ltac forget_history :=
  repeat match goal with
  | |- context [remote (?q :: ?h) ?r] =>
      rewrite (Hstateless (q :: h) [] r)
  | |- context [remote (trace ?s) ?r] =>
      rewrite (Hstateless (trace s) [] r)
  | H : context [remote (trace ?s) ?r] |- _ =>
      rewrite (Hstateless (trace s) [] r) in H
  end.

Lemma Good_ret {A} (a : A) : Good remote chainId (ret a).
Proof. split; intros; reflexivity. Qed.

Lemma Good_throw {A} e : Good remote chainId (@throw A e).
Proof. split; intros; reflexivity. Qed.

Lemma Good_liftResult {A} (r : Result A) : Good remote chainId (liftResult r).
Proof. destruct r; [apply Good_ret|apply Good_throw]. Qed.

Lemma Good_bind {A B} (m : M A) (k : A -> M B) :
  Good remote chainId m -> (forall a, Good remote chainId (k a)) -> Good remote chainId (bind m k).
Proof.
  intros [Pm Dm] Hk. split.
  - intros s. unfold bind. specialize (Pm s).
    destruct (m s) as [[a|e] s1]; simpl in *; [|exact Pm].
    destruct (Hk a) as [Pk _]. now rewrite Pk.
  - intros s s' Hc. unfold bind.
    pose proof (Dm s s' Hc) as Hd.
    pose proof (Pm s) as P1. pose proof (Pm s') as P2.
    destruct (m s) as [[a|e] s1], (m s') as [[a'|e'] s1'];
      simpl in *; try discriminate.
    + injection Hd as <-. destruct (Hk a) as [_ Dk]. apply Dk. congruence.
    + now injection Hd as <-.
Qed.

Lemma Good_tryCatch {A} (m : M A) (handler : string -> M A) :
  Good remote chainId m -> (forall e, Good remote chainId (handler e)) -> Good remote chainId (tryCatch m handler).
Proof.
  intros [Pm Dm] Hk. split.
  - intros s. unfold tryCatch. specialize (Pm s).
    destruct (m s) as [[a|e] s1]; simpl in *; [exact Pm|].
    destruct (Hk e) as [Pk _]. now rewrite Pk.
  - intros s s' Hc. unfold tryCatch.
    pose proof (Dm s s' Hc) as Hd.
    pose proof (Pm s) as P1. pose proof (Pm s') as P2.
    destruct (m s) as [[a|e] s1], (m s') as [[a'|e'] s1'];
      simpl in *; try discriminate.
    + exact Hd.
    + injection Hd as <-. destruct (Hk e) as [_ Dk]. apply Dk. congruence.
Qed.

Lemma getProvider_run s :
  getProvider remote chainId s =
  if negb (isValidChainId chainId) then (Err "Unsupported chain ID", s)
  else if has chainId (providers s) then (Ok tt, s)
  else
    match getChainConfig chainId with
    | Err e => (Err e, s)
    | Ok _ =>
        let s1 := mkFetcher (providers s) (contracts s) (multicalls s)
                    (ReqBlockNumber chainId :: trace s) in
        match remote [] (ReqBlockNumber chainId) with
        | RespNumber _ =>
            (Ok tt, mkFetcher (chainId :: providers s) (contracts s)
                      (multicalls s) (ReqBlockNumber chainId :: trace s))
        | RespError e => (Err e, s1)
        | _ => (Err "could not decode result data", s1)
        end
    end.
Proof.
  unfold getProvider. destruct (negb (isValidChainId chainId)); [reflexivity|].
  unfold bind at 1. unfold get at 1.
  destruct (has chainId (providers s)); [reflexivity|].
  destruct (getChainConfig chainId) as [config|e]; [|reflexivity].
  unfold bind, liftResult, ret, rpc, get, setProviders.
  rewrite (Hstateless (trace s) [] _).
  destruct (remote [] (ReqBlockNumber chainId)); reflexivity.
Qed.

Lemma getCreditVaultContract_run s :
  getCreditVaultContract remote chainId s =
  if has chainId (contracts s) then
    match getChainConfig chainId with
    | Ok config => (Ok (creditVaultAddress config), s)
    | Err e => (Err e, s)
    end
  else
    match getProvider remote chainId s with
    | (Ok _, s1) =>
        match getChainConfig chainId with
        | Ok config =>
            if String.eqb (creditVaultAddress config) ZeroAddress
            then (Err "CreditVault address not configured", s1)
            else (Ok (creditVaultAddress config),
                  mkFetcher (providers s1) (chainId :: contracts s1)
                    (multicalls s1) (trace s1))
        | Err e => (Err e, s1)
        end
    | (Err e, s1) => (Err e, s1)
    end.
Proof.
  unfold getCreditVaultContract. unfold bind at 1. unfold get at 1.
  destruct (has chainId (contracts s)).
  - unfold bind, liftResult. destruct (getChainConfig chainId); reflexivity.
  - unfold bind at 1.
    destruct (getProvider remote chainId s) as [[[]|e] s1]; [|reflexivity].
    unfold bind at 1, liftResult.
    destruct (getChainConfig chainId) as [config|e]; [|reflexivity].
    unfold ret at 1.
    destruct (String.eqb (creditVaultAddress config) ZeroAddress);
      reflexivity.
Qed.

Lemma getMulticall_run s :
  getMulticall remote chainId s =
  if has chainId (multicalls s) then
    match getChainConfig chainId with
    | Ok config => (Ok (multicall3Address config), s)
    | Err e => (Err e, s)
    end
  else
    match getProvider remote chainId s with
    | (Ok _, s1) =>
        match getChainConfig chainId with
        | Ok config =>
            if negb (truthy (multicall3Address config))
            then (Err "Multicall3 address not configured", s1)
            else (Ok (multicall3Address config),
                  mkFetcher (providers s1) (contracts s1)
                    (chainId :: multicalls s1) (trace s1))
        | Err e => (Err e, s1)
        end
    | (Err e, s1) => (Err e, s1)
    end.
Proof.
  unfold getMulticall. unfold bind at 1. unfold get at 1.
  destruct (has chainId (multicalls s)).
  - unfold bind, liftResult. destruct (getChainConfig chainId); reflexivity.
  - unfold bind at 1.
    destruct (getProvider remote chainId s) as [[[]|e] s1]; [|reflexivity].
    unfold bind at 1, liftResult.
    destruct (getChainConfig chainId) as [config|e]; [|reflexivity].
    unfold ret at 1.
    destruct (negb (truthy (multicall3Address config))); reflexivity.
Qed.

Lemma has_here ks : has chainId (chainId :: ks) = true.
Proof. unfold has. simpl. now rewrite Z.eqb_refl. Qed.

Ltac conn_step :=
  first
    [ progress cbv beta iota zeta delta
        [providers contracts multicalls trace fst snd negb]
    | rewrite has_here
    | match goal with
      | H : ?b = _ |- context [if ?b then _ else _] => rewrite H
      | H : ?b = _ |- context [match ?b with _ => _ end] => rewrite H
      end
    | match goal with
      | |- context [if ?b then _ else _] => destruct b eqn:?
      | |- context [match getChainConfig chainId with _ => _ end] =>
          destruct (getChainConfig chainId) eqn:?
      | |- context [match remote [] ?q with _ => _ end] =>
          destruct (remote [] q) eqn:?
      end ].

Ltac conn_cases s :=
  unfold conn;
  rewrite ?getCreditVaultContract_run, ?getMulticall_run, ?getProvider_run;
  destruct s as [ps cs ms tr];
  repeat conn_step; try reflexivity; try congruence.

Lemma conn_flags s s' :
  has chainId (providers s) = has chainId (providers s') ->
  has chainId (contracts s) = has chainId (contracts s') ->
  has chainId (multicalls s) = has chainId (multicalls s') ->
  conn remote chainId s = conn remote chainId s'.
Proof.
  intros Hp Hc Hm. unfold conn.
  rewrite !getCreditVaultContract_run, !getMulticall_run, !getProvider_run.
  rewrite <- Hp, <- Hc, <- Hm.
  destruct (isValidChainId chainId), (has chainId (providers s)),
    (has chainId (contracts s)), (has chainId (multicalls s)),
    (getChainConfig chainId) as [config|e];
    cbn [fst snd negb]; try reflexivity;
    destruct (remote [] (ReqBlockNumber chainId));
    cbn [fst snd negb]; try reflexivity;
    destruct (String.eqb (creditVaultAddress config) ZeroAddress),
      (truthy (multicall3Address config)); reflexivity.
Qed.

Lemma Good_rpc q : Good remote chainId (rpc remote q).
Proof.
  split.
  - intros s. now apply conn_flags.
  - intros s s' _. unfold rpc. simpl. f_equal. apply Hstateless.
Qed.

Lemma Good_getProvider : Good remote chainId (getProvider remote chainId).
Proof.
  split.
  - intros s. conn_cases s.
  - intros s s' H. unfold conn in H. now injection H.
Qed.

Lemma Good_getCreditVaultContract :
  Good remote chainId (getCreditVaultContract remote chainId).
Proof.
  split.
  - intros s. conn_cases s.
  - intros s s' H. unfold conn in H. now injection H.
Qed.

Lemma Good_getMulticall : Good remote chainId (getMulticall remote chainId).
Proof.
  split.
  - intros s. conn_cases s.
  - intros s s' H. unfold conn in H. now injection H.
Qed.

Variable decodeAddress : Bytes -> option Address.
Variable decodeUint8 : Bytes -> option nat.
Variable decodeString : Bytes -> option string.
Variable decodeInt256 : Bytes -> option Z.

Lemma Good_expectNumber r : Good remote chainId (expectNumber r).
Proof. destruct r; first [apply Good_ret|apply Good_throw]. Qed.

Lemma Good_expectAddress r : Good remote chainId (expectAddress r).
Proof. destruct r; first [apply Good_ret|apply Good_throw]. Qed.

Lemma Good_expectString r : Good remote chainId (expectString r).
Proof. destruct r; first [apply Good_ret|apply Good_throw]. Qed.

Lemma Good_expectResults r : Good remote chainId (expectResults r).
Proof. destruct r; first [apply Good_ret|apply Good_throw]. Qed.

#[local] Hint Resolve Good_ret Good_throw Good_liftResult Good_rpc Good_getProvider
  Good_getCreditVaultContract Good_getMulticall Good_expectNumber
  Good_expectAddress Good_expectString Good_expectResults : good.

Ltac good :=
  solve [ repeat first
            [ solve [auto with good]
            | apply Good_bind; [|intros ?]
            | apply Good_tryCatch; [|intros ?] ] ].

Lemma Good_batchCall multicall calls tag :
  Good remote chainId (batchCall remote chainId multicall calls tag).
Proof. unfold batchCall, aggregate3. good. Qed.

Lemma Good_retryLoop multicall calls tag : forall n results,
  Good remote chainId (retryLoop remote n chainId multicall calls tag results).
Proof.
  induction n as [|n IH]; intros results; cbn [retryLoop]; [good|].
  apply Good_bind; [good|]. intros failed.
  destruct (length failed =? 0)%nat; [good|].
  apply Good_bind; [good|]. intros cs.
  apply Good_bind; [apply Good_batchCall|]. intros rr. apply IH.
Qed.

Lemma Good_batchCallWithRetry multicall calls n tag :
  Good remote chainId (batchCallWithRetry remote chainId multicall calls n tag).
Proof.
  unfold batchCallWithRetry.
  apply Good_bind; [apply Good_batchCall|]. intros r. apply Good_retryLoop.
Qed.

Lemma Good_getUnderlyingToken lp tag :
  Good remote chainId (getUnderlyingToken remote chainId lp tag).
Proof. unfold getUnderlyingToken. good. Qed.

Lemma Good_underlyingFallback tag : forall batch tokenData,
  Good remote chainId (underlyingFallback remote chainId tag batch tokenData).
Proof.
  induction batch as [|lp rest IH]; intros tokenData;
    cbn [underlyingFallback]; [good|].
  apply Good_bind; [|intros td; apply IH].
  apply Good_tryCatch; [|good].
  apply Good_bind; [apply Good_getUnderlyingToken|].
  intros [u|]; [|good].
  destruct (strictNe (UnderlyingData.address u) ZeroAddress); good.
Qed.

(** A method written as [try { m; pure } catch { handler }] with a pure
    step that may throw after [m]. *)
Lemma Good_tryThen {A B C} (m : M A) (pure : A -> Result C * B)
    (handlerAfter : B -> M B) (handler : M B) :
  Good remote chainId m -> (forall b, Good remote chainId (handlerAfter b)) -> Good remote chainId handler ->
  Good remote chainId (fun s =>
          match m s with
          | (Ok a, s') =>
              match pure a with
              | (Ok _, b) => (Ok b, s')
              | (Err _, b) => handlerAfter b s'
              end
          | (Err _, s') => handler s'
          end).
Proof.
  intros [Pm Dm] Ha [Ph Dh]. split.
  - intros s. specialize (Pm s).
    destruct (m s) as [[a|e] s1]; simpl in *.
    + destruct (pure a) as [[c|e] b]; simpl; [exact Pm|].
      destruct (Ha b) as [Pa _]. now rewrite Pa.
    + now rewrite Ph.
  - intros s s' Hc.
    pose proof (Dm s s' Hc) as Hd.
    pose proof (Pm s) as P1. pose proof (Pm s') as P2.
    destruct (m s) as [[a|e] s1], (m s') as [[a'|e'] s1'];
      simpl in *; try discriminate.
    + injection Hd as <-. destruct (pure a) as [[c|e] b]; simpl;
        [reflexivity|].
      destruct (Ha b) as [_ Da]. apply Da. congruence.
    + apply Dh. congruence.
Qed.

Lemma Good_underlyingBatch multicall tag batch tokenData :
  Good remote chainId (underlyingBatch remote decodeAddress decodeUint8 decodeString
          chainId multicall tag batch tokenData).
Proof.
  unfold underlyingBatch.
  exact (Good_tryThen
           (batchCallWithRetry remote chainId multicall
              (underlyingCalls batch) 1 tag)
           (fun results =>
              processTriplets decodeAddress decodeUint8 decodeString batch 0
                results tokenData)
           (underlyingFallback remote chainId tag batch)
           (underlyingFallback remote chainId tag batch tokenData)
           (Good_batchCallWithRetry _ _ _ _)
           (Good_underlyingFallback tag batch)
           (Good_underlyingFallback tag batch tokenData)).
Qed.

Lemma Good_forBatches {A B} (body : list A -> B -> M B) :
  (forall batch acc, Good remote chainId (body batch acc)) ->
  forall bs acc, Good remote chainId (forBatches body bs acc).
Proof.
  intros Hb. induction bs as [|batch rest IH]; intros acc;
    cbn [forBatches]; [good|].
  apply Good_bind; [apply Hb|]. intros acc'. apply IH.
Qed.

Lemma Good_batchGetUnderlyingTokens lps tag :
  Good remote chainId (batchGetUnderlyingTokens remote decodeAddress decodeUint8
          decodeString chainId lps tag).
Proof.
  unfold batchGetUnderlyingTokens.
  apply Good_bind; [good|]. intros mc.
  apply Good_forBatches. intros. apply Good_underlyingBatch.
Qed.

Lemma Good_getPosition trader token tag :
  Good remote chainId (getPosition remote chainId trader token tag).
Proof. unfold getPosition. good. Qed.

Lemma Good_positionsFallback trader tag : forall batch positions,
  Good remote chainId (positionsFallback remote chainId trader tag batch positions).
Proof.
  induction batch as [|token rest IH]; intros positions;
    cbn [positionsFallback]; [good|].
  apply Good_bind; [|intros ps; apply IH].
  apply Good_tryCatch; [|good].
  apply Good_bind; [apply Good_getPosition|]. good.
Qed.

Lemma Good_positionsBatch vault multicall trader tag batch positions :
  Good remote chainId (positionsBatch remote decodeInt256 chainId vault multicall trader
          tag batch positions).
Proof.
  unfold positionsBatch.
  exact (Good_tryThen
           (batchCallWithRetry remote chainId multicall
              (positionCalls vault trader batch) 1 tag)
           (fun results =>
              processPositions decodeInt256 batch 0 results positions)
           (positionsFallback remote chainId trader tag batch)
           (positionsFallback remote chainId trader tag batch positions)
           (Good_batchCallWithRetry _ _ _ _)
           (Good_positionsFallback trader tag batch)
           (Good_positionsFallback trader tag batch positions)).
Qed.

Lemma Good_batchGetPositions trader tokens tag :
  Good remote chainId (batchGetPositions remote decodeInt256 chainId trader tokens tag).
Proof.
  unfold batchGetPositions.
  apply Good_bind; [good|]. intros vault.
  apply Good_bind; [good|]. intros mc.
  apply Good_forBatches. intros. apply Good_positionsBatch.
Qed.

Lemma GoodO_scanLoop vault tag : forall fuel index lpTokens,
  GoodO remote chainId (scanLoop remote fuel chainId vault tag index lpTokens).
Proof.
  induction fuel as [|fuel IH]; intros index lpTokens.
  - split; [discriminate|reflexivity].
  - assert (Hread: Good remote chainId (bind (rpc remote
                                 (ReqAllLPTokens chainId vault index tag))
                           expectAddress)) by good.
    destruct Hread as [Pr Dr].
    assert (Hstep: forall s, scanLoop remote (S fuel) chainId vault tag index
                               lpTokens s =
      match (bind (rpc remote (ReqAllLPTokens chainId vault index tag))
               expectAddress) s with
      | (Ok a, s') =>
          if truthy a && strictNe a ZeroAddress
          then if (1000 <? S index)%nat then Some (Ok (lpTokens ++ [a]), s')
               else scanLoop remote fuel chainId vault tag (S index)
                      (lpTokens ++ [a]) s'
          else Some (Ok lpTokens, s')
      | (Err message, s') =>
          if includes message "revert"
             || includes message "execution reverted"
          then Some (Ok lpTokens, s') else Some (Ok lpTokens, s')
      end) by reflexivity.
    split.
    + intros s r s1. rewrite Hstep. specialize (Pr s).
      destruct (bind _ _ s) as [[a|e] s2]; simpl in Pr.
      * destruct (truthy a && strictNe a ZeroAddress).
        -- destruct (1000 <? S index)%nat.
           ++ intros [= <- <-]. exact Pr.
           ++ intros H. destruct (IH (S index) (lpTokens ++ [a])) as [Pk _].
              rewrite (Pk _ _ _ H). exact Pr.
        -- intros [= <- <-]. exact Pr.
      * destruct (includes e "revert" || includes e "execution reverted");
          intros [= <- <-]; exact Pr.
    + intros s s' Hc. rewrite !Hstep.
      pose proof (Dr s s' Hc) as Hd.
      pose proof (Pr s) as P1. pose proof (Pr s') as P2.
      destruct (bind _ _ s) as [[a|e] s2], (bind _ _ s') as [[a'|e'] s2'];
        simpl in *; try discriminate.
      * injection Hd as <-.
        destruct (truthy a && strictNe a ZeroAddress); [|reflexivity].
        destruct (1000 <? S index)%nat; [reflexivity|].
        destruct (IH (S index) (lpTokens ++ [a])) as [_ Dk].
        apply Dk. congruence.
      * injection Hd as <-.
        destruct (includes e "revert" || includes e "execution reverted");
          reflexivity.
Qed.

Lemma GoodO_getAllLPTokens fuel tag :
  GoodO remote chainId (getAllLPTokens remote fuel chainId tag).
Proof.
  destruct Good_getCreditVaultContract as [Pv Dv].
  unfold getAllLPTokens. split.
  - intros s r s1. specialize (Pv s).
    destruct (getCreditVaultContract remote chainId s) as [[vault|e] s0];
      simpl in Pv.
    + intros H. destruct (GoodO_scanLoop vault tag fuel 0%nat []) as [Pk _].
      rewrite (Pk _ _ _ H). exact Pv.
    + intros [= <- <-]. exact Pv.
  - intros s s' Hc. pose proof (Dv s s' Hc) as Hd.
    pose proof (Pv s) as P1. pose proof (Pv s') as P2.
    destruct (getCreditVaultContract remote chainId s) as [[vault|e] s0],
      (getCreditVaultContract remote chainId s') as [[vault'|e'] s0'];
      simpl in *; try discriminate.
    + injection Hd as <-.
      destruct (GoodO_scanLoop vault tag fuel 0%nat []) as [_ Dk].
      apply Dk. congruence.
    + now injection Hd as <-.
Qed.

Variable isAddress : string -> bool.
Variable formatUnits : Z -> nat -> string.

Lemma Good_afterDiscovery pmm tag config lps elapsed :
  Good remote chainId (afterDiscovery remote chainId decodeAddress decodeUint8 decodeString decodeInt256 formatUnits pmm tag config lps elapsed).
Proof.
  unfold afterDiscovery.
  apply Good_bind; [apply Good_batchGetUnderlyingTokens|]. intros td.
  apply Good_bind; [apply Good_batchGetPositions|]. intros prs. good.
Qed.

Lemma afterDiscovery_time pmm tag config lps elapsed s :
  afterDiscovery remote chainId decodeAddress decodeUint8 decodeString decodeInt256 formatUnits pmm tag config lps elapsed s
  = (mapResult (setFetchTime elapsed)
       (fst (afterDiscovery remote chainId decodeAddress decodeUint8 decodeString decodeInt256 formatUnits pmm tag config lps 0 s)),
     snd (afterDiscovery remote chainId decodeAddress decodeUint8 decodeString decodeInt256 formatUnits pmm tag config lps 0 s)).
Proof.
  unfold afterDiscovery, bind.
  destruct (batchGetUnderlyingTokens _ _ _ _ _ _ _ s) as [[td|e] s2];
    [|reflexivity].
  destruct (batchGetPositions _ _ _ _ _ _ s2) as [[prs|e] s3];
    [|reflexivity].
  destruct (joinLoop formatUnits td 0 prs []) as [positions|e]; reflexivity.
Qed.

Lemma listPmmPositions_time fuel pmm tag t0 t1 s :
  listPmmPositions remote isAddress decodeAddress decodeUint8 decodeString
    decodeInt256 formatUnits fuel pmm chainId tag t0 t1 s
  = option_map
      (fun x => (mapResult (setFetchTime (t1 - t0)) (fst x), snd x))
      (listPmmPositions remote isAddress decodeAddress decodeUint8
         decodeString decodeInt256 formatUnits fuel pmm chainId tag 0 0 s).
Proof.
  unfold listPmmPositions.
  destruct (negb (isAddress pmm)); [reflexivity|].
  destruct (negb (isValidChainId chainId)); [reflexivity|].
  destruct (getChainConfig chainId) as [config|e]; [|reflexivity].
  destruct (getAllLPTokens remote fuel chainId tag s)
    as [[[lps|e] s1]|]; try reflexivity.
  destruct (length lps =? 0)%nat; [reflexivity|].
  change (Some (afterDiscovery remote chainId decodeAddress decodeUint8 decodeString decodeInt256 formatUnits pmm tag config lps (t1 - t0) s1)
          = option_map
              (fun x => (mapResult (setFetchTime (t1 - t0)) (fst x), snd x))
              (Some (afterDiscovery remote chainId decodeAddress decodeUint8 decodeString decodeInt256 formatUnits pmm tag config lps (0 - 0) s1))).
  rewrite afterDiscovery_time. reflexivity.
Qed.

Lemma GoodO_listPmmPositions fuel pmm tag t0 t1 :
  GoodO remote chainId (listPmmPositions remote isAddress decodeAddress decodeUint8
           decodeString decodeInt256 formatUnits fuel pmm chainId tag t0 t1).
Proof.
  destruct (GoodO_getAllLPTokens fuel tag) as [Pg Dg].
  unfold listPmmPositions.
  destruct (negb (isAddress pmm));
    [split; [now intros s r s1 [= <- <-]|reflexivity]|].
  destruct (negb (isValidChainId chainId));
    [split; [now intros s r s1 [= <- <-]|reflexivity]|].
  destruct (getChainConfig chainId) as [config|e];
    [|split; [now intros s r s1 [= <- <-]|reflexivity]].
  split.
  - intros s r s1. specialize (Pg s).
    destruct (getAllLPTokens remote fuel chainId tag s)
      as [[[lps|e] s0]|]; [| |discriminate].
    + specialize (Pg _ _ eq_refl).
      destruct (length lps =? 0)%nat; [now intros [= <- <-]|].
      change (Some (afterDiscovery remote chainId decodeAddress decodeUint8 decodeString decodeInt256 formatUnits pmm tag config lps (t1 - t0) s0)
              = Some (r, s1) -> conn remote chainId s1 = conn remote chainId s).
      intros [= H]. destruct (Good_afterDiscovery pmm tag config lps (t1 - t0))
        as [Pa _].
      specialize (Pa s0). rewrite H in Pa. simpl in Pa. congruence.
    + specialize (Pg _ _ eq_refl). now intros [= <- <-].
  - intros s s' Hc. pose proof (Dg s s' Hc) as Hd.
    pose proof (Pg s) as P1. pose proof (Pg s') as P2.
    destruct (getAllLPTokens remote fuel chainId tag s)
      as [[[lps|e] s0]|],
      (getAllLPTokens remote fuel chainId tag s')
      as [[[lps'|e'] s0']|]; simpl in Hd; try discriminate;
      try reflexivity.
    + injection Hd as <-.
      specialize (P1 _ _ eq_refl). specialize (P2 _ _ eq_refl).
      destruct (length lps =? 0)%nat; [reflexivity|].
      change (option_map fst
                (Some (afterDiscovery remote chainId decodeAddress decodeUint8 decodeString decodeInt256 formatUnits pmm tag config lps (t1 - t0) s0))
              = option_map fst
                  (Some (afterDiscovery remote chainId decodeAddress decodeUint8 decodeString decodeInt256 formatUnits pmm tag config lps (t1 - t0) s0'))).
      simpl. f_equal.
      destruct (Good_afterDiscovery pmm tag config lps (t1 - t0)) as [_ Da].
      apply Da. congruence.
    + now injection Hd as <-.
Qed.

End Idempotence.

Lemma demoRemote_stateless : stateless demoRemote.
Proof. intros h h' q. reflexivity. Qed.

Lemma pinnedRun_first :
  pinnedRun 1000 1250 emptyFetcher = Some (Ok (pinnedReport 250), pinnedFinal).
Proof. vm_compute. reflexivity. Qed.

(** C7, as stated, fails: the remote is stateless and nothing changes
    between the two runs, yet the second report differs from the first in
    [summary.fetchTime], which is the wall-clock time the run took. *)
Lemma rerun_report_differs_in_fetchTime :
  stateless demoRemote /\
  pinnedRun 1000 1250 emptyFetcher
    = Some (Ok (pinnedReport 250), pinnedFinal) /\
  option_map fst (pinnedRun 2000 2300 pinnedFinal)
    = Some (Ok (pinnedReport 300)) /\
  pinnedReport 250 <> pinnedReport 300.
Proof.
  split; [exact demoRemote_stateless|]. split; [exact pinnedRun_first|].
  split; [vm_compute; reflexivity|]. discriminate.
Qed.

(** C7, amended.  Against a remote whose state does not change, running
    [listPmmPositions] again with the same owner, chain and height, on the
    fetcher the first run left behind or on any fetcher with the same
    connection behaviour, succeeds again and yields a report equal to the
    first in every field except [summary.fetchTime]; that field is the
    elapsed time of each run, so the two reports are identical exactly when
    the two runs took the same time. *)
Theorem rerun_same_report_up_to_fetchTime
    (remote : History -> Request -> Response) (isAddress : string -> bool)
    (decodeAddress : Bytes -> option Address)
    (decodeUint8 : Bytes -> option nat)
    (decodeString : Bytes -> option string)
    (decodeInt256 : Bytes -> option Z) (formatUnits : Z -> nat -> string)
    (Hstateless : stateless remote)
    (fuel : nat) (pmm : Address) (chainId : Z) (tag : BlockTag)
    (t0 t1 t0' t1' : Z) (s s1 : Fetcher) (r1 : Report.t)
    (Hrun : listPmmPositions remote isAddress decodeAddress decodeUint8
              decodeString decodeInt256 formatUnits fuel pmm chainId tag
              t0 t1 s = Some (Ok r1, s1)) :
  forall again,
    again = s1 \/ conn remote chainId again = conn remote chainId s ->
    exists r2 s2,
      listPmmPositions remote isAddress decodeAddress decodeUint8
        decodeString decodeInt256 formatUnits fuel pmm chainId tag
        t0' t1' again = Some (Ok r2, s2) /\
      setFetchTime 0 r2 = setFetchTime 0 r1 /\
      Summary.fetchTime (Report.summary r1) = t1 - t0 /\
      Summary.fetchTime (Report.summary r2) = t1' - t0' /\
      (r2 = r1 <-> t1' - t0' = t1 - t0).
Proof.
  intros again Hagain.
  pose proof (GoodO_listPmmPositions remote Hstateless chainId
                decodeAddress decodeUint8 decodeString decodeInt256
                isAddress formatUnits fuel pmm tag 0 0) as [P0 D0].
  assert (Hc: conn remote chainId s = conn remote chainId again).
  { destruct Hagain as [->|H]; [|now symmetry].
    pose proof (GoodO_listPmmPositions remote Hstateless chainId
                  decodeAddress decodeUint8 decodeString decodeInt256
                  isAddress formatUnits fuel pmm tag t0 t1) as [P _].
    symmetry. eapply P, Hrun. }
  specialize (D0 s again Hc).
  rewrite (listPmmPositions_time remote chainId decodeAddress decodeUint8
             decodeString decodeInt256 isAddress formatUnits fuel pmm tag
             t0 t1 s) in Hrun.
  rewrite (listPmmPositions_time remote chainId decodeAddress decodeUint8
             decodeString decodeInt256 isAddress formatUnits fuel pmm tag
             t0' t1' again).
  destruct (listPmmPositions remote isAddress decodeAddress decodeUint8
              decodeString decodeInt256 formatUnits fuel pmm chainId tag
              0 0 s) as [[[base|e] sa]|]; try discriminate.
  destruct (listPmmPositions remote isAddress decodeAddress decodeUint8
              decodeString decodeInt256 formatUnits fuel pmm chainId tag
              0 0 again) as [[[base'|e'] sb]|]; try discriminate.
  simpl in *. injection D0 as <-. injection Hrun as <- <-.
  exists (setFetchTime (t1' - t0') base), sb.
  split; [reflexivity|]. split; [reflexivity|]. split; [reflexivity|].
  split; [reflexivity|]. split.
  - intros H. apply (f_equal (fun r => Summary.fetchTime (Report.summary r)))
      in H. exact H.
  - intros ->. reflexivity.
Qed.

Lemma rerun_same_report_up_to_fetchTime_witness :
  stateless demoRemote /\
  pinnedRun 1000 1250 emptyFetcher
    = Some (Ok (pinnedReport 250), pinnedFinal) /\
  exists r2 s2,
    pinnedRun 2000 2300 pinnedFinal = Some (Ok r2, s2) /\
    setFetchTime 0 r2 = setFetchTime 0 (pinnedReport 250).
Proof.
  split; [exact demoRemote_stateless|]. split; [exact pinnedRun_first|].
  destruct (rerun_same_report_up_to_fetchTime demoRemote demoIsAddress
              demoDecodeAddress demoDecodeUint8 demoDecodeString BigInt
              format demoRemote_stateless 1001 trader 1 (Some 19000000)
              1000 1250 2000 2300 emptyFetcher pinnedFinal
              (pinnedReport 250) pinnedRun_first pinnedFinal
              (or_introl eq_refl))
    as (r2 & s2 & H1 & H2 & _).
  exists r2, s2. split; [exact H1|exact H2].
Defined.

(** ** The formatter round trip *)

Lemma splitPoint_digits u :
  splitPoint (NilEmpty.string_of_uint u) = (NilEmpty.string_of_uint u, None).
Proof. induction u; simpl; try rewrite IHu; reflexivity. Qed.

Lemma splitPoint_pointed u rest :
  splitPoint (NilEmpty.string_of_uint u ++ String "." rest)
  = (NilEmpty.string_of_uint u, Some rest).
Proof. induction u; simpl; try rewrite IHu; reflexivity. Qed.

Lemma nb_digits_app a b :
  Decimal.nb_digits (Decimal.app a b)
  = (Decimal.nb_digits a + Decimal.nb_digits b)%nat.
Proof.
  rewrite !DecimalFacts.nb_digits_spec, DecimalFacts.app_spec.
  apply List.length_app.
Qed.

Lemma parseBody_decimal negative whole fraction scale :
  whole <> Decimal.Nil ->
  Decimal.nb_digits fraction = scale ->
  parseBody negative
    (match scale with
     | O => NilEmpty.string_of_uint whole
     | S _ =>
         NilEmpty.string_of_uint whole ++ "." ++
         NilEmpty.string_of_uint fraction
     end) scale
  = Some (signed negative (Decimal.app whole fraction)).
Proof.
  intros Hnn Hf.
  unfold parseBody. destruct scale as [|n].
  - apply DecimalFacts.nb_digits_0 in Hf. subst fraction.
    rewrite DecimalFacts.app_nil_r, splitPoint_digits, NilEmpty.usu.
    now destruct whole.
  - change ("." ++ NilEmpty.string_of_uint fraction)%string
      with (String "." (NilEmpty.string_of_uint fraction)).
    rewrite splitPoint_pointed, !NilEmpty.usu, Hf, Nat.eqb_refl.
    now destruct whole.
Qed.

Lemma parse_decimal negative whole fraction scale :
  whole <> Decimal.Nil ->
  Decimal.nb_digits fraction = scale ->
  parse (decimalString negative whole fraction scale) scale
  = Some (signed negative (Decimal.app whole fraction)).
Proof.
  intros Hnn Hf. unfold decimalString. destruct negative.
  - cbn [String.append parse]. rewrite Ascii.eqb_refl.
    now apply parseBody_decimal.
  - cbn [String.append].
    rewrite <- (parseBody_decimal false whole fraction scale Hnn Hf).
    destruct scale; destruct whole; try contradiction; reflexivity.
Qed.

Lemma unorm_fixed_zero w :
  Decimal.unorm (Decimal.D0 w) = Decimal.D0 w -> w = Decimal.Nil.
Proof.
  rewrite DecimalFacts.unorm_D0. unfold Decimal.unorm.
  destruct (Decimal.nzhead w) as [|x|x|x|x|x|x|x|x|x|x] eqn:E; intros H;
    try discriminate H.
  - now injection H.
  - exfalso. exact (DecimalFacts.nzhead_nonzero w x E).
Qed.

Lemma padded_canonical whole fraction scale :
  Decimal.unorm whole = whole ->
  Decimal.nb_digits fraction = scale ->
  padded scale (Decimal.unorm (Decimal.app whole fraction))
  = Decimal.app whole fraction.
Proof.
  intros Hw Hf. unfold padded.
  assert (Hnn: whole <> Decimal.Nil)
    by (rewrite <- Hw; apply DecimalFacts.unorm_nonnil).
  destruct whole as [|w|w|w|w|w|w|w|w|w|w]; try contradiction.
  1: { apply unorm_fixed_zero in Hw. subst w.
       change (Decimal.app (Decimal.D0 Decimal.Nil) fraction)
         with (Decimal.D0 fraction).
       rewrite <- (DecimalFacts.iter_D0_unorm (Decimal.D0 fraction)) at 3
         by discriminate.
       cbn [Decimal.nb_digits]. now rewrite Hf. }
  all: match goal with
       | |- context [Decimal.app (?D ?w) ?f] =>
           replace (Decimal.app (D w) f) with (D (Decimal.app w f))
             by (apply DecimalFacts.to_list_inj;
                 rewrite DecimalFacts.app_spec;
                 cbn [DecimalFacts.to_list];
                 now rewrite DecimalFacts.app_spec)
       end;
    match goal with
    | |- context [Decimal.unorm (?D ?x)] =>
        change (Decimal.unorm (D x)) with (D x);
        change (Decimal.nb_digits (D x)) with (S (Decimal.nb_digits x))
    end;
    rewrite nb_digits_app, Hf;
    match goal with
    | |- context [(S ?k - ?n)%nat] =>
        replace (S k - n)%nat with 0%nat by lia
    end;
    reflexivity.
Qed.

Lemma pointed_app whole fraction scale :
  Decimal.nb_digits fraction = scale ->
  pointed scale (Decimal.app whole fraction)
  = match scale with
    | O => NilEmpty.string_of_uint whole
    | S _ =>
        (NilEmpty.string_of_uint whole ++ "." ++
         NilEmpty.string_of_uint fraction)%string
    end.
Proof.
  intros <-. unfold pointed.
  rewrite DecimalFacts.del_tail_app by lia.
  rewrite DecimalFacts.del_tail_nb_digits, DecimalFacts.app_nil_r.
  rewrite nb_digits_app, Nat.add_sub.
  rewrite DecimalFacts.del_head_app by lia.
  rewrite DecimalFacts.del_head_nb_digits, DecimalFacts.app_nil_l.
  reflexivity.
Qed.

Lemma format_signed negative whole fraction scale :
  Decimal.unorm whole = whole ->
  Decimal.nb_digits fraction = scale ->
  (negative = true ->
   Decimal.nzhead (Decimal.app whole fraction) <> Decimal.Nil) ->
  format (signed negative (Decimal.app whole fraction)) scale
  = decimalString negative whole fraction scale.
Proof.
  intros Hw Hf Hnz. unfold format, signed.
  rewrite DecimalZ.to_of, DecimalFacts.abs_norm.
  assert (Habs: Decimal.abs (if negative
                             then Decimal.Neg (Decimal.app whole fraction)
                             else Decimal.Pos (Decimal.app whole fraction))
                = Decimal.app whole fraction) by now destruct negative.
  rewrite Habs, padded_canonical, pointed_app by assumption.
  unfold decimalString. f_equal.
  destruct negative; [|reflexivity].
  specialize (Hnz eq_refl). cbn [Decimal.norm].
  now destruct (Decimal.nzhead (Decimal.app whole fraction)).
Qed.

Lemma format_shape z scale :
  format z scale
  = decimalString (isNegative (Z.to_int z))
      (Decimal.del_tail scale (padded scale (Decimal.abs (Z.to_int z))))
      (Decimal.del_head
         (Decimal.nb_digits (padded scale (Decimal.abs (Z.to_int z)))
          - scale)
         (padded scale (Decimal.abs (Z.to_int z))))
      scale.
Proof.
  unfold format, decimalString, pointed.
  destruct (Z.to_int z), scale; reflexivity.
Qed.

Lemma padded_long scale u :
  (S scale <= Decimal.nb_digits (padded scale u))%nat.
Proof. unfold padded. rewrite DecimalFacts.nb_digits_iter_D0. lia. Qed.

Lemma signed_padded d scale :
  signed (isNegative d) (padded scale (Decimal.abs d)) = Z.of_int d.
Proof.
  unfold signed, padded.
  rewrite <- DecimalZ.of_int_norm, <- (DecimalZ.of_int_norm d).
  f_equal. destruct d as [u|u]; cbn [isNegative Decimal.abs Decimal.norm].
  - now rewrite DecimalFacts.unorm_iter_D0.
  - now rewrite DecimalFacts.nzhead_iter_D0.
Qed.

Lemma parse_format z scale : parse (format z scale) scale = Some z.
Proof.
  rewrite format_shape.
  set (P := padded scale (Decimal.abs (Z.to_int z))).
  pose proof (padded_long scale (Decimal.abs (Z.to_int z))) as Hlong.
  fold P in Hlong.
  assert (Happ: Decimal.app (Decimal.del_tail scale P)
                  (Decimal.del_head (Decimal.nb_digits P - scale) P) = P)
    by (apply DecimalFacts.app_del_tail_head; lia).
  assert (Hf: Decimal.nb_digits
                (Decimal.del_head (Decimal.nb_digits P - scale) P) = scale)
    by (apply DecimalFacts.nb_digits_del_head_sub; lia).
  assert (Hw: Decimal.del_tail scale P <> Decimal.Nil).
  { apply DecimalFacts.nb_digits_n0.
    apply (f_equal Decimal.nb_digits) in Happ.
    rewrite nb_digits_app, Hf in Happ. lia. }
  rewrite parse_decimal by assumption.
  rewrite Happ. unfold P. rewrite signed_padded. f_equal.
  apply DecimalZ.of_to.
Qed.

(** C6. For every decimal string [s] of the given scale, negative ones
    included, [format (parse s scale) scale] is [s] again; conversely
    [format] writes exactly [scale] fraction digits and loses nothing, for
    it parses back to the quantity whatever its magnitude. *)
Theorem format_parse_round_trip (scale : nat) :
  (forall s, isDecimal scale s ->
     exists z, parse s scale = Some z /\ format z scale = s) /\
  (forall z,
     parse (format z scale) scale = Some z /\
     exists whole fraction,
       format z scale = decimalString (z <? 0) whole fraction scale /\
       Decimal.nb_digits fraction = scale).
Proof.
  split.
  - intros s (negative & whole & fraction & -> & Hw & Hf & Hnz).
    exists (signed negative (Decimal.app whole fraction)). split.
    + apply parse_decimal; [|exact Hf].
      rewrite <- Hw. apply DecimalFacts.unorm_nonnil.
    + now apply format_signed.
  - intros z. split; [apply parse_format|].
    eexists _, _. split.
    + rewrite format_shape. f_equal. now destruct z.
    + apply DecimalFacts.nb_digits_del_head_sub.
      pose proof (padded_long scale (Decimal.abs (Z.to_int z))). lia.
Qed.

Lemma minus_1500_is_decimal : isDecimal 3 "-1.500".
Proof.
  exists true, (Decimal.D1 Decimal.Nil),
    (Decimal.D5 (Decimal.D0 (Decimal.D0 Decimal.Nil))).
  repeat split; try reflexivity. discriminate.
Qed.

Lemma format_parse_round_trip_witness :
  isDecimal 3 "-1.500" /\
  parse "-1.500" 3 = Some (-1500) /\ format (-1500) 3 = "-1.500" /\
  parse (format (-123456789012345678901234567890) 36) 36
    = Some (-123456789012345678901234567890).
Proof.
  split; [exact minus_1500_is_decimal|].
  destruct (proj1 (format_parse_round_trip 3) "-1.500" minus_1500_is_decimal)
    as (z & Hp & Hf).
  assert (Hz: z = -1500) by (vm_compute in Hp; now injection Hp).
  subst z. split; [exact Hp|]. split; [exact Hf|].
  exact (proj1 (proj2 (format_parse_round_trip 36)
                  (-123456789012345678901234567890))).
Defined.

(** * Further properties of the library *)

(** X1. The batches walked by the loops of stages 2 and 3
    ([for (i = 0; i < l.length; i += batchSize)] with
    [l.slice(i, i + batchSize)]) partition the list: put end to end they
    give the list back, there is a batch number [k] exactly when
    [k * batchSize] is below the length, batch [k] is the slice starting at
    [k * batchSize], no batch is empty or longer than [batchSize], and every
    batch that is not cut by the end of the list has exactly [batchSize]
    items. *)
Lemma slices_lookup {A} (batchSize : nat) (l : list A) :
  forall fuel i k batch,
    slices fuel batchSize i l !! k = Some batch ->
    batch = take batchSize (drop (i + k * batchSize) l) /\
    (i + k * batchSize < length l)%nat.
Proof.
  induction fuel as [|fuel IH]; intros i k batch H; [discriminate|].
  simpl in H. destruct (i <? length l)%nat eqn:E; [|discriminate].
  apply Nat.ltb_lt in E. destruct k as [|k]; simpl in H.
  - injection H as <-. rewrite Nat.add_0_r. auto.
  - apply IH in H as [-> H]. split; [f_equal; f_equal; lia|lia].
Qed.

Lemma slices_defined {A} (batchSize : nat) (l : list A) :
  (1 <= batchSize)%nat ->
  forall fuel i k, (length l - i <= fuel)%nat ->
    (i + k * batchSize < length l)%nat ->
    is_Some (slices fuel batchSize i l !! k).
Proof.
  intros Hb. induction fuel as [|fuel IH]; intros i k Hf Hk; [lia|].
  simpl. destruct (i <? length l)%nat eqn:E.
  - destruct k as [|k]; simpl; [eauto|]. apply IH; lia.
  - apply Nat.ltb_ge in E. lia.
Qed.

Theorem batches_partition {A} (batchSize : nat) (l : list A)
    (Hsize : (1 <= batchSize)%nat) :
  concat (batches batchSize l) = l /\
  (forall k, is_Some (batches batchSize l !! k) <->
             (k * batchSize < length l)%nat) /\
  (forall k batch, batches batchSize l !! k = Some batch ->
     batch = take batchSize (drop (k * batchSize) l) /\
     (1 <= length batch <= batchSize)%nat /\
     ((S k * batchSize <= length l)%nat -> length batch = batchSize)).
Proof.
  split; [now apply concat_batches|]. split.
  - intros k. split.
    + intros [batch H]. now apply slices_lookup in H as [_ H].
    + intros H. apply slices_defined; simpl; lia.
  - intros k batch H. apply slices_lookup in H as [-> H]. simpl in *.
    split; [reflexivity|]. rewrite length_take, length_drop. lia.
Qed.

Lemma batches_partition_witness :
  (1 <= 2)%nat /\
  batches 2 [lpA; lpB; lpC] = [[lpA; lpB]; [lpC]] /\
  concat (batches 2 [lpA; lpB; lpC]) = [lpA; lpB; lpC].
Proof.
  split; [lia|]. split; [reflexivity|].
  apply (batches_partition 2 [lpA; lpB; lpC]). lia.
Defined.

Lemma scanLoop_S remote fuel chainId vault tag index acc s :
  scanLoop remote (S fuel) chainId vault tag index acc s =
  let q := ReqAllLPTokens chainId vault index tag in
  let s1 := mkFetcher (providers s) (contracts s) (multicalls s)
              (q :: trace s) in
  match remote (trace s) q with
  | RespAddress a =>
      if truthy a && strictNe a ZeroAddress
      then if (1000 <? S index)%nat then Some (Ok (acc ++ [a]), s1)
           else scanLoop remote fuel chainId vault tag (S index)
                  (acc ++ [a]) s1
      else Some (Ok acc, s1)
  | _ => Some (Ok acc, s1)
  end.
Proof.
  cbn [scanLoop]. unfold bind, rpc, expectAddress, badData, throw, ret.
  cbn zeta.
  destruct (remote (trace s) (ReqAllLPTokens chainId vault index tag));
    try reflexivity;
    match goal with
    | |- context [includes ?m "revert" || includes ?m "execution reverted"] =>
        destruct (includes m "revert" || includes m "execution reverted");
        reflexivity
    end.
Qed.

Lemma scanLoop_stops remote chainId vault tag :
  forall fuel index acc s lps s',
    (index <= 1000)%nat ->
    scanLoop remote fuel chainId vault tag index acc s = Some (Ok lps, s') ->
    exists new,
      lps = acc ++ new /\
      (index + length new <= 1001)%nat /\
      (forall k a, new !! k = Some a ->
         remote (readsOf chainId vault tag index k ++ trace s)
           (ReqAllLPTokens chainId vault (index + k) tag) = RespAddress a /\
         a <> "" /\ a <> ZeroAddress) /\
      ((index + length new < 1001)%nat ->
         collectable
           (remote (readsOf chainId vault tag index (length new) ++ trace s)
              (ReqAllLPTokens chainId vault (index + length new) tag))
         = false /\
         trace s' = readsOf chainId vault tag index (S (length new))
                      ++ trace s) /\
      ((index + length new = 1001)%nat ->
         trace s' = readsOf chainId vault tag index (length new) ++ trace s) /\
      sameMemo s s'.
Proof.
  induction fuel as [|fuel IH]; intros index acc s lps s' Hi H; [discriminate|].
  rewrite scanLoop_S in H. cbn zeta in H.
  assert (Hstop: Some (Ok acc, mkFetcher (providers s) (contracts s)
                         (multicalls s)
                         (ReqAllLPTokens chainId vault index tag :: trace s))
                 = Some (Ok lps, s') ->
                 collectable (remote (trace s)
                                (ReqAllLPTokens chainId vault index tag))
                 = false ->
                 exists new,
      lps = acc ++ new /\
      (index + length new <= 1001)%nat /\
      (forall k a, new !! k = Some a ->
         remote (readsOf chainId vault tag index k ++ trace s)
           (ReqAllLPTokens chainId vault (index + k) tag) = RespAddress a /\
         a <> "" /\ a <> ZeroAddress) /\
      ((index + length new < 1001)%nat ->
         collectable
           (remote (readsOf chainId vault tag index (length new) ++ trace s)
              (ReqAllLPTokens chainId vault (index + length new) tag))
         = false /\
         trace s' = readsOf chainId vault tag index (S (length new))
                      ++ trace s) /\
      ((index + length new = 1001)%nat ->
         trace s' = readsOf chainId vault tag index (length new) ++ trace s) /\
      sameMemo s s').
  { intros [= <- <-] Hc. exists []. rewrite app_nil_r. simpl.
    rewrite Nat.add_0_r.
    split; [reflexivity|]. split; [lia|]. split; [intros k a [=]|].
    split; [auto|]. split; [lia|]. repeat split. }
  destruct (remote (trace s) (ReqAllLPTokens chainId vault index tag))
    as [e|n|a|x|rs] eqn:E; try (apply Hstop; [exact H|reflexivity]).
  destruct (truthy a && strictNe a ZeroAddress) eqn:Ea;
    [|apply Hstop; [exact H|exact Ea]].
  clear Hstop.
  assert (Hva: a <> "" /\ a <> ZeroAddress).
  { apply andb_true_iff in Ea as [E1 E2]. split.
    - unfold truthy in E1. apply negb_true_iff, String.eqb_neq in E1. exact E1.
    - now apply strictNe_true in E2. }
  destruct (1000 <? S index)%nat eqn:Ecap.
  - apply Nat.ltb_lt in Ecap.
    injection H as <- <-. exists [a]. cbn [length].
    split; [reflexivity|]. split; [lia|]. split.
    + intros [|k] b Hk; cbn in Hk; [|discriminate]. injection Hk as <-.
      rewrite Nat.add_0_r. auto.
    + split; [lia|]. split; [reflexivity|repeat split].
  - apply Nat.ltb_ge in Ecap.
    apply IH in H as (new & -> & Hlen & Hk & Hterm & Hcap & Hm); [|lia].
    cbn [trace] in *.
    exists (a :: new). cbn [length].
    split; [now rewrite <- app_assoc|]. split; [lia|]. split; [|split; [|split]].
    + intros [|k] b Hb; simpl in Hb.
      * injection Hb as <-. rewrite Nat.add_0_r. auto.
      * specialize (Hk k b Hb). rewrite readsOf_S, <- app_assoc. simpl.
        now replace (index + S k)%nat with (S index + k)%nat by lia.
    + intros Hlt. destruct Hterm as [H1 H2]; [lia|].
      rewrite (readsOf_S _ _ _ index (length new)), <- app_assoc. simpl.
      replace (index + S (length new))%nat with (S index + length new)%nat
        by lia.
      split; [exact H1|].
      rewrite H2, (readsOf_S _ _ _ index (S (length new))), <- app_assoc.
      reflexivity.
    + intros Heq. rewrite Hcap by lia.
      now rewrite (readsOf_S _ _ _ index (length new)), <- app_assoc.
    + exact Hm.
Qed.

(** X2. The registry scan reads the indices 0, 1, 2, ... in order and
    stops at the first answer it cannot collect: it returns at most 1001
    identities, each one the non-empty, non-zero address answered at its own
    index; when it returns fewer than 1001, the answer at the next index was
    not collectable (the zero address, the empty string or an error) and
    that read was the last request; no index is read after the stop, and
    the memo maps are untouched. *)
Theorem scan_stops_at_first_terminal_signal
    (remote : History -> Request -> Response) (fuel : nat) (chainId : Z)
    (vault : Address) (tag : BlockTag) (s s' : Fetcher) (lps : list Address)
    (Hscan : scanLoop remote fuel chainId vault tag 0 [] s
             = Some (Ok lps, s')) :
  (length lps <= 1001)%nat /\
  (forall k a, lps !! k = Some a ->
     remote (readsOf chainId vault tag 0 k ++ trace s)
       (ReqAllLPTokens chainId vault k tag) = RespAddress a /\
     a <> "" /\ a <> ZeroAddress) /\
  ((length lps < 1001)%nat ->
     collectable
       (remote (readsOf chainId vault tag 0 (length lps) ++ trace s)
          (ReqAllLPTokens chainId vault (length lps) tag)) = false) /\
  trace s' = readsOf chainId vault tag 0 (Nat.min (S (length lps)) 1001)
               ++ trace s /\
  sameMemo s s'.
Proof.
  apply scanLoop_stops in Hscan as (new & -> & Hlen & Hk & Hterm & Hcap & Hm);
    [|lia].
  simpl in *. split; [exact Hlen|]. split; [exact Hk|]. split; [|split].
  - intros Hlt. now apply Hterm.
  - destruct (Nat.eq_dec (length new) 1001%nat) as [Heq|Hne].
    + rewrite Hcap by exact Heq. f_equal. f_equal. lia.
    + destruct Hterm as [_ ->]; [lia|]. f_equal. f_equal. lia.
  - exact Hm.
Qed.

Lemma scan_stops_at_first_terminal_signal_witness :
  exists s',
    scanLoop demoRemote 1001 1 vaultEth None 0 [] emptyFetcher
      = Some (Ok [lpA; lpB; lpC], s') /\
    trace s' = readsOf 1 vaultEth None 0 4 ++ trace emptyFetcher /\
    collectable (demoRemote (readsOf 1 vaultEth None 0 3 ++ trace emptyFetcher)
                   (ReqAllLPTokens 1 vaultEth 3 None)) = false.
Proof.
  eexists. split; [vm_compute; reflexivity|].
  match goal with
  | |- trace ?s' = _ /\ _ =>
      pose proof (scan_stops_at_first_terminal_signal demoRemote 1001 1
                    vaultEth None emptyFetcher s' [lpA; lpB; lpC]
                    ltac:(vm_compute; reflexivity)) as (_ & _ & H3 & H4 & _)
  end.
  split; [exact H4|]. apply H3. cbn [length]. lia.
Defined.

Section ConnectionEquations.
Variable remote : History -> Request -> Response.
Variable chainId : Z.

Lemma getProvider_eq s :
  getProvider remote chainId s =
  if negb (isValidChainId chainId) then (Err "Unsupported chain ID", s)
  else if has chainId (providers s) then (Ok tt, s)
  else
    match getChainConfig chainId with
    | Err e => (Err e, s)
    | Ok _ =>
        match numberOf (remote (trace s) (ReqBlockNumber chainId)) with
        | Ok _ =>
            (Ok tt, mkFetcher (chainId :: providers s) (contracts s)
                      (multicalls s) (ReqBlockNumber chainId :: trace s))
        | Err e => (Err e, pushed (ReqBlockNumber chainId) s)
        end
    end.
Proof.
  unfold getProvider. destruct (negb (isValidChainId chainId)); [reflexivity|].
  unfold bind at 1. unfold get at 1.
  destruct (has chainId (providers s)); [reflexivity|].
  destruct (getChainConfig chainId) as [config|e]; [|reflexivity].
  unfold bind, liftResult, ret, rpc, get, setProviders, pushed, numberOf.
  destruct (remote (trace s) (ReqBlockNumber chainId)); reflexivity.
Qed.

Lemma getCreditVaultContract_eq s :
  getCreditVaultContract remote chainId s =
  if has chainId (contracts s) then
    match getChainConfig chainId with
    | Ok config => (Ok (creditVaultAddress config), s)
    | Err e => (Err e, s)
    end
  else
    match getProvider remote chainId s with
    | (Ok _, s1) =>
        match getChainConfig chainId with
        | Ok config =>
            if String.eqb (creditVaultAddress config) ZeroAddress
            then (Err "CreditVault address not configured", s1)
            else (Ok (creditVaultAddress config),
                  mkFetcher (providers s1) (chainId :: contracts s1)
                    (multicalls s1) (trace s1))
        | Err e => (Err e, s1)
        end
    | (Err e, s1) => (Err e, s1)
    end.
Proof.
  unfold getCreditVaultContract. unfold bind at 1. unfold get at 1.
  destruct (has chainId (contracts s)).
  - unfold bind, liftResult. destruct (getChainConfig chainId); reflexivity.
  - unfold bind at 1.
    destruct (getProvider remote chainId s) as [[[]|e] s1]; [|reflexivity].
    unfold bind at 1, liftResult.
    destruct (getChainConfig chainId) as [config|e]; [|reflexivity].
    unfold ret at 1.
    destruct (String.eqb (creditVaultAddress config) ZeroAddress);
      reflexivity.
Qed.

Lemma getMulticall_eq s :
  getMulticall remote chainId s =
  if has chainId (multicalls s) then
    match getChainConfig chainId with
    | Ok config => (Ok (multicall3Address config), s)
    | Err e => (Err e, s)
    end
  else
    match getProvider remote chainId s with
    | (Ok _, s1) =>
        match getChainConfig chainId with
        | Ok config =>
            if negb (truthy (multicall3Address config))
            then (Err "Multicall3 address not configured", s1)
            else (Ok (multicall3Address config),
                  mkFetcher (providers s1) (contracts s1)
                    (chainId :: multicalls s1) (trace s1))
        | Err e => (Err e, s1)
        end
    | (Err e, s1) => (Err e, s1)
    end.
Proof.
  unfold getMulticall. unfold bind at 1. unfold get at 1.
  destruct (has chainId (multicalls s)).
  - unfold bind, liftResult. destruct (getChainConfig chainId); reflexivity.
  - unfold bind at 1.
    destruct (getProvider remote chainId s) as [[[]|e] s1]; [|reflexivity].
    unfold bind at 1, liftResult.
    destruct (getChainConfig chainId) as [config|e]; [|reflexivity].
    unfold ret at 1.
    destruct (negb (truthy (multicall3Address config))); reflexivity.
Qed.

Lemma has_cons k ks : has k (k :: ks) = true.
Proof. unfold has. simpl. now rewrite Z.eqb_refl. Qed.

End ConnectionEquations.

(** The configuration table agrees with the validity check, and every
    configured chain names a vault and an aggregator. *)
Lemma valid_config chainId :
  isValidChainId chainId = true ->
  exists config, getChainConfig chainId = Ok config /\
    String.eqb (creditVaultAddress config) ZeroAddress = false /\
    truthy (multicall3Address config) = true.
Proof.
  unfold isValidChainId, SUPPORTED_CHAIN_IDS. simpl.
  rewrite !orb_true_iff, !Z.eqb_eq.
  intros H. repeat (destruct H as [H|H]); try discriminate; subst;
    eexists; split; try reflexivity; split; reflexivity.
Qed.

(** X3. The three memoised connection methods are idempotent: after a
    successful [getProvider], [getCreditVaultContract] or [getMulticall],
    the same call on the resulting fetcher returns the same value, sends
    nothing and changes nothing.  A failed [getProvider] is not memoised:
    it leaves the three maps as they were, and on a supported chain it
    failed because the liveness probe, the only request it sent, was not
    answered with a block number. *)
Theorem memoised_connections_are_idempotent
    (remote : History -> Request -> Response) (chainId : Z) (s : Fetcher) :
  (forall s', getProvider remote chainId s = (Ok tt, s') ->
     getProvider remote chainId s' = (Ok tt, s')) /\
  (forall vault s', getCreditVaultContract remote chainId s = (Ok vault, s') ->
     getCreditVaultContract remote chainId s' = (Ok vault, s')) /\
  (forall multicall s', getMulticall remote chainId s = (Ok multicall, s') ->
     getMulticall remote chainId s' = (Ok multicall, s')) /\
  (forall e s', getProvider remote chainId s = (Err e, s') ->
     sameMemo s s' /\
     (isValidChainId chainId = true ->
      has chainId (providers s) = false /\
      s' = pushed (ReqBlockNumber chainId) s /\
      numberOf (remote (trace s) (ReqBlockNumber chainId)) = Err e)).
Proof.
  split; [|split; [|split]].
  - intros s'. rewrite !getProvider_eq.
    destruct (negb (isValidChainId chainId)); [discriminate|].
    destruct (has chainId (providers s)) eqn:Ep.
    + intros [= <-]. now rewrite Ep.
    + destruct (getChainConfig chainId); [|discriminate].
      destruct (numberOf _); [|discriminate].
      intros [= <-]. cbn [providers]. now rewrite has_cons.
  - intros vault s'. rewrite !getCreditVaultContract_eq.
    destruct (has chainId (contracts s)) eqn:Ec.
    + destruct (getChainConfig chainId); [|discriminate].
      intros [= <- <-]. now rewrite Ec.
    + destruct (getProvider remote chainId s) as [[[]|e] s1]; [|discriminate].
      destruct (getChainConfig chainId) as [config|]; [|discriminate].
      destruct (String.eqb _ _); [discriminate|].
      intros [= <- <-]. cbn [contracts]. now rewrite has_cons.
  - intros multicall s'. rewrite !getMulticall_eq.
    destruct (has chainId (multicalls s)) eqn:Ec.
    + destruct (getChainConfig chainId); [|discriminate].
      intros [= <- <-]. now rewrite Ec.
    + destruct (getProvider remote chainId s) as [[[]|e] s1]; [|discriminate].
      destruct (getChainConfig chainId) as [config|]; [|discriminate].
      destruct (negb _); [discriminate|].
      intros [= <- <-]. cbn [multicalls]. now rewrite has_cons.
  - intros e s'. rewrite getProvider_eq.
    destruct (isValidChainId chainId) eqn:Ev; cbn [negb].
    + destruct (has chainId (providers s)); [discriminate|].
      destruct (valid_config chainId Ev) as (config & -> & _).
      destruct (numberOf _) as [n|e'] eqn:En; [discriminate|].
      intros [= <- <-]. split; [repeat split|]. auto.
    + intros [= <- <-]. split; [repeat split|discriminate].
Qed.

Lemma memoised_connections_are_idempotent_witness :
  exists s1,
    getCreditVaultContract demoRemote 1 emptyFetcher = (Ok vaultEth, s1) /\
    getCreditVaultContract demoRemote 1 s1 = (Ok vaultEth, s1).
Proof.
  eexists. split; [vm_compute; reflexivity|].
  apply (proj1 (proj2 (memoised_connections_are_idempotent demoRemote 1
                         emptyFetcher))).
  vm_compute. reflexivity.
Defined.

(** ** The discipline of the requests *)

Lemma Forall_of_sublist {A} (P : A -> Prop) (l1 l2 : list A) :
  sublist l1 l2 -> Forall P l2 -> Forall P l1.
Proof.
  induction 1 as [|x l1 l2 _ IH|x l1 l2 _ IH]; intros H;
    [constructor| |]; inversion H; subst; auto.
Qed.

Lemma failedCalls_sublist contractCalls :
  forall results index failed calls,
    failedCalls contractCalls index results = Ok failed ->
    mapM snd failed = Some calls ->
    sublist calls (drop index contractCalls).
Proof.
  induction results as [|[r|] rest IH]; intros index failed calls Hf Hm;
    simpl in Hf; [| |discriminate].
  - injection Hf as <-. injection Hm as <-. apply sublist_nil_l.
  - destruct (failedCalls contractCalls (S index) rest) as [f'|e] eqn:E;
      [|discriminate].
    injection Hf as <-.
    assert (Hskip: forall cs, sublist cs (drop (S index) contractCalls) ->
                              sublist cs (drop index contractCalls)).
    { intros cs H. destruct (contractCalls !! index) as [c|] eqn:Ec.
      - rewrite (drop_S _ _ _ Ec). now apply sublist_cons.
      - apply lookup_ge_None in Ec.
        rewrite drop_ge in H by lia. rewrite drop_ge by lia. exact H. }
    destruct (CallResult.success r).
    + apply Hskip. eapply IH; eauto.
    + cbn in Hm.
      destruct (contractCalls !! index) as [c|] eqn:Ec; [|discriminate].
      cbn in Hm. destruct (mapM snd f') as [cs|] eqn:Em; [|discriminate].
      cbn in Hm. injection Hm as <-.
      rewrite (drop_S _ _ _ Ec). apply sublist_skip. eapply IH; eauto.
Qed.

Lemma forallb_Forall {A} (f : A -> bool) (l : list A) :
  forallb f l = true <-> Forall (fun x => f x = true) l.
Proof.
  induction l as [|x l IH]; simpl.
  - split; [constructor|reflexivity].
  - rewrite andb_true_iff, IH. split.
    + intros [H1 H2]. now constructor.
    + intros H. inversion H; subst. auto.
Qed.

Lemma tagEqb_refl t : tagEqb t t = true.
Proof. destruct t; simpl; [apply Z.eqb_refl|reflexivity]. Qed.

Lemma withinLimits_sublist vault pmm lps calls calls' :
  sublist calls' calls ->
  withinLimits vault pmm lps calls = true ->
  withinLimits vault pmm lps calls' = true.
Proof.
  intros Hs. unfold withinLimits. pose proof (sublist_length _ _ Hs) as Hl.
  rewrite !orb_true_iff, !andb_true_iff, !forallb_Forall, !Nat.leb_le.
  intros [[H1 H2]|[H1 H2]]; [left|right]; (split; [|lia]);
    apply (Forall_of_sublist _ _ _ Hs); exact H1.
Qed.

Section DisciplineRules.
Variable remote : History -> Request -> Response.
Variable I : Fetcher -> Prop.
Variable P : Request -> Prop.
Hypothesis I_pushed : forall s q, I s -> I (pushed q s).

Abbreviation Keeps := (Keeps I P).

Lemma Keeps_ret {A} (a : A) (Q : A -> Prop) : Q a -> Keeps (ret a) Q.
Proof.
  intros Hq s Hs. split; [exact Hs|]. split.
  - exists []. split; [reflexivity|constructor].
  - now intros a' [= <-].
Qed.

Lemma Keeps_throw {A} e (Q : A -> Prop) : Keeps (throw e) Q.
Proof.
  intros s Hs. split; [exact Hs|]. split.
  - exists []. split; [reflexivity|constructor].
  - intros a [=].
Qed.

Lemma Keeps_liftResult {A} (r : Result A) (Q : A -> Prop) :
  (forall a, r = Ok a -> Q a) -> Keeps (liftResult r) Q.
Proof.
  intros H. destruct r; [apply Keeps_ret; auto|apply Keeps_throw].
Qed.

Lemma Keeps_weaken {A} (f : M A) (Q Q' : A -> Prop) :
  Keeps f Q -> (forall a, Q a -> Q' a) -> Keeps f Q'.
Proof.
  intros Hf Hq s Hs. destruct (Hf s Hs) as (H1 & H2 & H3). auto.
Qed.

Lemma Keeps_bind {A B} (m : M A) (k : A -> M B) (Q : A -> Prop)
    (Q' : B -> Prop) :
  Keeps m Q -> (forall a, Q a -> Keeps (k a) Q') -> Keeps (bind m k) Q'.
Proof.
  intros Hm Hk s Hs. unfold bind.
  destruct (Hm s Hs) as (H1 & (new & Ht & Hn) & H3).
  destruct (m s) as [[a|e] s1]; simpl in *.
  - destruct (Hk a (H3 a eq_refl) s1 H1) as (K1 & (new' & Ht' & Hn') & K3).
    split; [exact K1|]. split; [|exact K3].
    exists (new' ++ new). rewrite Ht', Ht, app_assoc.
    split; [reflexivity|]. now apply Forall_app.
  - split; [exact H1|]. split; [eauto|]. intros b [=].
Qed.

Lemma Keeps_then {A B} (m : M A) (k : A -> M B) (Q' : B -> Prop) :
  Keeps m anything -> (forall a, Keeps (k a) Q') -> Keeps (bind m k) Q'.
Proof. intros Hm Hk. eapply Keeps_bind; [exact Hm|]. intros a _. apply Hk. Qed.

Lemma Keeps_tryCatch {A} (m : M A) (handler : string -> M A)
    (Q : A -> Prop) :
  Keeps m Q -> (forall e, Keeps (handler e) Q) -> Keeps (tryCatch m handler) Q.
Proof.
  intros Hm Hk s Hs. unfold tryCatch.
  destruct (Hm s Hs) as (H1 & (new & Ht & Hn) & H3).
  destruct (m s) as [[a|e] s1]; simpl in *.
  - split; [exact H1|]. split; [eauto|]. intros a' [= <-]. now apply H3.
  - destruct (Hk e s1 H1) as (K1 & (new' & Ht' & Hn') & K3).
    split; [exact K1|]. split; [|exact K3].
    exists (new' ++ new). rewrite Ht', Ht, app_assoc.
    split; [reflexivity|]. now apply Forall_app.
Qed.

Lemma Keeps_rpc q : P q -> Keeps (rpc remote q) anything.
Proof.
  intros Hq s Hs. split; [now apply (I_pushed s q)|]. split.
  - exists [q]. split; [reflexivity|]. now constructor.
  - intros a _. exact Logic.I.
Qed.

Lemma Keeps_expectNumber r : Keeps (expectNumber r) anything.
Proof.
  destruct r; first [now apply Keeps_ret|apply Keeps_throw].
Qed.

Lemma Keeps_expectAddress r : Keeps (expectAddress r) anything.
Proof.
  destruct r; first [now apply Keeps_ret|apply Keeps_throw].
Qed.

Lemma Keeps_expectString r : Keeps (expectString r) anything.
Proof.
  destruct r; first [now apply Keeps_ret|apply Keeps_throw].
Qed.

Lemma Keeps_expectResults r : Keeps (expectResults r) anything.
Proof.
  destruct r; first [now apply Keeps_ret|apply Keeps_throw].
Qed.

Lemma Keeps_forBatches {A B} (body : list A -> B -> M B) (bs : list (list A)) :
  Forall (fun batch => forall acc, Keeps (body batch acc) anything) bs ->
  forall acc, Keeps (forBatches body bs acc) anything.
Proof.
  induction 1 as [|batch rest Hb _ IH]; intros acc; cbn [forBatches].
  - now apply Keeps_ret.
  - eapply Keeps_bind; [apply Hb|]. intros acc' _. apply IH.
Qed.

(** A method written as [try { m; pure } catch { handler }] with a pure
    step that may throw after [m]. *)
Lemma Keeps_tryThen {A B C} (m : M A) (pure : A -> Result C * B)
    (handlerAfter : B -> M B) (handler : M B) :
  Keeps m anything -> (forall b, Keeps (handlerAfter b) anything) ->
  Keeps handler anything ->
  Keeps (fun s =>
           match m s with
           | (Ok a, s') =>
               match pure a with
               | (Ok _, b) => (Ok b, s')
               | (Err _, b) => handlerAfter b s'
               end
           | (Err _, s') => handler s'
           end) anything.
Proof.
  intros Hm Ha Hh s Hs.
  destruct (Hm s Hs) as (H1 & (new & Ht & Hn) & _).
  destruct (m s) as [[a|e] s1]; simpl in *.
  - destruct (pure a) as [[c|e] b]; simpl.
    + split; [exact H1|]. split; [eauto|]. now intros.
    + destruct (Ha b s1 H1) as (K1 & (new' & Ht' & Hn') & _).
      split; [exact K1|]. split; [|now intros].
      exists (new' ++ new). rewrite Ht', Ht, app_assoc.
      split; [reflexivity|]. now apply Forall_app.
  - destruct (Hh s1 H1) as (K1 & (new' & Ht' & Hn') & _).
    split; [exact K1|]. split; [|now intros].
    exists (new' ++ new). rewrite Ht', Ht, app_assoc.
    split; [reflexivity|]. now apply Forall_app.
Qed.

End DisciplineRules.

Section PipelineDiscipline.
Variable remote : History -> Request -> Response.
Variable decodeAddress : Bytes -> option Address.
Variable decodeUint8 : Bytes -> option nat.
Variable decodeString : Bytes -> option string.
Variable decodeInt256 : Bytes -> option Z.
Variable I : Fetcher -> Prop.
Variable probe : bool.
Variable chainId : Z.
Variable config : ChainConfig.
Variable pmm : Address.
Variable tag : BlockTag.
Variable lps : list Address.

Hypothesis I_pushed : forall s q, I s -> I (pushed q s).

Abbreviation P := (fun q => allowed probe chainId config pmm tag lps q = true).
Abbreviation Keeps := (Keeps I P).
Abbreviation KeepsO := (KeepsO I P).

Hypothesis Keeps_getProvider : Keeps (getProvider remote chainId) anything.
Hypothesis Keeps_getCreditVaultContract :
  Keeps (getCreditVaultContract remote chainId)
    (fun vault => vault = creditVaultAddress config).
Hypothesis Keeps_getMulticall :
  Keeps (getMulticall remote chainId)
    (fun multicall => multicall = multicall3Address config).

Lemma Keeps_batchCall calls :
  withinLimits (creditVaultAddress config) pmm lps calls = true ->
  Keeps (batchCall remote chainId (multicall3Address config) calls tag)
    anything.
Proof.
  intros Hc. unfold batchCall, aggregate3.
  apply Keeps_then; [|intros ?; now apply Keeps_ret].
  apply Keeps_then; [|intros ?; apply Keeps_expectResults].
  apply Keeps_rpc; [exact I_pushed|].
  cbn [allowed]. now rewrite Z.eqb_refl, String.eqb_refl, tagEqb_refl, Hc.
Qed.

Lemma Keeps_retryLoop calls :
  withinLimits (creditVaultAddress config) pmm lps calls = true ->
  forall n results,
    Keeps (retryLoop remote n chainId (multicall3Address config) calls tag
             results) anything.
Proof.
  intros Hc. induction n as [|n IH]; intros results; cbn [retryLoop].
  - now apply Keeps_ret.
  - eapply Keeps_bind; [apply Keeps_liftResult; intros a Ha; exact Ha|].
    intros failed Hf. cbn beta in Hf.
    destruct (length failed =? 0)%nat; [now apply Keeps_ret|].
    eapply Keeps_bind; [apply Keeps_liftResult; intros a Ha; exact Ha|].
    intros cs Hcs. cbn beta in Hcs.
    apply Keeps_then; [|intros ?; apply IH].
    apply Keeps_batchCall.
    apply (withinLimits_sublist _ _ _ calls); [|exact Hc].
    unfold retryCalls in Hcs.
    destruct (mapM snd failed) as [cs'|] eqn:Em; [|discriminate].
    injection Hcs as ->.
    pose proof (failedCalls_sublist calls results 0 failed cs Hf Em) as H.
    now rewrite drop_0 in H.
Qed.

Lemma Keeps_batchCallWithRetry calls n :
  withinLimits (creditVaultAddress config) pmm lps calls = true ->
  Keeps (batchCallWithRetry remote chainId (multicall3Address config) calls
           n tag) anything.
Proof.
  intros Hc. unfold batchCallWithRetry.
  apply Keeps_then; [now apply Keeps_batchCall|].
  intros ?. now apply Keeps_retryLoop.
Qed.

Lemma allowed_read lp :
  mem lp lps = true ->
  allowed probe chainId config pmm tag lps (ReqUnderlying chainId lp tag)
    = true /\
  allowed probe chainId config pmm tag lps (ReqDecimals chainId lp tag)
    = true /\
  allowed probe chainId config pmm tag lps (ReqSymbol chainId lp tag) = true.
Proof.
  intros H. cbn [allowed]. now rewrite Z.eqb_refl, H, tagEqb_refl.
Qed.

Lemma Keeps_getUnderlyingToken lp :
  mem lp lps = true ->
  Keeps (getUnderlyingToken remote chainId lp tag) anything.
Proof.
  intros H. destruct (allowed_read lp H) as (H1 & H2 & H3).
  unfold getUnderlyingToken.
  apply Keeps_tryCatch; [|intros ?; now apply Keeps_ret].
  apply Keeps_then; [exact Keeps_getProvider|]. intros ?.
  apply Keeps_then; [apply Keeps_rpc; [exact I_pushed|exact H1]|]. intros ?.
  apply Keeps_then; [apply Keeps_rpc; [exact I_pushed|exact H2]|]. intros ?.
  apply Keeps_then; [apply Keeps_rpc; [exact I_pushed|exact H3]|]. intros ?.
  apply Keeps_then; [apply Keeps_expectAddress|]. intros ?.
  apply Keeps_then; [apply Keeps_expectNumber|]. intros ?.
  apply Keeps_then; [apply Keeps_expectString|]. intros ?.
  now apply Keeps_ret.
Qed.

Lemma Keeps_underlyingFallback : forall batch tokenData,
  Forall (fun lp => mem lp lps = true) batch ->
  Keeps (underlyingFallback remote chainId tag batch tokenData) anything.
Proof.
  induction batch as [|lp rest IH]; intros tokenData Hb;
    cbn [underlyingFallback]; [now apply Keeps_ret|].
  inversion Hb as [|? ? Hlp Hrest]; subst.
  apply Keeps_then; [|intros td; now apply IH].
  apply Keeps_tryCatch; [|intros ?; now apply Keeps_ret].
  apply Keeps_then; [now apply Keeps_getUnderlyingToken|].
  intros [u|]; [|now apply Keeps_ret].
  destruct (strictNe (UnderlyingData.address u) ZeroAddress);
    now apply Keeps_ret.
Qed.

Lemma underlyingCalls_withinLimits batch :
  Forall (fun lp => mem lp lps = true) batch -> (length batch <= 10)%nat ->
  withinLimits (creditVaultAddress config) pmm lps (underlyingCalls batch)
    = true.
Proof.
  intros Hb Hl. unfold withinLimits. apply orb_true_iff. left.
  apply andb_true_iff. split.
  - apply forallb_Forall. unfold underlyingCalls.
    induction Hb as [|lp rest Hlp _ IH]; [constructor|]. simpl.
    repeat constructor; try (unfold metadataCall; simpl; now rewrite Hlp).
    apply IH. simpl in Hl. lia.
  - apply Nat.leb_le. rewrite length_underlyingCalls. lia.
Qed.

Lemma positionCalls_withinLimits batch :
  (length batch <= 20)%nat ->
  withinLimits (creditVaultAddress config) pmm lps
    (positionCalls (creditVaultAddress config) pmm batch) = true.
Proof.
  intros Hl. unfold withinLimits. apply orb_true_iff. right.
  apply andb_true_iff. split.
  - apply forallb_Forall. unfold positionCalls.
    clear Hl. induction batch as [|t rest IH]; [constructor|]. simpl.
    constructor; [|exact IH].
    unfold positionCall. simpl. now rewrite !String.eqb_refl.
  - apply Nat.leb_le. rewrite length_positionCalls. lia.
Qed.

Lemma Keeps_underlyingBatch batch tokenData :
  Forall (fun lp => mem lp lps = true) batch -> (length batch <= 10)%nat ->
  Keeps (underlyingBatch remote decodeAddress decodeUint8 decodeString
           chainId (multicall3Address config) tag batch tokenData) anything.
Proof.
  intros Hb Hl. unfold underlyingBatch.
  exact (Keeps_tryThen I P
           (batchCallWithRetry remote chainId (multicall3Address config)
              (underlyingCalls batch) 1 tag)
           (fun results =>
              processTriplets decodeAddress decodeUint8 decodeString batch 0
                results tokenData)
           (underlyingFallback remote chainId tag batch)
           (underlyingFallback remote chainId tag batch tokenData)
           (Keeps_batchCallWithRetry _ 1
              (underlyingCalls_withinLimits batch Hb Hl))
           (fun b => Keeps_underlyingFallback batch b Hb)
           (Keeps_underlyingFallback batch tokenData Hb)).
Qed.

Lemma batches_bounded {A} (Q : A -> Prop) (batchSize : nat) (l : list A) :
  Forall Q l ->
  Forall (fun batch => Forall Q batch /\ (length batch <= batchSize)%nat)
    (batches batchSize l).
Proof.
  intros Hq. apply Forall_lookup. intros k batch H.
  apply slices_lookup in H as [-> _]. split.
  - now apply Forall_take, Forall_drop.
  - rewrite length_take. lia.
Qed.

Lemma Keeps_batchGetUnderlyingTokens tokens :
  Forall (fun lp => mem lp lps = true) tokens ->
  Keeps (batchGetUnderlyingTokens remote decodeAddress decodeUint8
           decodeString chainId tokens tag) anything.
Proof.
  intros Ht. unfold batchGetUnderlyingTokens.
  eapply Keeps_bind; [exact Keeps_getMulticall|].
  intros mc ->. apply Keeps_forBatches.
  eapply Forall_impl; [apply (batches_bounded _ 10 tokens Ht)|].
  intros batch [Hb Hl] acc. now apply Keeps_underlyingBatch.
Qed.

Lemma allowed_positions token :
  allowed probe chainId config pmm tag lps
    (ReqPositions chainId (creditVaultAddress config) pmm token tag) = true.
Proof.
  cbn [allowed]. now rewrite Z.eqb_refl, !String.eqb_refl, tagEqb_refl.
Qed.

Lemma Keeps_getPosition token :
  Keeps (getPosition remote chainId pmm token tag) anything.
Proof.
  unfold getPosition.
  apply Keeps_tryCatch; [|intros ?; now apply Keeps_ret].
  eapply Keeps_bind; [exact Keeps_getCreditVaultContract|]. intros vault ->.
  apply Keeps_then;
    [apply Keeps_rpc; [exact I_pushed|apply allowed_positions]|].
  intros ?. apply Keeps_expectNumber.
Qed.

Lemma Keeps_positionsFallback : forall batch positions,
  Keeps (positionsFallback remote chainId pmm tag batch positions) anything.
Proof.
  induction batch as [|token rest IH]; intros positions;
    cbn [positionsFallback]; [now apply Keeps_ret|].
  apply Keeps_then; [|intros ps; apply IH].
  apply Keeps_tryCatch; [|intros ?; now apply Keeps_ret].
  apply Keeps_then; [apply Keeps_getPosition|].
  intros ?. now apply Keeps_ret.
Qed.

Lemma Keeps_positionsBatch batch positions :
  (length batch <= 20)%nat ->
  Keeps (positionsBatch remote decodeInt256 chainId
           (creditVaultAddress config) (multicall3Address config) pmm tag
           batch positions) anything.
Proof.
  intros Hl. unfold positionsBatch.
  exact (Keeps_tryThen I P
           (batchCallWithRetry remote chainId (multicall3Address config)
              (positionCalls (creditVaultAddress config) pmm batch) 1 tag)
           (fun results =>
              processPositions decodeInt256 batch 0 results positions)
           (positionsFallback remote chainId pmm tag batch)
           (positionsFallback remote chainId pmm tag batch positions)
           (Keeps_batchCallWithRetry _ 1
              (positionCalls_withinLimits batch Hl))
           (Keeps_positionsFallback batch)
           (Keeps_positionsFallback batch positions)).
Qed.

Lemma Keeps_batchGetPositions tokens :
  Keeps (batchGetPositions remote decodeInt256 chainId pmm tokens tag)
    anything.
Proof.
  unfold batchGetPositions.
  eapply Keeps_bind; [exact Keeps_getCreditVaultContract|]. intros vault ->.
  eapply Keeps_bind; [exact Keeps_getMulticall|]. intros mc ->.
  apply Keeps_forBatches.
  eapply Forall_impl;
    [apply (batches_bounded (fun _ => True) 20 tokens);
     apply Forall_forall; auto|].
  intros batch [_ Hl] acc. now apply Keeps_positionsBatch.
Qed.

Lemma allowed_scan index :
  allowed probe chainId config pmm tag lps
    (ReqAllLPTokens chainId (creditVaultAddress config) index tag) = true.
Proof.
  cbn [allowed]. now rewrite Z.eqb_refl, String.eqb_refl, tagEqb_refl.
Qed.

Lemma KeepsO_scanLoop : forall fuel index acc,
  KeepsO (scanLoop remote fuel chainId (creditVaultAddress config) tag index
            acc) anything.
Proof.
  induction fuel as [|fuel IH]; intros index acc s r s' Hs H; [discriminate|].
  rewrite scanLoop_S in H. cbn zeta in H.
  pose proof (I_pushed s (ReqAllLPTokens chainId (creditVaultAddress config)
                            index tag) Hs) as Hs1.
  assert (Hone: exists new,
             trace (pushed (ReqAllLPTokens chainId (creditVaultAddress config)
                              index tag) s) = new ++ trace s /\
             Forall P new).
  { eexists [_]. split; [reflexivity|]. constructor; [|constructor].
    apply allowed_scan. }
  assert (Hstop: forall l,
            Some (Ok l, pushed (ReqAllLPTokens chainId
                                  (creditVaultAddress config) index tag) s)
            = Some (r, s') ->
            I s' /\ (exists new, trace s' = new ++ trace s /\ Forall P new) /\
            (forall a, r = Ok a -> anything a)).
  { intros l [= <- <-]. split; [exact Hs1|]. split; [exact Hone|].
    intros; exact Logic.I. }
  unfold pushed in Hstop.
  destruct (remote (trace s) _); try (eapply Hstop; exact H).
  destruct (truthy a && strictNe a ZeroAddress); [|eapply Hstop; exact H].
  destruct (1000 <? S index)%nat; [eapply Hstop; exact H|].
  destruct (IH _ _ _ _ _ Hs1 H) as (K1 & (new & Ht & Hn) & K3).
  split; [exact K1|]. split; [|exact K3].
  destruct Hone as (one & Ho & Hp).
  exists (new ++ one). rewrite Ht, Ho, app_assoc.
  split; [reflexivity|]. now apply Forall_app.
Qed.

Lemma KeepsO_getAllLPTokens fuel :
  KeepsO (getAllLPTokens remote fuel chainId tag) anything.
Proof.
  intros s r s' Hs. unfold getAllLPTokens.
  destruct (Keeps_getCreditVaultContract s Hs) as (H1 & (new & Ht & Hn) & H3).
  destruct (getCreditVaultContract remote chainId s) as [[vault|e] s1];
    simpl in *.
  - rewrite (H3 vault eq_refl). intros H.
    destruct (KeepsO_scanLoop _ _ _ _ _ _ H1 H) as (K1 & (new' & Ht' & Hn') & K3).
    split; [exact K1|]. split; [|exact K3].
    exists (new' ++ new). rewrite Ht', Ht, app_assoc.
    split; [reflexivity|]. now apply Forall_app.
  - intros [= <- <-]. split; [exact H1|]. split; [eauto|]. intros a [=].
Qed.

Variable formatUnits : Z -> nat -> string.

Lemma Keeps_afterDiscovery config' elapsed :
  Keeps (afterDiscovery remote chainId decodeAddress decodeUint8 decodeString
           decodeInt256 formatUnits pmm tag config' lps elapsed) anything.
Proof.
  unfold afterDiscovery.
  eapply Keeps_bind.
  { apply Keeps_batchGetUnderlyingTokens. apply Forall_forall.
    intros lp Hlp. unfold mem. apply existsb_exists. exists lp.
    split; [now apply list_elem_of_In|apply String.eqb_refl]. }
  intros td _. apply Keeps_then; [apply Keeps_batchGetPositions|].
  intros prs. apply Keeps_then; [apply Keeps_liftResult; now intros|].
  intros ?. now apply Keeps_ret.
Qed.

Lemma Keeps_getCurrentBlock :
  probe = true -> Keeps (getCurrentBlock remote chainId) anything.
Proof.
  intros Hp. unfold getCurrentBlock.
  apply Keeps_then; [exact Keeps_getProvider|]. intros ?.
  apply Keeps_then; [|intros ?; apply Keeps_expectNumber].
  apply Keeps_rpc; [exact I_pushed|]. cbn [allowed].
  now rewrite Hp, Z.eqb_refl.
Qed.

End PipelineDiscipline.

(** *** The three connection methods *)

Lemma configOf_eq chainId config :
  getChainConfig chainId = Ok config -> config = configOf chainId.
Proof.
  unfold getChainConfig, configOf.
  destruct (CHAIN_CONFIGS chainId); [now intros [= ->]|discriminate].
Qed.

Section ConnectionDiscipline.
Variable remote : History -> Request -> Response.
Variable I : Fetcher -> Prop.
Variable probe : bool.
Variable chainId : Z.
Variable pmm : Address.
Variable tag : BlockTag.
Variable lps : list Address.

Abbreviation P :=
  (fun q => allowed probe chainId (configOf chainId) pmm tag lps q = true).

Hypothesis I_pushed : forall s q, I s -> I (pushed q s).
Hypothesis I_provider : forall s t,
  I s -> isValidChainId chainId = true ->
  I (mkFetcher (chainId :: providers s) (contracts s) (multicalls s) t).
Hypothesis I_contract : forall s,
  I s -> has chainId (providers s) = true ->
  I (mkFetcher (providers s) (chainId :: contracts s) (multicalls s)
       (trace s)).
Hypothesis I_multicall : forall s,
  I s -> has chainId (providers s) = true ->
  I (mkFetcher (providers s) (contracts s) (chainId :: multicalls s)
       (trace s)).
Hypothesis probe_or_cached :
  probe = true \/ forall s, I s -> has chainId (providers s) = true.

Lemma getProvider_keeps s :
  I s ->
  I (snd (getProvider remote chainId s)) /\
  (exists new, trace (snd (getProvider remote chainId s)) = new ++ trace s /\
               Forall P new) /\
  (forall a, fst (getProvider remote chainId s) = Ok a ->
     has chainId (providers (snd (getProvider remote chainId s))) = true).
Proof.
  intros Hs. rewrite getProvider_eq.
  assert (Hnil: exists new : History, trace s = new ++ trace s /\ Forall P new)
    by (exists []; split; [reflexivity|constructor]).
  destruct (isValidChainId chainId) eqn:Ev; cbn [negb];
    [|split; [exact Hs|]; split; [exact Hnil|intros a [=]]].
  destruct (has chainId (providers s)) eqn:Ep;
    [split; [exact Hs|]; split; [exact Hnil|intros a _; exact Ep]|].
  destruct (getChainConfig chainId);
    [|split; [exact Hs|]; split; [exact Hnil|intros a [=]]].
  assert (Hp: probe = true).
  { destruct probe_or_cached as [H|H]; [exact H|].
    rewrite (H s Hs) in Ep. discriminate. }
  assert (Hone: Forall P [ReqBlockNumber chainId]).
  { constructor; [|constructor]. cbn [allowed]. now rewrite Hp, Z.eqb_refl. }
  destruct (numberOf _); cbn [fst snd trace pushed].
  - split; [now apply I_provider|]. split.
    + exists [ReqBlockNumber chainId]. auto.
    + intros _ _. apply has_cons.
  - split; [now apply (I_pushed s)|]. split.
    + exists [ReqBlockNumber chainId]. auto.
    + intros a' [=].
Qed.

Lemma Keeps_getProvider_here :
  Keeps I P (getProvider remote chainId) anything.
Proof.
  intros s Hs. destruct (getProvider_keeps s Hs) as (H1 & H2 & _).
  split; [exact H1|]. split; [exact H2|]. now intros.
Qed.

Lemma Keeps_getCreditVaultContract_here :
  Keeps I P (getCreditVaultContract remote chainId)
    (fun vault => vault = creditVaultAddress (configOf chainId)).
Proof.
  intros s Hs. rewrite getCreditVaultContract_eq.
  assert (Hnil: exists new : History, trace s = new ++ trace s /\ Forall P new)
    by (exists []; split; [reflexivity|constructor]).
  destruct (has chainId (contracts s)).
  - destruct (getChainConfig chainId) as [config|e] eqn:Ec.
    + split; [exact Hs|]. split; [exact Hnil|].
      intros a [= <-]. now rewrite (configOf_eq _ _ Ec).
    + split; [exact Hs|]. split; [exact Hnil|]. intros a [=].
  - destruct (getProvider_keeps s Hs) as (H1 & H2 & H3).
    destruct (getProvider remote chainId s) as [[[]|e] s1]; cbn [fst snd] in *.
    + destruct (getChainConfig chainId) as [config|e] eqn:Ec.
      * destruct (String.eqb _ _); cbn [fst snd trace].
        -- split; [exact H1|]. split; [exact H2|]. intros a [=].
        -- split; [apply I_contract; [exact H1|exact (H3 tt eq_refl)]|]. split; [exact H2|].
           intros a [= <-]. now rewrite (configOf_eq _ _ Ec).
      * split; [exact H1|]. split; [exact H2|]. intros a [=].
    + split; [exact H1|]. split; [exact H2|]. intros a [=].
Qed.

Lemma Keeps_getMulticall_here :
  Keeps I P (getMulticall remote chainId)
    (fun multicall => multicall = multicall3Address (configOf chainId)).
Proof.
  intros s Hs. rewrite getMulticall_eq.
  assert (Hnil: exists new : History, trace s = new ++ trace s /\ Forall P new)
    by (exists []; split; [reflexivity|constructor]).
  destruct (has chainId (multicalls s)).
  - destruct (getChainConfig chainId) as [config|e] eqn:Ec.
    + split; [exact Hs|]. split; [exact Hnil|].
      intros a [= <-]. now rewrite (configOf_eq _ _ Ec).
    + split; [exact Hs|]. split; [exact Hnil|]. intros a [=].
  - destruct (getProvider_keeps s Hs) as (H1 & H2 & H3).
    destruct (getProvider remote chainId s) as [[[]|e] s1]; cbn [fst snd] in *.
    + destruct (getChainConfig chainId) as [config|e] eqn:Ec.
      * destruct (negb _); cbn [fst snd trace].
        -- split; [exact H1|]. split; [exact H2|]. intros a [=].
        -- split; [apply I_multicall; [exact H1|exact (H3 tt eq_refl)]|]. split; [exact H2|].
           intros a [= <-]. now rewrite (configOf_eq _ _ Ec).
      * split; [exact H1|]. split; [exact H2|]. intros a [=].
    + split; [exact H1|]. split; [exact H2|]. intros a [=].
Qed.

End ConnectionDiscipline.

(** *** The memo maps *)

Lemma has_weaken k k' ks : has k ks = true -> has k (k' :: ks) = true.
Proof. unfold has. simpl. intros ->. apply orb_true_r. Qed.

Lemma wellFormed_pushed s q :
  wellFormed s = true -> wellFormed (pushed q s) = true.
Proof. exact (fun H => H). Qed.

Lemma wellFormed_provider chainId s t :
  wellFormed s = true -> isValidChainId chainId = true ->
  wellFormed (mkFetcher (chainId :: providers s) (contracts s) (multicalls s)
                t) = true.
Proof.
  unfold wellFormed. cbn [providers contracts multicalls forallb].
  rewrite !andb_true_iff, !forallb_Forall. intros [H1 H2] ->.
  split; [now split|]. eapply Forall_impl; [exact H2|].
  intros k. apply has_weaken.
Qed.

Lemma wellFormed_contract chainId s :
  wellFormed s = true -> has chainId (providers s) = true ->
  wellFormed (mkFetcher (providers s) (chainId :: contracts s) (multicalls s)
                (trace s)) = true.
Proof.
  unfold wellFormed. cbn [providers contracts multicalls app forallb].
  rewrite !andb_true_iff. intros [-> ->] ->. auto.
Qed.

Lemma wellFormed_multicall chainId s :
  wellFormed s = true -> has chainId (providers s) = true ->
  wellFormed (mkFetcher (providers s) (contracts s) (chainId :: multicalls s)
                (trace s)) = true.
Proof.
  unfold wellFormed. cbn [providers contracts multicalls].
  rewrite !forallb_app. cbn [forallb]. rewrite !andb_true_iff.
  intros (-> & -> & ->) ->. auto.
Qed.

Lemma wellFormed_cached chainId s :
  wellFormed s = true ->
  has chainId (contracts s) = true \/ has chainId (multicalls s) = true ->
  has chainId (providers s) = true.
Proof.
  unfold wellFormed. rewrite andb_true_iff, !forallb_Forall, Forall_app.
  intros [_ [Hc Hm]] [H|H]; unfold has in H; apply existsb_exists in H
    as (k & Hk & Heq); apply Z.eqb_eq in Heq; subst k;
    apply list_elem_of_In in Hk.
  - rewrite Forall_forall in Hc. now apply Hc.
  - rewrite Forall_forall in Hm. now apply Hm.
Qed.

Lemma wellFormed_valid chainId s :
  wellFormed s = true -> has chainId (providers s) = true ->
  isValidChainId chainId = true.
Proof.
  unfold wellFormed. rewrite andb_true_iff, forallb_Forall.
  intros [Hv _] H. unfold has in H. apply existsb_exists in H
    as (k & Hk & Heq). apply Z.eqb_eq in Heq. subst k.
  apply list_elem_of_In in Hk. rewrite Forall_forall in Hv. now apply Hv.
Qed.

(** *** A whole run *)

Section RunDiscipline.
Variable remote : History -> Request -> Response.
Variable isAddress : string -> bool.
Variable decodeAddress : Bytes -> option Address.
Variable decodeUint8 : Bytes -> option nat.
Variable decodeString : Bytes -> option string.
Variable decodeInt256 : Bytes -> option Z.
Variable formatUnits : Z -> nat -> string.
Variable I : Fetcher -> Prop.
Variable probe : bool.
Variable chainId : Z.

Hypothesis I_pushed : forall s q, I s -> I (pushed q s).
Hypothesis I_provider : forall s t,
  I s -> isValidChainId chainId = true ->
  I (mkFetcher (chainId :: providers s) (contracts s) (multicalls s) t).
Hypothesis I_contract : forall s,
  I s -> has chainId (providers s) = true ->
  I (mkFetcher (providers s) (chainId :: contracts s) (multicalls s)
       (trace s)).
Hypothesis I_multicall : forall s,
  I s -> has chainId (providers s) = true ->
  I (mkFetcher (providers s) (contracts s) (chainId :: multicalls s)
       (trace s)).
Hypothesis probe_or_cached :
  probe = true \/ forall s, I s -> has chainId (providers s) = true.

Lemma getAllLPTokens_keeps pmm lps fuel tag :
  KeepsO I (fun q => allowed probe chainId (configOf chainId) pmm tag lps q
                     = true)
    (getAllLPTokens remote fuel chainId tag) anything.
Proof.
  apply KeepsO_getAllLPTokens; [exact I_pushed|].
  now apply Keeps_getCreditVaultContract_here.
Qed.

Lemma batchGetUnderlyingTokens_keeps pmm tokens tag :
  Keeps I (fun q => allowed probe chainId (configOf chainId) pmm tag tokens q
                    = true)
    (batchGetUnderlyingTokens remote decodeAddress decodeUint8 decodeString
       chainId tokens tag) anything.
Proof.
  apply Keeps_batchGetUnderlyingTokens; [exact I_pushed| | |].
  - now apply Keeps_getProvider_here.
  - now apply Keeps_getMulticall_here.
  - apply Forall_forall. intros lp Hlp. unfold mem. apply existsb_exists.
    exists lp. split; [now apply list_elem_of_In|apply String.eqb_refl].
Qed.

Lemma batchGetPositions_keeps pmm lps tokens tag :
  Keeps I (fun q => allowed probe chainId (configOf chainId) pmm tag lps q
                    = true)
    (batchGetPositions remote decodeInt256 chainId pmm tokens tag) anything.
Proof.
  apply Keeps_batchGetPositions; [exact I_pushed| |].
  - now apply Keeps_getCreditVaultContract_here.
  - now apply Keeps_getMulticall_here.
Qed.

Lemma getUnderlyingToken_keeps pmm lp tag :
  Keeps I (fun q => allowed probe chainId (configOf chainId) pmm tag [lp] q
                    = true)
    (getUnderlyingToken remote chainId lp tag) anything.
Proof.
  apply Keeps_getUnderlyingToken; [exact I_pushed| |].
  - now apply Keeps_getProvider_here.
  - unfold mem. simpl. now rewrite String.eqb_refl.
Qed.

Lemma getPosition_keeps pmm lps token tag :
  Keeps I (fun q => allowed probe chainId (configOf chainId) pmm tag lps q
                    = true)
    (getPosition remote chainId pmm token tag) anything.
Proof.
  apply Keeps_getPosition; [exact I_pushed|].
  now apply Keeps_getCreditVaultContract_here.
Qed.

Lemma listPmmPositions_keeps fuel pmm tag t0 t1 s r s' :
  I s ->
  listPmmPositions remote isAddress decodeAddress decodeUint8 decodeString
    decodeInt256 formatUnits fuel pmm chainId tag t0 t1 s = Some (r, s') ->
  I s' /\
  exists new, trace s' = new ++ trace s /\
    Forall (fun q => allowed probe chainId (configOf chainId) pmm tag
                       (discovered remote fuel chainId tag s) q = true) new.
Proof.
  intros Hs. unfold listPmmPositions, discovered.
  assert (Hnil: forall lps, exists new : History,
            trace s = new ++ trace s /\
            Forall (fun q => allowed probe chainId (configOf chainId) pmm tag
                               lps q = true) new)
    by (intros; exists []; split; [reflexivity|constructor]).
  destruct (negb (isAddress pmm)); [intros [= <- <-]; auto|].
  destruct (negb (isValidChainId chainId)); [intros [= <- <-]; auto|].
  destruct (getChainConfig chainId) as [config|e]; [|intros [= <- <-]; auto].
  destruct (getAllLPTokens remote fuel chainId tag s)
    as [[[lps|e] s1]|] eqn:Escan; [| |discriminate].
  - destruct (getAllLPTokens_keeps pmm lps fuel tag s _ _ Hs Escan)
      as (H1 & (new & Ht & Hn) & _).
    destruct (length lps =? 0)%nat; [intros [= <- <-]; eauto|].
    change (Some (afterDiscovery remote chainId decodeAddress decodeUint8
                    decodeString decodeInt256 formatUnits pmm tag config lps
                    (t1 - t0) s1) = Some (r, s') ->
            I s' /\ exists new, trace s' = new ++ trace s /\
              Forall (fun q => allowed probe chainId (configOf chainId) pmm
                                 tag lps q = true) new).
    intros [= H].
    assert (Ha: Keeps I (fun q => allowed probe chainId (configOf chainId)
                                    pmm tag lps q = true)
                  (afterDiscovery remote chainId decodeAddress decodeUint8
                     decodeString decodeInt256 formatUnits pmm tag config lps
                     (t1 - t0)) anything).
    { apply Keeps_afterDiscovery; [exact I_pushed| | |].
      - now apply Keeps_getProvider_here.
      - now apply Keeps_getCreditVaultContract_here.
      - now apply Keeps_getMulticall_here. }
    destruct (Ha s1 H1) as (K1 & (new' & Ht' & Hn') & _).
    rewrite H in *. cbn [fst snd] in *. split; [exact K1|].
    exists (new' ++ new). rewrite Ht', Ht, app_assoc.
    split; [reflexivity|]. now apply Forall_app.
  - destruct (getAllLPTokens_keeps pmm [] fuel tag s _ _ Hs Escan)
      as (H1 & H2 & _).
    intros [= <- <-]. auto.
Qed.

End RunDiscipline.

Lemma getCreditVaultContract_again remote chainId s vault s' :
  getCreditVaultContract remote chainId s = (Ok vault, s') ->
  getCreditVaultContract remote chainId s' = (Ok vault, s').
Proof.
  rewrite !getCreditVaultContract_eq.
  destruct (has chainId (contracts s)) eqn:Ec.
  - destruct (getChainConfig chainId); [|discriminate].
    intros [= <- <-]. now rewrite Ec.
  - destruct (getProvider remote chainId s) as [[[]|e] s1]; [|discriminate].
    destruct (getChainConfig chainId) as [config|]; [|discriminate].
    destruct (String.eqb _ _); [discriminate|].
    intros [= <- <-]. cbn [contracts]. now rewrite has_cons.
Qed.

Lemma listPmmPositions_after_connection remote isAddress decodeAddress
    decodeUint8 decodeString decodeInt256 formatUnits fuel pmm chainId tag
    t0 t1 s vault s1 :
  getCreditVaultContract remote chainId s = (Ok vault, s1) ->
  isAddress pmm = true -> isValidChainId chainId = true ->
  listPmmPositions remote isAddress decodeAddress decodeUint8 decodeString
    decodeInt256 formatUnits fuel pmm chainId tag t0 t1 s
  = listPmmPositions remote isAddress decodeAddress decodeUint8 decodeString
      decodeInt256 formatUnits fuel pmm chainId tag t0 t1 s1.
Proof.
  intros Hv Ha Hc. pose proof (getCreditVaultContract_again _ _ _ _ _ Hv) as Hv'.
  destruct (valid_config chainId Hc) as (config & Hcfg & _).
  unfold listPmmPositions, getAllLPTokens. rewrite Ha, Hc, Hcfg, Hv, Hv'.
  reflexivity.
Qed.

Lemma allowed_no_probe chainId config pmm tag lps (new : History) :
  Forall (fun q => allowed false chainId config pmm tag lps q = true) new ->
  probes new = 0%nat.
Proof.
  unfold probes. induction 1 as [|q new Hq _ IH]; [reflexivity|].
  simpl. destruct q; simpl in *; try exact IH. discriminate.
Qed.

Lemma probes_app (a b : History) : probes (a ++ b) = (probes a + probes b)%nat.
Proof. unfold probes. now rewrite List.filter_app, length_app. Qed.

(** X7. Every request a run of [listPmmPositions] sends is one the run is
    allowed to send: it goes to the requested chain (the liveness probe is
    the only request without a height); registry reads and
    quantity reads go to the configured vault, aggregate requests to the
    configured aggregator, metadata sub-calls and metadata reads to LP
    tokens the registry listed in this run; quantity reads and sub-calls are
    for the requested owner; registry, metadata and quantity reads carry
    the requested block tag, aggregate requests carry it unless it is 0 or
    [null] (then none); and an aggregate request holds at most 30 metadata
    sub-calls or at most 20 quantity sub-calls, all of them allowed to
    fail. *)
Theorem run_requests_stay_on_chain_height_and_contracts
    (remote : History -> Request -> Response) (isAddress : string -> bool)
    (decodeAddress : Bytes -> option Address)
    (decodeUint8 : Bytes -> option nat)
    (decodeString : Bytes -> option string)
    (decodeInt256 : Bytes -> option Z) (formatUnits : Z -> nat -> string)
    (fuel : nat) (pmm : Address) (chainId : Z) (tag : BlockTag)
    (t0 t1 : Z) (s s' : Fetcher) (r : Result Report.t)
    (Hrun : listPmmPositions remote isAddress decodeAddress decodeUint8
              decodeString decodeInt256 formatUnits fuel pmm chainId tag
              t0 t1 s = Some (r, s')) :
  exists new,
    trace s' = new ++ trace s /\
    forallb (allowed true chainId (configOf chainId) pmm tag
               (discovered remote fuel chainId tag s)) new = true.
Proof.
  destruct (listPmmPositions_keeps remote isAddress decodeAddress decodeUint8
              decodeString decodeInt256 formatUnits (fun _ => True) true
              chainId) with (7 := Hrun) as (_ & new & Ht & Hn); auto.
  exists new. split; [exact Ht|]. now apply forallb_Forall.
Qed.

Lemma run_requests_stay_on_chain_height_and_contracts_witness :
  exists new,
    trace demoFinal = new ++ trace emptyFetcher /\
    forallb (allowed true 1 (configOf 1) trader None
               (discovered demoRemote 1001 1 None emptyFetcher)) new = true.
Proof.
  exact (run_requests_stay_on_chain_height_and_contracts demoRemote
           demoIsAddress demoDecodeAddress demoDecodeUint8 demoDecodeString
           BigInt format 1001 trader 1 None 1000 1250 emptyFetcher demoFinal
           (Ok (demoReport 250)) demoRun_ok).
Defined.


Lemma connected_pushed chainId s q :
  connected chainId s -> connected chainId (pushed q s).
Proof. exact (fun H => H). Qed.

Lemma connected_provider chainId s t :
  connected chainId s -> isValidChainId chainId = true ->
  connected chainId (mkFetcher (chainId :: providers s) (contracts s) (multicalls s) t).
Proof.
  intros [H1 H2] Hv. split; [now apply wellFormed_provider|apply has_cons].
Qed.

Lemma connected_contract chainId s :
  connected chainId s -> has chainId (providers s) = true ->
  connected chainId (mkFetcher (providers s) (chainId :: contracts s) (multicalls s)
               (trace s)).
Proof. intros [H1 H2] _. split; [now apply wellFormed_contract|exact H2]. Qed.

Lemma connected_multicall chainId s :
  connected chainId s -> has chainId (providers s) = true ->
  connected chainId (mkFetcher (providers s) (contracts s) (chainId :: multicalls s)
               (trace s)).
Proof. intros [H1 H2] _. split; [now apply wellFormed_multicall|exact H2]. Qed.

(** What the first connection of a run does to a well-formed fetcher. *)
Lemma getCreditVaultContract_connects remote chainId s r s1 :
  wellFormed s = true ->
  getCreditVaultContract remote chainId s = (r, s1) ->
  wellFormed s1 = true /\
  exists new, trace s1 = new ++ trace s /\
    (new = [] \/ (new = [ReqBlockNumber chainId] /\
                  has chainId (providers s) = false)) /\
    (forall vault, r = Ok vault -> has chainId (providers s1) = true).
Proof.
  intros Hwf. rewrite getCreditVaultContract_eq.
  assert (Hnil: exists new : History, trace s = new ++ trace s /\
            (new = [] \/ (new = [ReqBlockNumber chainId] /\
                          has chainId (providers s) = false)))
    by (exists []; auto).
  destruct (has chainId (contracts s)) eqn:Ec.
  - pose proof (wellFormed_cached chainId s Hwf (or_introl Ec)) as Hp.
    destruct (getChainConfig chainId); intros [= <- <-];
      (split; [exact Hwf|]); destruct Hnil as (new & H1 & H2); exists new;
      (split; [exact H1|]); (split; [exact H2|]); [auto|intros v [=]].
  - rewrite getProvider_eq.
    destruct (isValidChainId chainId) eqn:Ev; cbn [negb].
    + destruct (valid_config chainId Ev) as (config & Hc & Hz & _).
      rewrite Hc, Hz.
      destruct (has chainId (providers s)) eqn:Ep.
      * intros [= <- <-]. split; [now apply wellFormed_contract|].
        destruct Hnil as (new & H1 & H2); exists new. auto.
      * destruct (numberOf _); intros [= <- <-]; cbn [trace providers pushed].
        -- split.
           ++ apply (wellFormed_contract chainId
                       (mkFetcher (chainId :: providers s) (contracts s)
                          (multicalls s) (ReqBlockNumber chainId :: trace s))).
              ** now apply wellFormed_provider.
              ** apply has_cons.
           ++ exists [ReqBlockNumber chainId]. split; [reflexivity|].
              split; [auto|]. intros _ _. apply has_cons.
        -- split; [exact Hwf|]. exists [ReqBlockNumber chainId].
           split; [reflexivity|]. split; [auto|]. intros v [=].
    + intros [= <- <-]. split; [exact Hwf|].
      destruct Hnil as (new & H1 & H2); exists new.
      split; [exact H1|]. split; [exact H2|]. intros v [=].
Qed.



(** X5. On a well-formed fetcher a run of [listPmmPositions] sends at most
    one liveness probe, and none at all when the provider of the chain is
    already memoised; the fetcher it leaves is well formed again, and after
    a successful run the provider is memoised, so a later run on the same
    fetcher does not probe. *)
Theorem run_probes_the_endpoint_at_most_once
    (remote : History -> Request -> Response) (isAddress : string -> bool)
    (decodeAddress : Bytes -> option Address)
    (decodeUint8 : Bytes -> option nat)
    (decodeString : Bytes -> option string)
    (decodeInt256 : Bytes -> option Z) (formatUnits : Z -> nat -> string)
    (fuel : nat) (pmm : Address) (chainId : Z) (tag : BlockTag)
    (t0 t1 : Z) (s s' : Fetcher) (r : Result Report.t)
    (Hwf : wellFormed s = true)
    (Hrun : listPmmPositions remote isAddress decodeAddress decodeUint8
              decodeString decodeInt256 formatUnits fuel pmm chainId tag
              t0 t1 s = Some (r, s')) :
  exists new,
    trace s' = new ++ trace s /\
    (probes new <= 1)%nat /\
    (has chainId (providers s) = true -> probes new = 0%nat) /\
    wellFormed s' = true /\
    (forall report, r = Ok report -> has chainId (providers s') = true).
Proof.
  assert (Hnil: exists new : History,
    trace s = new ++ trace s /\ (probes new <= 1)%nat /\
    (has chainId (providers s) = true -> probes new = 0%nat) /\
    wellFormed s = true)
    by (exists []; repeat split; auto).
  destruct (isAddress pmm) eqn:Ea.
  2:{ unfold listPmmPositions in Hrun. rewrite Ea in Hrun.
      injection Hrun as <- <-. destruct Hnil as (new & H1 & H2 & H3 & H4).
      exists new. repeat split; auto. intros report [=]. }
  destruct (isValidChainId chainId) eqn:Ev.
  2:{ unfold listPmmPositions in Hrun. rewrite Ea, Ev in Hrun.
      injection Hrun as <- <-. destruct Hnil as (new & H1 & H2 & H3 & H4).
      exists new. repeat split; auto. intros report [=]. }
  destruct (getCreditVaultContract remote chainId s) as [[vault|e] s1] eqn:Ec.
  - destruct (getCreditVaultContract_connects _ _ _ _ _ Hwf Ec)
      as (Hwf1 & new0 & Ht0 & Hnew0 & Hp1).
    specialize (Hp1 vault eq_refl).
    rewrite (listPmmPositions_after_connection _ _ _ _ _ _ _ _ _ _ _ _ _ _
               _ _ Ec Ea Ev) in Hrun.
    destruct (listPmmPositions_keeps remote isAddress decodeAddress
                decodeUint8 decodeString decodeInt256 formatUnits
                (connected chainId) false chainId
                (connected_pushed chainId) (connected_provider chainId)
                (connected_contract chainId) (connected_multicall chainId)
                (or_intror (fun s H => proj2 H))
                fuel pmm tag t0 t1 s1 r s' (conj Hwf1 Hp1) Hrun)
      as ([Hwf' Hp'] & new & Ht & Hn).
    apply allowed_no_probe in Hn.
    exists (new ++ new0). rewrite Ht, Ht0, app_assoc, probes_app, Hn.
    split; [reflexivity|]. split; [|split; [|split; [exact Hwf'|auto]]].
    + destruct Hnew0 as [->|[-> _]]; unfold probes; simpl; lia.
    + intros Hp. destruct Hnew0 as [->|[-> Hp0]]; [reflexivity|congruence].
  - unfold listPmmPositions, getAllLPTokens in Hrun.
    rewrite Ea, Ev, Ec in Hrun. cbn [negb] in Hrun.
    destruct (valid_config chainId Ev) as (config & Hc & _).
    rewrite Hc in Hrun. injection Hrun as <- <-.
    destruct (getCreditVaultContract_connects _ _ _ _ _ Hwf Ec)
      as (Hwf1 & new0 & Ht0 & Hnew0 & _).
    exists new0. split; [exact Ht0|]. split; [|split; [|split]].
    + destruct Hnew0 as [->|[-> _]]; unfold probes; simpl; lia.
    + intros Hp. destruct Hnew0 as [->|[-> Hp0]]; [reflexivity|congruence].
    + exact Hwf1.
    + intros report [=].
Qed.

Lemma run_probes_the_endpoint_at_most_once_witness :
  wellFormed emptyFetcher = true /\
  exists new,
    trace demoFinal = new ++ trace emptyFetcher /\
    (probes new <= 1)%nat /\
    wellFormed demoFinal = true /\
    has 1 (providers demoFinal) = true.
Proof.
  split; [reflexivity|].
  destruct (run_probes_the_endpoint_at_most_once demoRemote demoIsAddress
              demoDecodeAddress demoDecodeUint8 demoDecodeString BigInt
              format 1001 trader 1 None 1000 1250 emptyFetcher demoFinal
              (Ok (demoReport 250)) eq_refl demoRun_ok)
    as (new & H1 & H2 & _ & H4 & H5).
  exists new. split; [exact H1|]. split; [exact H2|]. split; [exact H4|].
  exact (H5 _ eq_refl).
Defined.

(** ** The stages against an arbitrary aggregator *)

Section ShapeProperties.
Variable remote : History -> Request -> Response.
Variable decodeAddress : Bytes -> option Address.
Variable decodeUint8 : Bytes -> option nat.
Variable decodeString : Bytes -> option string.
Variable decodeInt256 : Bytes -> option Z.

Lemma processTriplets_shape : forall batch j results tokenData r tokenData',
  processTriplets decodeAddress decodeUint8 decodeString batch j results
    tokenData = (r, tokenData') ->
  exists entries,
    tokenData' = tokenData ++ entries /\
    Forall2 resolvedFor (take (length entries) batch) entries /\
    (r = Ok tt -> length entries = length batch).
Proof.
  induction batch as [|lp rest IH]; intros j results td r td' H; simpl in H.
  - injection H as <- <-. exists []. rewrite app_nil_r.
    split; [reflexivity|]. split; [constructor|reflexivity].
  - destruct (tripletEntry decodeAddress decodeUint8 decodeString lp j
                results) as [e|err] eqn:Ee.
    + apply IH in H as (es & -> & H2 & H3).
      exists (e :: es). rewrite <- app_assoc. split; [reflexivity|].
      split.
      * simpl. constructor; [eapply tripletEntry_resolved, Ee|exact H2].
      * intros Hr. simpl. now rewrite H3.
    + injection H as <- <-. exists []. rewrite app_nil_r.
      split; [reflexivity|]. split; [constructor|discriminate].
Qed.

Lemma processPositions_shape : forall batch j results positions r positions',
  processPositions decodeInt256 batch j results positions = (r, positions') ->
  exists entries,
    positions' = positions ++ entries /\
    Forall2 quotedFor (take (length entries) batch) entries /\
    (r = Ok tt -> length entries = length batch).
Proof.
  induction batch as [|lp rest IH]; intros j results td r td' H; simpl in H.
  - injection H as <- <-. exists []. rewrite app_nil_r.
    split; [reflexivity|]. split; [constructor|reflexivity].
  - destruct (positionEntry decodeInt256 lp j results) as [e|err] eqn:Ee.
    + apply IH in H as (es & -> & H2 & H3).
      exists (e :: es). rewrite <- app_assoc. split; [reflexivity|].
      split.
      * simpl. constructor; [eapply positionEntry_quoted, Ee|exact H2].
      * intros Hr. simpl. now rewrite H3.
    + injection H as <- <-. exists []. rewrite app_nil_r.
      split; [reflexivity|]. split; [constructor|discriminate].
Qed.

Lemma underlyingBatch_shape chainId multicall tag batch tokenData s :
  exists new s',
    underlyingBatch remote decodeAddress decodeUint8 decodeString chainId
      multicall tag batch tokenData s = (Ok (tokenData ++ new), s') /\
    covers resolvedFor batch new.
Proof.
  unfold underlyingBatch.
  destruct (batchCallWithRetry remote chainId multicall
              (underlyingCalls batch) 1 tag s) as [[results|e] s1].
  - destruct (processTriplets decodeAddress decodeUint8 decodeString batch 0
                results tokenData) as [[[]|e] td'] eqn:Ep;
      apply processTriplets_shape in Ep as (es & -> & H2 & H3).
    + exists es, s1. split; [reflexivity|].
      exists [], es, 0%nat. specialize (H3 eq_refl).
      rewrite H3, firstn_all in H2.
      split; [reflexivity|]. split; [exact H2|constructor].
    + destruct (underlyingFallback_spec remote chainId tag batch
                  (tokenData ++ es) s1) as (fs & s2 & -> & R).
      exists (es ++ fs), s2. rewrite <- app_assoc. split; [reflexivity|].
      exists es, fs, (length es). auto.
  - destruct (underlyingFallback_spec remote chainId tag batch tokenData s1)
      as (fs & s2 & -> & R).
    exists fs, s2. split; [reflexivity|].
    exists [], fs, 0%nat. split; [reflexivity|]. split; [exact R|constructor].
Qed.

Lemma positionsBatch_shape chainId vault multicall trader tag batch
    positions s :
  exists new s',
    positionsBatch remote decodeInt256 chainId vault multicall trader tag
      batch positions s = (Ok (positions ++ new), s') /\
    covers quotedFor batch new.
Proof.
  unfold positionsBatch.
  destruct (batchCallWithRetry remote chainId multicall
              (positionCalls vault trader batch) 1 tag s)
    as [[results|e] s1].
  - destruct (processPositions decodeInt256 batch 0 results positions)
      as [[[]|e] ps'] eqn:Ep;
      apply processPositions_shape in Ep as (es & -> & H2 & H3).
    + exists es, s1. split; [reflexivity|].
      exists [], es, 0%nat. specialize (H3 eq_refl).
      rewrite H3, firstn_all in H2.
      split; [reflexivity|]. split; [exact H2|constructor].
    + destruct (positionsFallback_spec remote chainId trader tag batch
                  (positions ++ es) s1) as (fs & s2 & -> & R & _).
      exists (es ++ fs), s2. rewrite <- app_assoc. split; [reflexivity|].
      exists es, fs, (length es). auto.
  - destruct (positionsFallback_spec remote chainId trader tag batch
                positions s1) as (fs & s2 & -> & R & _).
    exists fs, s2. split; [reflexivity|].
    exists [], fs, 0%nat. split; [reflexivity|]. split; [exact R|constructor].
Qed.

Lemma forBatches_covers {A B} (R : A -> B -> Prop)
    (body : list A -> list B -> M (list B)) :
  (forall batch acc s, exists new s',
      body batch acc s = (Ok (acc ++ new), s') /\ covers R batch new) ->
  forall bs acc s, exists news s',
    forBatches body bs acc s = (Ok (acc ++ concat news), s') /\
    Forall2 (covers R) bs news.
Proof.
  intros Hbody. induction bs as [|batch rest IH]; intros acc s.
  - exists [], s. simpl. rewrite app_nil_r. split; [reflexivity|constructor].
  - destruct (Hbody batch acc s) as (e1 & s1 & H1 & R1).
    destruct (IH (acc ++ e1) s1) as (e2 & s2 & H2 & R2).
    exists (e1 :: e2), s2. split.
    + simpl. unfold bind. rewrite H1, H2. now rewrite app_assoc.
    + now constructor.
Qed.

End ShapeProperties.

(** What [covers] gives for the whole list. *)
Lemma covers_concat {A B} (R : A -> B -> Prop) (key : B -> A) :
  (forall a b, R a b -> key b = a) ->
  forall bs news, Forall2 (covers R) bs news ->
    sublist (concat bs) (map key (concat news)) /\
    Forall (fun b => key b ∈ concat bs /\ R (key b) b) (concat news).
Proof.
  intros Hkey. induction 1 as [|batch new bs news Hc _ IH].
  - split; [constructor|constructor].
  - destruct IH as [IH1 IH2]. destruct Hc as (extra & entries & k & -> & He & Hx).
    assert (Hmap: map key entries = batch).
    { clear -He Hkey. induction He as [|a b l l' Hab _ IH]; [reflexivity|].
      simpl. now rewrite (Hkey a b Hab), IH. }
    assert (Hin: forall l es, Forall2 R l es ->
              Forall (fun b => key b ∈ l /\ R (key b) b) es).
    { clear -Hkey. induction 1 as [|a b l l' Hab _ IH]; [constructor|].
      constructor.
      - rewrite (Hkey a b Hab). split; [left|exact Hab].
      - eapply Forall_impl; [exact IH|].
        intros x [H1 H2]. split; [now right|exact H2]. }
    split.
    + simpl. rewrite !map_app, Hmap, <- app_assoc.
      apply sublist_inserts_l. now apply sublist_app.
    + simpl. rewrite !Forall_app. split; [split|].
      * eapply Forall_impl; [apply (Hin _ _ Hx)|].
        intros x [H1 H2]. split; [|exact H2].
        apply elem_of_app. left.
        eapply elem_of_sublist; [exact H1|apply sublist_take].
      * eapply Forall_impl; [apply (Hin _ _ He)|].
        intros x [H1 H2]. split; [|exact H2]. apply elem_of_app. now left.
      * eapply Forall_impl; [exact IH2|].
        intros x [H1 H2]. split; [|exact H2]. apply elem_of_app. now right.
Qed.

Lemma resolvedFor_key lp e : resolvedFor lp e -> TokenData.lpTokenAddress e = lp.
Proof. now intros [H _]. Qed.

Lemma quotedFor_key token p :
  quotedFor token p -> PositionResult.tokenAddress p = token.
Proof. now intros [H _]. Qed.

Section StageShape.
Variable remote : History -> Request -> Response.
Variable decodeAddress : Bytes -> option Address.
Variable decodeUint8 : Bytes -> option nat.
Variable decodeString : Bytes -> option string.
Variable decodeInt256 : Bytes -> option Z.

Lemma batchGetUnderlyingTokens_shape chainId lps tag s multicall s1 :
  getMulticall remote chainId s = (Ok multicall, s1) ->
  exists tokenData s',
    batchGetUnderlyingTokens remote decodeAddress decodeUint8 decodeString
      chainId lps tag s = (Ok tokenData, s') /\
    sublist lps (map TokenData.lpTokenAddress tokenData) /\
    Forall (fun e => TokenData.lpTokenAddress e ∈ lps /\
                     resolvedFor (TokenData.lpTokenAddress e) e) tokenData.
Proof.
  intros Hm. unfold batchGetUnderlyingTokens, bind. rewrite Hm.
  destruct (forBatches_covers resolvedFor
              (underlyingBatch remote decodeAddress decodeUint8 decodeString
                 chainId multicall tag)
              (underlyingBatch_shape remote decodeAddress decodeUint8
                 decodeString chainId multicall tag)
              (batches 10 lps) [] s1) as (news & s2 & H & R).
  rewrite H. simpl. eexists _, _. split; [reflexivity|].
  apply (covers_concat _ TokenData.lpTokenAddress resolvedFor_key) in R.
  now rewrite concat_batches in R by lia.
Qed.

Lemma batchGetPositions_shape chainId trader tokens tag s vault s1
    multicall s2 :
  getCreditVaultContract remote chainId s = (Ok vault, s1) ->
  getMulticall remote chainId s1 = (Ok multicall, s2) ->
  exists positions s',
    batchGetPositions remote decodeInt256 chainId trader tokens tag s
      = (Ok positions, s') /\
    sublist tokens (map PositionResult.tokenAddress positions) /\
    Forall (fun p => PositionResult.tokenAddress p ∈ tokens /\
                     quotedFor (PositionResult.tokenAddress p) p) positions.
Proof.
  intros Hv Hm. unfold batchGetPositions, bind. rewrite Hv, Hm.
  destruct (forBatches_covers quotedFor
              (positionsBatch remote decodeInt256 chainId vault multicall
                 trader tag)
              (positionsBatch_shape remote decodeInt256 chainId vault
                 multicall trader tag)
              (batches 20 tokens) [] s2) as (news & s3 & H & R).
  rewrite H. simpl. eexists _, _. split; [reflexivity|].
  apply (covers_concat _ PositionResult.tokenAddress quotedFor_key) in R.
  now rewrite concat_batches in R by lia.
Qed.

End StageShape.

(** X9. Whatever the aggregator answers (too few results, too many, none),
    a stage never drops an item once its connections are there: the stage
    returns, the items it was given are, in order, a subsequence of the
    items of its entries, so its output is at least as long as its input,
    and every entry is a metadata entry (a quantity entry) of the item it
    names. *)
Theorem stages_never_drop_an_item
    (remote : History -> Request -> Response)
    (decodeAddress : Bytes -> option Address)
    (decodeUint8 : Bytes -> option nat)
    (decodeString : Bytes -> option string)
    (decodeInt256 : Bytes -> option Z) (chainId : Z) (tag : BlockTag)
    (s : Fetcher) :
  (forall lps multicall s1,
     getMulticall remote chainId s = (Ok multicall, s1) ->
     exists tokenData s',
       batchGetUnderlyingTokens remote decodeAddress decodeUint8
         decodeString chainId lps tag s = (Ok tokenData, s') /\
       sublist lps (map TokenData.lpTokenAddress tokenData) /\
       (length lps <= length tokenData)%nat /\
       Forall (fun e => TokenData.lpTokenAddress e ∈ lps /\
                        resolvedFor (TokenData.lpTokenAddress e) e)
         tokenData) /\
  (forall trader tokens vault s1 multicall s2,
     getCreditVaultContract remote chainId s = (Ok vault, s1) ->
     getMulticall remote chainId s1 = (Ok multicall, s2) ->
     exists positions s',
       batchGetPositions remote decodeInt256 chainId trader tokens tag s
         = (Ok positions, s') /\
       sublist tokens (map PositionResult.tokenAddress positions) /\
       (length tokens <= length positions)%nat /\
       Forall (fun p => PositionResult.tokenAddress p ∈ tokens /\
                        quotedFor (PositionResult.tokenAddress p) p)
         positions).
Proof.
  split.
  - intros lps multicall s1 Hm.
    destruct (batchGetUnderlyingTokens_shape remote decodeAddress decodeUint8
                decodeString chainId lps tag s multicall s1 Hm)
      as (td & s' & H1 & H2 & H3).
    exists td, s'. split; [exact H1|]. split; [exact H2|]. split; [|exact H3].
    apply sublist_length in H2. now rewrite length_map in H2.
  - intros trader tokens vault s1 multicall s2 Hv Hm.
    destruct (batchGetPositions_shape remote decodeInt256 chainId trader
                tokens tag s vault s1 multicall s2 Hv Hm)
      as (prs & s' & H1 & H2 & H3).
    exists prs, s'. split; [exact H1|]. split; [exact H2|]. split; [|exact H3].
    apply sublist_length in H2. now rewrite length_map in H2.
Qed.

Lemma stages_never_drop_an_item_witness :
  exists multicall s1 tokenData s',
    getMulticall shortAggregator 1 emptyFetcher = (Ok multicall, s1) /\
    batchGetUnderlyingTokens shortAggregator demoDecodeAddress
      demoDecodeUint8 demoDecodeString 1 [lpA; lpB] None emptyFetcher
      = (Ok tokenData, s') /\
    sublist [lpA; lpB] (map TokenData.lpTokenAddress tokenData) /\
    (length [lpA; lpB] <= length tokenData)%nat.
Proof.
  eexists _, _.
  assert (Hm: getMulticall shortAggregator 1 emptyFetcher
              = (Ok multicall3Default,
                 snd (getMulticall shortAggregator 1 emptyFetcher)))
    by (vm_compute; reflexivity).
  destruct (proj1 (stages_never_drop_an_item shortAggregator
                     demoDecodeAddress demoDecodeUint8 demoDecodeString
                     BigInt 1 None emptyFetcher) [lpA; lpB] _ _ Hm)
    as (td & s' & H1 & H2 & H3 & _).
  exists td, s'. split; [exact Hm|]. split; [exact H1|].
  split; [exact H2|exact H3].
Defined.

(** ** The entries of the report *)

Section JoinProperties.
Variable formatUnits : Z -> nat -> string.

Lemma joinEntry_quoted t p token :
  quotedFor token p ->
  joinEntry formatUnits t (Some p) = Ok (reported formatUnits t p).
Proof.
  intros [_ Hq]. unfold joinEntry, reported, quantityOf.
  destruct (PositionResult.success p); [|reflexivity].
  destruct Hq as [z Hz]. rewrite Hz, BigInt_toString. simpl.
  destruct (Z.eqb_spec z 0) as [->|Hnz].
  - reflexivity.
  - assert (Hne: strictNe (toString z) "0" = true).
    { apply strictNe_true. intros H. now apply toString_zero in H. }
    rewrite Hne. reflexivity.
Qed.

Lemma joinLoop_entries : forall td i prs acc,
  (i + length td <= length prs)%nat ->
  Forall (fun p => quotedFor (PositionResult.tokenAddress p) p) prs ->
  exists new,
    joinLoop formatUnits td i prs acc = Ok (acc ++ new) /\
    (length new <= length td)%nat /\
    Forall (fun e => exists t z, t ∈ td /\ z <> 0 /\
                       e = entryOf formatUnits t z) new.
Proof.
  induction td as [|t td IH]; intros i prs acc Hlen Hq.
  - exists []. simpl. rewrite app_nil_r. split; [reflexivity|].
    split; [lia|constructor].
  - cbn [joinLoop length] in *.
    destruct (lookup_lt_is_Some_2 prs i) as [p Hp]; [lia|].
    rewrite Hp.
    rewrite Forall_lookup in Hq. pose proof (Hq i p Hp) as Hqp.
    rewrite (joinEntry_quoted t p _ Hqp).
    assert (Hrest: forall acc', exists new,
              joinLoop formatUnits td (S i) prs acc' = Ok (acc' ++ new) /\
              (length new <= length td)%nat /\
              Forall (fun e => exists t' z, t' ∈ t :: td /\ z <> 0 /\
                                 e = entryOf formatUnits t' z) new).
    { intros acc'. destruct (IH (S i) prs acc') as (new & H1 & H2 & H3);
        [lia|now apply Forall_lookup|].
      exists new. split; [exact H1|]. split; [exact H2|].
      eapply Forall_impl; [exact H3|].
      intros e (t' & z & Ht & Hz & He). exists t', z.
      split; [now right|auto]. }
    unfold reported. destruct (quantityOf p) as [z|].
    + destruct (Z.eqb_spec z 0) as [->|Hnz].
      * destruct (Hrest acc) as (new & H1 & H2 & H3).
        exists new. split; [exact H1|]. split; [lia|exact H3].
      * destruct (Hrest (acc ++ [entryOf formatUnits t z]))
          as (new & H1 & H2 & H3).
        exists (entryOf formatUnits t z :: new).
        rewrite H1, <- app_assoc. split; [reflexivity|].
        split; [simpl; lia|]. constructor; [|exact H3].
        exists t, z. split; [left|auto].
    + destruct (Hrest acc) as (new & H1 & H2 & H3).
      exists new. split; [exact H1|]. split; [lia|exact H3].
Qed.

Lemma entryOf_wellFormed lps t z :
  TokenData.lpTokenAddress t ∈ lps ->
  resolvedFor (TokenData.lpTokenAddress t) t -> z <> 0 ->
  wellFormedEntry formatUnits lps (entryOf formatUnits t z).
Proof.
  intros Hin Hr Hz. split; [exists z; auto|]. split.
  - now rewrite (itemOf_entryOf formatUnits _ t z Hr).
  - destruct Hr as [_ [Hf|[Hd Hnz]]]; unfold entryOf; simpl.
    + rewrite Hf. simpl. auto.
    + now rewrite Hd.
Qed.

End JoinProperties.

(** X10. Every entry of a report is well formed, whatever the aggregator
    answered: its [position] is the decimal rendering of a non-zero
    quantity and [positionFormatted] is that quantity formatted at the
    entry's [decimals]; the item it stands for was discovered in this run;
    a derived entry names a token that is not the zero address, and an
    entry without [lpTokenAddress] has the symbol ["LP"] and 18 decimals.
    [tokensWithPositions] is the number of entries and never exceeds
    [totalTokens], which is never below the number of discovered items. *)
Theorem report_entries_are_well_formed
    (remote : History -> Request -> Response) (isAddress : string -> bool)
    (decodeAddress : Bytes -> option Address)
    (decodeUint8 : Bytes -> option nat)
    (decodeString : Bytes -> option string)
    (decodeInt256 : Bytes -> option Z) (formatUnits : Z -> nat -> string)
    (fuel : nat) (pmm : Address) (chainId : Z) (tag : BlockTag)
    (t0 t1 : Z) (s s' : Fetcher) (report : Report.t)
    (Hrun : listPmmPositions remote isAddress decodeAddress decodeUint8
              decodeString decodeInt256 formatUnits fuel pmm chainId tag
              t0 t1 s = Some (Ok report, s')) :
  Forall (wellFormedEntry formatUnits (discovered remote fuel chainId tag s))
    (Report.positions report) /\
  Summary.tokensWithPositions (Report.summary report)
    = length (Report.positions report) /\
  (Summary.tokensWithPositions (Report.summary report)
   <= Summary.totalTokens (Report.summary report))%nat /\
  (length (discovered remote fuel chainId tag s)
   <= Summary.totalTokens (Report.summary report))%nat.
Proof.
  destruct (listPmmPositions_inv _ _ _ _ _ _ _ _ _ _ _ _ _ _ _ _ Hrun)
    as (config & _ & [[Hscan ->]|(lps & td & prs & positions & _ & Hst & Hj
                                  & ->)]).
  - unfold discovered. rewrite Hscan. simpl.
    split; [constructor|]. split; [reflexivity|]. split; lia.
  - destruct Hst as (s1 & s2 & Hscan & H2 & H3).
    unfold discovered. rewrite Hscan. cbn [Report.positions Report.summary
      Summary.tokensWithPositions Summary.totalTokens].
    assert (Htd: sublist lps (map TokenData.lpTokenAddress td) /\
                 Forall (fun e => TokenData.lpTokenAddress e ∈ lps /\
                           resolvedFor (TokenData.lpTokenAddress e) e) td).
    { destruct (getMulticall remote chainId s1) as [[mc|e] sa] eqn:Em.
      - destruct (batchGetUnderlyingTokens_shape remote decodeAddress
                    decodeUint8 decodeString chainId lps tag s1 mc sa Em)
          as (td' & s'' & E & R1 & R2).
        rewrite H2 in E. injection E as <- <-. auto.
      - unfold batchGetUnderlyingTokens, bind in H2. rewrite Em in H2.
        discriminate. }
    assert (Hprs: sublist (map TokenData.underlyingAddress td)
                    (map PositionResult.tokenAddress prs) /\
                  Forall (fun p => quotedFor (PositionResult.tokenAddress p) p)
                    prs).
    { destruct (getCreditVaultContract remote chainId s2) as [[v|e] sa] eqn:Ev.
      - destruct (getMulticall remote chainId sa) as [[mc|e] sb] eqn:Em.
        + destruct (batchGetPositions_shape remote decodeInt256 chainId pmm
                      (map TokenData.underlyingAddress td) tag s2 v sa mc sb
                      Ev Em) as (prs' & s'' & E & R1 & R2).
          rewrite H3 in E. injection E as <- <-. split; [exact R1|].
          eapply Forall_impl; [exact R2|]. now intros p [_ H].
        + unfold batchGetPositions, bind in H3. rewrite Ev, Em in H3.
          discriminate.
      - unfold batchGetPositions, bind in H3. rewrite Ev in H3.
        discriminate. }
    destruct Htd as [Hs2 Hf2]. destruct Hprs as [Hs3 Hf3].
    apply sublist_length in Hs2, Hs3. rewrite !length_map in *.
    destruct (joinLoop_entries formatUnits td 0 prs [] ltac:(simpl; lia) Hf3)
      as (new & E & Hlen & Hnew).
    rewrite Hj in E. injection E as ->. simpl in *.
    split; [|split; [reflexivity|split; [exact Hlen|exact Hs2]]].
    eapply Forall_impl; [exact Hnew|].
    intros e (t & z & Ht & Hz & ->).
    rewrite Forall_forall in Hf2. destruct (Hf2 t Ht) as [Hin Hr].
    now apply entryOf_wellFormed.
Qed.

Lemma report_entries_are_well_formed_witness :
  Forall (wellFormedEntry format
            (discovered demoRemote 1001 1 None emptyFetcher))
    (Report.positions (demoReport 250)).
Proof.
  exact (proj1 (report_entries_are_well_formed demoRemote demoIsAddress
                  demoDecodeAddress demoDecodeUint8 demoDecodeString BigInt
                  format 1001 trader 1 None 1000 1250 emptyFetcher demoFinal
                  (demoReport 250) demoRun_ok)).
Defined.

(** ** When a run fails *)

Section Robustness.
Variable remote : History -> Request -> Response.
Variable isAddress : string -> bool.
Variable decodeAddress : Bytes -> option Address.
Variable decodeUint8 : Bytes -> option nat.
Variable decodeString : Bytes -> option string.
Variable decodeInt256 : Bytes -> option Z.
Variable formatUnits : Z -> nat -> string.
Variable chainId : Z.
Hypothesis Hvalid : isValidChainId chainId = true.





End Robustness.



(** X4. The memo maps of the fetcher stay consistent: on a new fetcher,
    after [cleanup], and after every public method started on a well-formed
    fetcher, every memoised provider belongs to a supported chain and every
    chain with a memoised contract or aggregator has a memoised provider;
    hence, on a well-formed fetcher, [getProvider] for a chain with a
    memoised contract or aggregator returns at once. *)
Theorem memo_maps_stay_consistent
    (remote : History -> Request -> Response) (isAddress : string -> bool)
    (decodeAddress : Bytes -> option Address)
    (decodeUint8 : Bytes -> option nat)
    (decodeString : Bytes -> option string)
    (decodeInt256 : Bytes -> option Z) (formatUnits : Z -> nat -> string) :
  wellFormed emptyFetcher = true /\
  (forall s, wellFormed (snd (cleanup s)) = true) /\
  forall chainId s, wellFormed s = true ->
    (has chainId (contracts s) = true \/ has chainId (multicalls s) = true ->
     getProvider remote chainId s = (Ok tt, s)) /\
    wellFormed (snd (getProvider remote chainId s)) = true /\
    wellFormed (snd (getCreditVaultContract remote chainId s)) = true /\
    wellFormed (snd (getMulticall remote chainId s)) = true /\
    wellFormed (snd (getCurrentBlock remote chainId s)) = true /\
    (forall lp tag,
       wellFormed (snd (getUnderlyingToken remote chainId lp tag s)) = true) /\
    (forall trader token tag,
       wellFormed (snd (getPosition remote chainId trader token tag s))
       = true) /\
    (forall lps tag,
       wellFormed (snd (batchGetUnderlyingTokens remote decodeAddress
                          decodeUint8 decodeString chainId lps tag s))
       = true) /\
    (forall trader tokens tag,
       wellFormed (snd (batchGetPositions remote decodeInt256 chainId trader
                          tokens tag s)) = true) /\
    (forall fuel tag r s',
       getAllLPTokens remote fuel chainId tag s = Some (r, s') ->
       wellFormed s' = true) /\
    (forall fuel pmm tag t0 t1 r s',
       listPmmPositions remote isAddress decodeAddress decodeUint8
         decodeString decodeInt256 formatUnits fuel pmm chainId tag t0 t1 s
       = Some (r, s') ->
       wellFormed s' = true).
Proof.
  split; [reflexivity|]. split; [reflexivity|].
  intros chainId s Hwf.
  pose (I := fun s => wellFormed s = true).
  assert (Hpush: forall s q, I s -> I (pushed q s)) by (intros; assumption).
  assert (Hprov: forall s t, I s -> isValidChainId chainId = true ->
            I (mkFetcher (chainId :: providers s) (contracts s)
                 (multicalls s) t))
    by (intros; now apply wellFormed_provider).
  assert (Hcon: forall s, I s -> has chainId (providers s) = true ->
            I (mkFetcher (providers s) (chainId :: contracts s)
                 (multicalls s) (trace s)))
    by (intros; now apply wellFormed_contract).
  assert (Hmul: forall s, I s -> has chainId (providers s) = true ->
            I (mkFetcher (providers s) (contracts s)
                 (chainId :: multicalls s) (trace s)))
    by (intros; now apply wellFormed_multicall).
  assert (Hprobe: true = true \/
                  forall s, I s -> has chainId (providers s) = true)
    by now left.
  pose proof (fun pmm tag lps =>
                Keeps_getProvider_here remote I true chainId pmm tag lps
                  Hpush Hprov Hprobe) as Kp.
  repeat split.
  - intros Hc.
    pose proof (wellFormed_cached chainId s Hwf Hc) as Hp.
    rewrite getProvider_eq, (wellFormed_valid chainId s Hwf Hp), Hp.
    reflexivity.
  - apply (Kp "" None [] s Hwf).
  - apply (Keeps_getCreditVaultContract_here remote I true chainId "" None []
             Hpush Hprov Hcon Hprobe s Hwf).
  - apply (Keeps_getMulticall_here remote I true chainId "" None []
             Hpush Hprov Hmul Hprobe s Hwf).
  - apply (Keeps_getCurrentBlock remote I true chainId (configOf chainId) ""
             None [] Hpush (Kp "" None []) eq_refl s Hwf).
  - intros lp tag.
    apply (getUnderlyingToken_keeps remote I true chainId Hpush Hprov Hprobe
             "" lp tag s Hwf).
  - intros trader token tag.
    apply (getPosition_keeps remote I true chainId Hpush Hprov Hcon Hprobe
             trader [] token tag s Hwf).
  - intros lps tag.
    apply (batchGetUnderlyingTokens_keeps remote decodeAddress decodeUint8
             decodeString I true chainId Hpush Hprov Hmul Hprobe "" lps tag
             s Hwf).
  - intros trader tokens tag.
    apply (batchGetPositions_keeps remote decodeInt256 I true chainId Hpush
             Hprov Hcon Hmul Hprobe trader [] tokens tag s Hwf).
  - intros fuel tag r s' H.
    apply (getAllLPTokens_keeps remote I true chainId Hpush Hprov Hcon Hprobe
             "" [] fuel tag s r s' Hwf H).
  - intros fuel pmm tag t0 t1 r s' H.
    apply (listPmmPositions_keeps remote isAddress decodeAddress decodeUint8
             decodeString decodeInt256 formatUnits I true chainId Hpush Hprov
             Hcon Hmul Hprobe fuel pmm tag t0 t1 s r s' Hwf H).
Qed.

Lemma memo_maps_stay_consistent_witness :
  wellFormed emptyFetcher = true /\ wellFormed demoFinal = true.
Proof.
  split; [reflexivity|].
  destruct (memo_maps_stay_consistent demoRemote demoIsAddress
              demoDecodeAddress demoDecodeUint8 demoDecodeString BigInt
              format) as (H0 & _ & H).
  destruct (H 1 emptyFetcher H0) as (_ & _ & _ & _ & _ & _ & _ & _ & _ & _ & Hrun).
  exact (Hrun 1001%nat trader None 1000 1250 _ _ demoRun_ok).
Defined.

(** X6. [cleanup] gives the fetcher back its initial behaviour: against a
    remote whose state does not change, a run on a cleaned-up fetcher
    returns exactly what the same run returns on a new fetcher, and the
    first connection to a supported chain after [cleanup] probes the
    endpoint again. *)
Theorem cleanup_restores_a_new_fetcher
    (remote : History -> Request -> Response) (isAddress : string -> bool)
    (decodeAddress : Bytes -> option Address)
    (decodeUint8 : Bytes -> option nat)
    (decodeString : Bytes -> option string)
    (decodeInt256 : Bytes -> option Z) (formatUnits : Z -> nat -> string)
    (Hstateless : stateless remote)
    (fuel : nat) (pmm : Address) (chainId : Z) (tag : BlockTag)
    (t0 t1 : Z) (s : Fetcher) :
  option_map fst
    (listPmmPositions remote isAddress decodeAddress decodeUint8
       decodeString decodeInt256 formatUnits fuel pmm chainId tag t0 t1
       (snd (cleanup s)))
  = option_map fst
      (listPmmPositions remote isAddress decodeAddress decodeUint8
         decodeString decodeInt256 formatUnits fuel pmm chainId tag t0 t1
         emptyFetcher) /\
  (isValidChainId chainId = true ->
   trace (snd (getProvider remote chainId (snd (cleanup s))))
   = ReqBlockNumber chainId :: trace s).
Proof.
  split.
  - apply (GoodO_listPmmPositions remote Hstateless chainId decodeAddress
             decodeUint8 decodeString decodeInt256 isAddress formatUnits
             fuel pmm tag t0 t1).
    now apply conn_flags.
  - intros Hv. rewrite getProvider_eq, Hv. cbn [negb cleanup snd providers].
    destruct (valid_config chainId Hv) as (config & -> & _).
    change (has chainId []) with false. cbn iota.
    destruct (numberOf _); reflexivity.
Qed.

Lemma cleanup_restores_a_new_fetcher_witness :
  stateless demoRemote /\
  option_map fst (pinnedRun 1000 1250 (snd (cleanup pinnedFinal)))
  = Some (Ok (pinnedReport 250)).
Proof.
  split; [exact demoRemote_stateless|].
  etransitivity.
  - exact (proj1 (cleanup_restores_a_new_fetcher demoRemote demoIsAddress
                    demoDecodeAddress demoDecodeUint8 demoDecodeString BigInt
                    format demoRemote_stateless 1001 trader 1
                    (Some 19000000) 1000 1250 pinnedFinal)).
  - change (option_map fst (pinnedRun 1000 1250 emptyFetcher)
            = Some (Ok (pinnedReport 250))).
    now rewrite pinnedRun_first.
Defined.

(** ** The requests of the batch executor *)

Lemma retryLoop_S remote n chainId multicall calls tag results s :
  retryLoop remote (S n) chainId multicall calls tag results s =
  match failedCalls calls 0 results with
  | Err e => (Err e, s)
  | Ok failed =>
      if (length failed =? 0)%nat then (Ok results, s)
      else
        match mapM snd failed with
        | None => (Err typeError, s)
        | Some resent =>
            match batchCall remote chainId multicall resent tag s with
            | (Ok rr, s1) =>
                retryLoop remote n chainId multicall calls tag
                  (overwrite failed 0 rr results) s1
            | (Err e, s1) => (Err e, s1)
            end
        end
  end.
Proof.
  cbn [retryLoop]. unfold bind, liftResult, retryCalls, ret, throw.
  destruct (failedCalls calls 0 results) as [failed|e]; [|reflexivity].
  destruct (length failed =? 0)%nat; [reflexivity|].
  destruct (mapM snd failed); reflexivity.
Qed.

Lemma retryLoop_requests remote chainId multicall calls tag :
  forall n results s, exists retries,
    trace (snd (retryLoop remote n chainId multicall calls tag results s))
    = retries ++ trace s /\
    (length retries <= n)%nat /\
    Forall (fun q => exists resent,
              q = ReqAggregate3 chainId multicall resent (truthyBlock tag) /\
              sublist resent calls /\ resent <> []) retries /\
    sameMemo s (snd (retryLoop remote n chainId multicall calls tag results
                       s)).
Proof.
  induction n as [|n IH]; intros results s.
  - exists []. simpl. repeat split; [lia|constructor].
  - assert (Hnone: exists retries : History,
              trace s = retries ++ trace s /\
              (length retries <= S n)%nat /\
              Forall (fun q => exists resent,
                        q = ReqAggregate3 chainId multicall resent
                              (truthyBlock tag) /\
                        sublist resent calls /\ resent <> []) retries /\
              sameMemo s s)
      by (exists []; simpl; repeat split; [lia|constructor]).
    rewrite retryLoop_S.
    destruct (failedCalls calls 0 results) as [failed|e] eqn:Ef;
      [|exact Hnone].
    destruct (length failed =? 0)%nat eqn:El; [exact Hnone|].
    apply Nat.eqb_neq in El.
    destruct (mapM snd failed) as [resent|] eqn:Em; [|exact Hnone].
    pose proof (failedCalls_sublist calls results 0 failed resent Ef Em)
      as Hsub. rewrite drop_0 in Hsub.
    assert (Hne: resent <> []).
    { intros ->. apply mapM_snd_length in Em. simpl in Em. lia. }
    destruct (batchCall remote chainId multicall resent tag s)
      as [[rr|e] s1] eqn:Eb;
      pose proof (batchCall_sent _ _ _ _ _ _ _ _ Eb) as Hs;
      unfold sent in Hs.
    + destruct (IH (overwrite failed 0 rr results) s1)
        as (retries & Ht & Hl & Hf & Hm).
      exists (retries ++ [ReqAggregate3 chainId multicall resent
                            (truthyBlock tag)]).
      rewrite Ht, Hs. cbn [trace]. rewrite <- app_assoc.
      split; [reflexivity|]. split; [rewrite length_app; simpl; lia|].
      split.
      * apply Forall_app. split; [exact Hf|]. constructor; [|constructor].
        eauto.
      * destruct Hm as (H1 & H2 & H3). rewrite Hs in H1, H2, H3.
        repeat split; assumption.
    + exists [ReqAggregate3 chainId multicall resent (truthyBlock tag)].
      cbn [snd]. rewrite Hs. cbn [trace].
      split; [reflexivity|]. split; [simpl; lia|]. split.
      * constructor; [|constructor]. eauto.
      * repeat split.
Qed.

(** X8. Whatever the aggregator answers, [batchCallWithRetry] first sends
    the whole call list and then at most [maxRetries] further aggregate
    requests, to the same aggregator at the same height; each of them
    resends a non-empty sub-list of the original calls, in their original
    order, so no retry is larger than the first request or contains a call
    that was not in it.  The memo maps are untouched. *)
Theorem retries_resend_sub_lists_of_the_batch
    (remote : History -> Request -> Response) (chainId : Z)
    (multicall : Address) (calls : list Call) (maxRetries : nat)
    (tag : BlockTag) (s : Fetcher) :
  exists retries,
    trace (snd (batchCallWithRetry remote chainId multicall calls maxRetries
                  tag s))
    = retries ++ ReqAggregate3 chainId multicall calls (truthyBlock tag)
                 :: trace s /\
    (length retries <= maxRetries)%nat /\
    Forall (fun q => exists resent,
              q = ReqAggregate3 chainId multicall resent (truthyBlock tag) /\
              sublist resent calls /\ resent <> []) retries /\
    sameMemo s (snd (batchCallWithRetry remote chainId multicall calls
                       maxRetries tag s)).
Proof.
  unfold batchCallWithRetry, bind.
  destruct (batchCall remote chainId multicall calls tag s)
    as [[r0|e] s0] eqn:Eb;
    pose proof (batchCall_sent _ _ _ _ _ _ _ _ Eb) as Hs; unfold sent in Hs.
  - destruct (retryLoop_requests remote chainId multicall calls tag
                maxRetries (map Some r0) s0) as (retries & Ht & Hl & Hf & Hm).
    exists retries. rewrite Ht, Hs. cbn [trace].
    split; [reflexivity|]. split; [exact Hl|]. split; [exact Hf|].
    destruct Hm as (H1 & H2 & H3). rewrite Hs in H1, H2, H3.
    repeat split; assumption.
  - exists []. cbn [snd]. rewrite Hs. cbn [trace app].
    split; [reflexivity|]. split; [simpl; lia|]. split; [constructor|].
    repeat split.
Qed.

(** ** Decoding a batch *)




(** ** The quantity entries of an answered batch *)

Lemma processPositions_lookup decodeInt256 :
  forall batch j results positions,
    (forall k, (k < length batch)%nat -> is_Some (at_ results (j + k))) ->
    exists entries,
      processPositions decodeInt256 batch j results positions
        = (Ok tt, positions ++ entries) /\
      length entries = length batch /\
      forall k token, batch !! k = Some token ->
        exists e, entries !! k = Some e /\
          positionEntry decodeInt256 token (j + k) results = Ok e.
Proof.
  induction batch as [|token rest IH]; intros j results positions H.
  - exists []. simpl. rewrite app_nil_r. split; [reflexivity|].
    split; [reflexivity|]. intros k t [=].
  - assert (He: exists e, positionEntry decodeInt256 token j results = Ok e).
    { unfold positionEntry. destruct (H 0%nat) as [r Hr]; [simpl; lia|].
      rewrite Nat.add_0_r in Hr. rewrite Hr.
      destruct (CallResult.success r); [|eauto].
      destruct (decodeInt256 _); eauto. }
    destruct He as [e He].
    destruct (IH (S j) results (positions ++ [e])) as (es & H1 & H2 & H3).
    { intros k Hk. replace (S j + k)%nat with (j + S k)%nat by lia.
      apply H. simpl. lia. }
    exists (e :: es). simpl. rewrite He, H1, <- app_assoc.
    split; [reflexivity|]. split; [now rewrite H2|].
    intros [|k] t Hk; simpl in Hk.
    + injection Hk as <-. exists e. rewrite Nat.add_0_r. auto.
    + destruct (H3 k t Hk) as (e' & Hk' & He').
      exists e'. split; [exact Hk'|].
      now replace (j + S k)%nat with (S j + k)%nat by lia.
Qed.

(** X13. When the aggregate request of a quantity batch is answered (one
    result per call), the batch appends exactly one entry per token, in
    order, and the entry of token [j] follows from result [j] alone: it is
    successful exactly when the sub-call succeeded and its data decoded as
    an [int256], and then its [position] is the decimal rendering of the
    decoded quantity; a failed sub-call gives [{ position: "0",
    success: false, error: "Call failed" }]; every unsuccessful entry has
    position ["0"]. *)
Theorem quantity_entries_follow_their_sub_results
    (remote : History -> Request -> Response)
    (decodeInt256 : Bytes -> option Z)
    (Haligned : alignedAggregator remote)
    (chainId : Z) (vault multicall trader : Address) (tag : BlockTag)
    (batch : list Address) (positions : list PositionResult.t)
    (s s1 : Fetcher) (results : list (Slot CallResult.t))
    (Hbatch : batchCallWithRetry remote chainId multicall
                (positionCalls vault trader batch) 1 tag s
              = (Ok results, s1)) :
  exists entries,
    positionsBatch remote decodeInt256 chainId vault multicall trader tag
      batch positions s = (Ok (positions ++ entries), s1) /\
    length entries = length batch /\
    forall j token, batch !! j = Some token ->
      exists r e,
        results !! j = Some (Some r) /\ entries !! j = Some e /\
        PositionResult.tokenAddress e = token /\
        (PositionResult.success e = true <->
         CallResult.success r = true /\
         exists z, decodeInt256 (CallResult.data r) = Some z) /\
        (forall z, CallResult.success r = true ->
           decodeInt256 (CallResult.data r) = Some z ->
           e = PositionResult.mk token (toString z) true None) /\
        (CallResult.success r = false ->
         e = PositionResult.mk token "0" false (Some "Call failed")) /\
        (PositionResult.success e = false -> PositionResult.position e = "0").
Proof.
  pose proof (batchCallWithRetry_complete _ _ _ _ _ _ _ _ _ Haligned Hbatch)
    as Hc.
  destruct (processPositions_lookup decodeInt256 batch 0 results positions)
    as (es & H1 & H2 & H3).
  { intros k Hk. apply (complete_at _ _ _ Hc).
    rewrite length_positionCalls. simpl. lia. }
  exists es. unfold positionsBatch. rewrite Hbatch, H1.
  split; [reflexivity|]. split; [exact H2|].
  intros j token Hj. destruct (H3 j token Hj) as (e & He & Hp).
  simpl in Hp. unfold positionEntry, at_ in Hp.
  destruct (results !! j) as [[r|]|] eqn:Er; simpl in Hp; try discriminate.
  exists r, e. split; [reflexivity|]. split; [exact He|].
  destruct (CallResult.success r).
  - destruct (decodeInt256 (CallResult.data r)) as [z|];
      injection Hp as <-; simpl.
    + split; [reflexivity|]. split; [split; eauto|].
      split; [now intros z' _ [= <-]|]. split; discriminate.
    + split; [reflexivity|]. split.
      * split; [discriminate|now intros [_ [z [=]]]].
      * split; [discriminate|]. split; [discriminate|reflexivity].
  - injection Hp as <-. simpl. split; [reflexivity|]. split.
    + split; [discriminate|now intros [[=] _]].
    + split; [discriminate|]. split; reflexivity.
Qed.

Lemma quantity_entries_follow_their_sub_results_witness :
  alignedAggregator demoRemote /\
  fst (positionsBatch demoRemote BigInt 1 vaultEth multicall3Default trader
         None [tokenA; lpB; lpC] [] emptyFetcher)
  = Ok [PositionResult.mk tokenA "-1500" true None;
        PositionResult.mk lpB "0" true None;
        PositionResult.mk lpC "0" false (Some "Call failed")].
Proof.
  split; [exact demoRemote_aligned|].
  destruct (quantity_entries_follow_their_sub_results demoRemote BigInt
              demoRemote_aligned 1 vaultEth multicall3Default trader None
              [tokenA; lpB; lpC] [] emptyFetcher
              (snd (batchCallWithRetry demoRemote 1 multicall3Default
                      (positionCalls vaultEth trader [tokenA; lpB; lpC]) 1
                      None emptyFetcher))
              _ ltac:(vm_compute; reflexivity)) as (es & H1 & _).
  rewrite H1. vm_compute in H1. now injection H1 as <-.
Defined.

(** ** The single reads *)



(** * Properties of the browser build *)

Section WebConnections.
Variable remote : History -> Request -> Response.
Variable chainId : Z.
Variable config : ChainConfig.
Hypothesis Hconfig : CHAIN_CONFIGS chainId = Some config.

Lemma web_getProvider s :
  exists s1, Web.getProvider chainId s = (Ok tt, s1) /\ trace s1 = trace s.
Proof.
  unfold Web.getProvider, bind, get. cbn beta iota.
  destruct (has chainId (providers s)); [now exists s|].
  rewrite Hconfig. eexists. split; reflexivity.
Qed.

Lemma web_getCreditVaultContract s :
  exists s1,
    Web.getCreditVaultContract chainId s = (Ok (creditVaultAddress config), s1)
    /\ trace s1 = trace s.
Proof.
  unfold Web.getCreditVaultContract, bind.
  destruct (web_getProvider s) as (s1 & -> & Ht). rewrite Hconfig.
  exists s1. split; [reflexivity|exact Ht].
Qed.

Lemma web_getMulticall s :
  exists s1,
    Web.getMulticall chainId s = (Ok (multicall3Address config), s1) /\
    trace s1 = trace s.
Proof.
  unfold Web.getMulticall. unfold bind at 1. unfold get at 1.
  cbn beta iota.
  destruct (has chainId (multicalls s)).
  - rewrite Hconfig. now exists s.
  - unfold bind at 1. destruct (web_getProvider s) as (s1 & -> & Ht).
    rewrite Hconfig. eexists. split; [reflexivity|exact Ht].
Qed.

End WebConnections.

Section WebShape.
Variable remote : History -> Request -> Response.
Variable decodeAddress : Bytes -> option Address.
Variable decodeUint8 : Bytes -> option nat.
Variable decodeString : Bytes -> option string.
Variable decodeInt256 : Bytes -> option Z.

Lemma web_fallback_resolved lp : resolvedFor lp (TokenData.mk lp lp 18 "LP" false).
Proof. split; [reflexivity|now left]. Qed.

Lemma web_decodeTriplet_resolved lp u d y :
  resolvedFor lp (Web.decodeTriplet decodeAddress decodeUint8 decodeString
                    lp u d y).
Proof.
  unfold Web.decodeTriplet.
  destruct (decodeAddress u) as [a|]; [|apply web_fallback_resolved].
  destruct (decodeUint8 d) as [n|]; [|apply web_fallback_resolved].
  destruct (decodeString y) as [x|]; [|apply web_fallback_resolved].
  destruct (truthy a && strictNe a ZeroAddress) eqn:E;
    [|apply web_fallback_resolved].
  apply andb_true_iff in E as [_ E]. apply strictNe_true in E.
  split; [reflexivity|]. right. auto.
Qed.

Lemma web_tripletEntry_resolved lp j results e :
  Web.tripletEntry decodeAddress decodeUint8 decodeString lp j results
  = Ok e -> resolvedFor lp e.
Proof.
  unfold Web.tripletEntry.
  destruct (Web.resultAt results (j * 3)) as [u|]; [|discriminate].
  destruct (Web.resultAt results (j * 3 + 1)) as [d|]; [|discriminate].
  destruct (Web.resultAt results (j * 3 + 2)) as [y|]; [|discriminate].
  destruct (fst u && fst d && fst y); intros [= <-];
    [apply web_decodeTriplet_resolved|apply web_fallback_resolved].
Qed.

Lemma web_positionEntry_quoted token j results p :
  Web.positionEntry decodeInt256 token j results = Ok p -> quotedFor token p.
Proof.
  unfold Web.positionEntry, quotedFor.
  destruct (Web.resultAt results j) as [r|]; [|discriminate].
  destruct (fst r).
  - destruct (decodeInt256 _) as [z|]; intros [= <-]; simpl; eauto.
  - intros [= <-]. simpl. auto.
Qed.

Lemma web_processTriplets_shape : forall batch j results tokenData r tokenData',
  Web.processTriplets decodeAddress decodeUint8 decodeString batch j results
    tokenData = (r, tokenData') ->
  exists entries,
    tokenData' = tokenData ++ entries /\
    Forall2 resolvedFor (take (length entries) batch) entries /\
    (r = Ok tt -> length entries = length batch).
Proof.
  induction batch as [|lp rest IH]; intros j results td r td' H; simpl in H.
  - injection H as <- <-. exists []. rewrite app_nil_r.
    split; [reflexivity|]. split; [constructor|reflexivity].
  - destruct (Web.tripletEntry decodeAddress decodeUint8 decodeString lp j
                results) as [e|err] eqn:Ee.
    + apply IH in H as (es & -> & H2 & H3).
      exists (e :: es). rewrite <- app_assoc. split; [reflexivity|].
      split.
      * simpl. constructor; [eapply web_tripletEntry_resolved, Ee|exact H2].
      * intros Hr. simpl. now rewrite H3.
    + injection H as <- <-. exists []. rewrite app_nil_r.
      split; [reflexivity|]. split; [constructor|discriminate].
Qed.

Lemma web_processPositions_shape :
  forall batch j results positions r positions',
    Web.processPositions decodeInt256 batch j results positions
    = (r, positions') ->
    exists entries,
      positions' = positions ++ entries /\
      Forall2 quotedFor (take (length entries) batch) entries /\
      (r = Ok tt -> length entries = length batch).
Proof.
  induction batch as [|lp rest IH]; intros j results td r td' H; simpl in H.
  - injection H as <- <-. exists []. rewrite app_nil_r.
    split; [reflexivity|]. split; [constructor|reflexivity].
  - destruct (Web.positionEntry decodeInt256 lp j results) as [e|err] eqn:Ee.
    + apply IH in H as (es & -> & H2 & H3).
      exists (e :: es). rewrite <- app_assoc. split; [reflexivity|].
      split.
      * simpl. constructor; [eapply web_positionEntry_quoted, Ee|exact H2].
      * intros Hr. simpl. now rewrite H3.
    + injection H as <- <-. exists []. rewrite app_nil_r.
      split; [reflexivity|]. split; [constructor|discriminate].
Qed.

(** One item of the serial fallback of stage 2. *)
Lemma web_underlyingFallback_item chainId tag lp tokenData s :
  exists e s1,
    tryCatch
      (Web.getProvider chainId ;;;
       ru <- rpc remote (ReqUnderlying chainId lp tag) ;;
       underlyingAddress <- expectAddress ru ;;
       rd <- rpc remote (ReqDecimals chainId lp tag) ;;
       decimals <- expectNumber rd ;;
       rs <- rpc remote (ReqSymbol chainId lp tag) ;;
       symbol <- expectString rs ;;
       if truthy underlyingAddress && strictNe underlyingAddress ZeroAddress
       then ret (tokenData ++
                   [TokenData.mk lp underlyingAddress (Z.to_nat decimals)
                      symbol true])
       else ret (tokenData ++ [TokenData.mk lp lp 18 "LP" false]))
      (fun _ => ret (tokenData ++ [TokenData.mk lp lp 18 "LP" false])) s
    = (Ok (tokenData ++ [e]), s1) /\ resolvedFor lp e.
Proof.
  unfold tryCatch.
  match goal with
  | |- context [match ?m s with _ => _ end] => destruct (m s) as [[td|err] s1] eqn:E
  end.
  - unfold bind in E.
    destruct (Web.getProvider chainId s) as [[[]|?] sa]; [|discriminate].
    unfold rpc in E. cbn [fst snd] in E.
    destruct (remote (trace sa) _) as [?|?|a|?|?]; cbn in E; try discriminate.
    destruct (remote _ (ReqDecimals chainId lp tag)) as [?|n|?|?|?];
      cbn in E; try discriminate.
    destruct (remote _ (ReqSymbol chainId lp tag)) as [?|?|?|y|?];
      cbn in E; try discriminate.
    destruct (truthy a && strictNe a ZeroAddress) eqn:Ea;
      cbn in E; injection E as <- <-; eexists _, _; (split; [reflexivity|]).
    + apply andb_true_iff in Ea as [_ Ea]. apply strictNe_true in Ea.
      split; [reflexivity|]. right. auto.
    + apply web_fallback_resolved.
  - eexists _, _. split; [reflexivity|apply web_fallback_resolved].
Qed.

Lemma web_underlyingFallback_spec chainId tag : forall batch tokenData s,
  exists entries s',
    Web.underlyingFallback remote chainId tag batch tokenData s
      = (Ok (tokenData ++ entries), s') /\
    Forall2 resolvedFor batch entries.
Proof.
  induction batch as [|lp rest IH]; intros tokenData s.
  - exists [], s. simpl. rewrite app_nil_r. split; [reflexivity|constructor].
  - destruct (web_underlyingFallback_item chainId tag lp tokenData s)
      as (e & s1 & H1 & R1).
    destruct (IH (tokenData ++ [e]) s1) as (es & s2 & H2 & R2).
    exists (e :: es), s2. split.
    + cbn [Web.underlyingFallback]. unfold bind at 1. rewrite H1, H2.
      now rewrite <- app_assoc.
    + now constructor.
Qed.

Lemma web_positionsFallback_spec chainId vault trader tag :
  forall batch positions s,
    exists entries s',
      Web.positionsFallback remote chainId vault trader tag batch positions s
        = (Ok (positions ++ entries), s') /\
      Forall2 quotedFor batch entries.
Proof.
  induction batch as [|token rest IH]; intros positions s.
  - exists [], s. simpl. rewrite app_nil_r. split; [reflexivity|constructor].
  - assert (Hitem: exists e s1,
      tryCatch
        (r <- rpc remote (ReqPositions chainId vault trader token tag) ;;
         position <- expectNumber r ;;
         ret (positions ++
                [PositionResult.mk token (toString position) true None]))
        (fun _ => ret (positions ++ [PositionResult.mk token "0" false None]))
        s = (Ok (positions ++ [e]), s1) /\ quotedFor token e).
    { unfold tryCatch, bind, rpc. cbn [fst snd].
      destruct (remote (trace s) _); cbn; eexists _, _;
        (split; [reflexivity|]); split; simpl; eauto. }
    destruct Hitem as (e & s1 & H1 & R1).
    destruct (IH (positions ++ [e]) s1) as (es & s2 & H2 & R2).
    exists (e :: es), s2. split.
    + cbn [Web.positionsFallback]. unfold bind at 1. rewrite H1, H2.
      now rewrite <- app_assoc.
    + now constructor.
Qed.

Lemma web_underlyingBatch_shape chainId multicall tag batch tokenData s :
  exists new s',
    Web.underlyingBatch remote decodeAddress decodeUint8 decodeString chainId
      multicall tag batch tokenData s = (Ok (tokenData ++ new), s') /\
    covers resolvedFor batch new.
Proof.
  unfold Web.underlyingBatch.
  destruct (Web.aggregate3 remote chainId multicall (underlyingCalls batch)
              tag s) as [[results|e] s1].
  - destruct (Web.processTriplets decodeAddress decodeUint8 decodeString
                batch 0 results tokenData) as [[[]|e] td'] eqn:Ep;
      apply web_processTriplets_shape in Ep as (es & -> & H2 & H3).
    + exists es, s1. split; [reflexivity|].
      exists [], es, 0%nat. specialize (H3 eq_refl).
      rewrite H3, firstn_all in H2.
      split; [reflexivity|]. split; [exact H2|constructor].
    + destruct (web_underlyingFallback_spec chainId tag batch
                  (tokenData ++ es) s1) as (fs & s2 & -> & R).
      exists (es ++ fs), s2. rewrite <- app_assoc. split; [reflexivity|].
      exists es, fs, (length es). auto.
  - destruct (web_underlyingFallback_spec chainId tag batch tokenData s1)
      as (fs & s2 & -> & R).
    exists fs, s2. split; [reflexivity|].
    exists [], fs, 0%nat. split; [reflexivity|]. split; [exact R|constructor].
Qed.

Lemma web_positionsBatch_shape chainId vault multicall trader tag batch
    positions s :
  exists new s',
    Web.positionsBatch remote decodeInt256 chainId vault multicall trader tag
      batch positions s = (Ok (positions ++ new), s') /\
    covers quotedFor batch new.
Proof.
  unfold Web.positionsBatch.
  destruct (Web.aggregate3 remote chainId multicall
              (positionCalls vault trader batch) tag s) as [[results|e] s1].
  - destruct (Web.processPositions decodeInt256 batch 0 results positions)
      as [[[]|e] ps'] eqn:Ep;
      apply web_processPositions_shape in Ep as (es & -> & H2 & H3).
    + exists es, s1. split; [reflexivity|].
      exists [], es, 0%nat. specialize (H3 eq_refl).
      rewrite H3, firstn_all in H2.
      split; [reflexivity|]. split; [exact H2|constructor].
    + destruct (web_positionsFallback_spec chainId vault trader tag batch
                  (positions ++ es) s1) as (fs & s2 & -> & R).
      exists (es ++ fs), s2. rewrite <- app_assoc. split; [reflexivity|].
      exists es, fs, (length es). auto.
  - destruct (web_positionsFallback_spec chainId vault trader tag batch
                positions s1) as (fs & s2 & -> & R).
    exists fs, s2. split; [reflexivity|].
    exists [], fs, 0%nat. split; [reflexivity|]. split; [exact R|constructor].
Qed.

Variable chainId : Z.
Variable config : ChainConfig.
Hypothesis Hconfig : CHAIN_CONFIGS chainId = Some config.

Lemma web_batchGetUnderlyingTokens_shape lps tag s :
  exists tokenData s',
    Web.batchGetUnderlyingTokens remote decodeAddress decodeUint8
      decodeString chainId lps tag s = (Ok tokenData, s') /\
    sublist lps (map TokenData.lpTokenAddress tokenData) /\
    Forall (fun e => TokenData.lpTokenAddress e ∈ lps /\
                     resolvedFor (TokenData.lpTokenAddress e) e) tokenData.
Proof.
  unfold Web.batchGetUnderlyingTokens, bind.
  destruct (web_getMulticall chainId config Hconfig s) as (s1 & -> & _).
  destruct (forBatches_covers resolvedFor
              (Web.underlyingBatch remote decodeAddress decodeUint8
                 decodeString chainId (multicall3Address config) tag)
              (web_underlyingBatch_shape chainId (multicall3Address config)
                 tag)
              (batches 10 lps) [] s1) as (news & s2 & H & R).
  rewrite H. simpl. eexists _, _. split; [reflexivity|].
  apply (covers_concat _ TokenData.lpTokenAddress resolvedFor_key) in R.
  now rewrite concat_batches in R by lia.
Qed.

Lemma web_batchGetPositions_shape trader tokens tag s :
  exists positions s',
    Web.batchGetPositions remote decodeInt256 chainId trader tokens tag s
      = (Ok positions, s') /\
    sublist tokens (map PositionResult.tokenAddress positions) /\
    Forall (fun p => PositionResult.tokenAddress p ∈ tokens /\
                     quotedFor (PositionResult.tokenAddress p) p) positions.
Proof.
  unfold Web.batchGetPositions, bind.
  destruct (web_getCreditVaultContract chainId config Hconfig s)
    as (s1 & -> & _).
  destruct (web_getMulticall chainId config Hconfig s1) as (s2 & -> & _).
  destruct (forBatches_covers quotedFor
              (Web.positionsBatch remote decodeInt256 chainId
                 (creditVaultAddress config) (multicall3Address config)
                 trader tag)
              (web_positionsBatch_shape chainId (creditVaultAddress config)
                 (multicall3Address config) trader tag)
              (batches 20 tokens) [] s2) as (news & s3 & H & R).
  rewrite H. simpl. eexists _, _. split; [reflexivity|].
  apply (covers_concat _ PositionResult.tokenAddress quotedFor_key) in R.
  now rewrite concat_batches in R by lia.
Qed.

End WebShape.

Section WebRun.
Variable remote : History -> Request -> Response.
Variable isAddress : string -> bool.
Variable decodeAddress : Bytes -> option Address.
Variable decodeUint8 : Bytes -> option nat.
Variable decodeString : Bytes -> option string.
Variable decodeInt256 : Bytes -> option Z.
Variable formatUnits : Z -> nat -> string.


End WebRun.



(** ** The browser's stages against an aligned aggregator *)

Section WebAligned.
Variable remote : History -> Request -> Response.
Variable decodeAddress : Bytes -> option Address.
Variable decodeUint8 : Bytes -> option nat.
Variable decodeString : Bytes -> option string.
Variable decodeInt256 : Bytes -> option Z.
Hypothesis Haligned : alignedAggregator remote.

Lemma web_aggregate3_length chainId multicall calls tag s results s' :
  Web.aggregate3 remote chainId multicall calls tag s = (Ok results, s') ->
  length results = length calls.
Proof.
  unfold Web.aggregate3, bind, rpc, expectResults.
  destruct (remote (trace s) _) as [| | | |raw] eqn:E; simpl; try discriminate.
  intros [= <- _]. eapply Haligned, E.
Qed.

Lemma web_resultAt_defined results k :
  (k < length results)%nat -> exists r, Web.resultAt results k = Ok r.
Proof.
  intros H. unfold Web.resultAt.
  destruct (lookup_lt_is_Some_2 results k H) as [r ->]. eauto.
Qed.

Lemma web_processTriplets_complete : forall batch j results tokenData,
  (j * 3 + 3 * length batch <= length results)%nat ->
  exists entries,
    Web.processTriplets decodeAddress decodeUint8 decodeString batch j
      results tokenData = (Ok tt, tokenData ++ entries) /\
    Forall2 resolvedFor batch entries.
Proof.
  induction batch as [|lp rest IH]; intros j results tokenData H.
  - exists []. simpl. rewrite app_nil_r. split; [reflexivity|constructor].
  - simpl in H.
    assert (He: exists e, Web.tripletEntry decodeAddress decodeUint8
                            decodeString lp j results = Ok e).
    { unfold Web.tripletEntry.
      destruct (web_resultAt_defined results (j * 3)) as [u ->]; [lia|].
      destruct (web_resultAt_defined results (j * 3 + 1)) as [d ->]; [lia|].
      destruct (web_resultAt_defined results (j * 3 + 2)) as [y ->]; [lia|].
      destruct (fst u && fst d && fst y); eauto. }
    destruct He as [e He].
    destruct (IH (S j) results (tokenData ++ [e])) as (es & H1 & H2);
      [simpl; lia|].
    exists (e :: es). simpl. rewrite He, H1, <- app_assoc.
    split; [reflexivity|]. constructor; [|exact H2].
    eapply web_tripletEntry_resolved, He.
Qed.

Lemma web_processPositions_complete : forall batch j results positions,
  (j + length batch <= length results)%nat ->
  exists entries,
    Web.processPositions decodeInt256 batch j results positions
      = (Ok tt, positions ++ entries) /\
    Forall2 quotedFor batch entries.
Proof.
  induction batch as [|token rest IH]; intros j results positions H.
  - exists []. simpl. rewrite app_nil_r. split; [reflexivity|constructor].
  - simpl in H.
    assert (He: exists e, Web.positionEntry decodeInt256 token j results
                          = Ok e).
    { unfold Web.positionEntry.
      destruct (web_resultAt_defined results j) as [r ->]; [lia|].
      destruct (fst r); [|eauto]. destruct (decodeInt256 _); eauto. }
    destruct He as [e He].
    destruct (IH (S j) results (positions ++ [e])) as (es & H1 & H2);
      [lia|].
    exists (e :: es). simpl. rewrite He, H1, <- app_assoc.
    split; [reflexivity|]. constructor; [|exact H2].
    eapply web_positionEntry_quoted, He.
Qed.

Lemma web_underlyingBatch_spec chainId multicall tag batch tokenData s :
  exists entries s',
    Web.underlyingBatch remote decodeAddress decodeUint8 decodeString chainId
      multicall tag batch tokenData s = (Ok (tokenData ++ entries), s') /\
    Forall2 resolvedFor batch entries.
Proof.
  unfold Web.underlyingBatch.
  destruct (Web.aggregate3 remote chainId multicall (underlyingCalls batch)
              tag s) as [[results|e] s1] eqn:Ea.
  - apply web_aggregate3_length in Ea. rewrite length_underlyingCalls in Ea.
    destruct (web_processTriplets_complete batch 0 results tokenData)
      as (es & -> & R); [lia|]. eauto.
  - apply web_underlyingFallback_spec.
Qed.

Lemma web_positionsBatch_spec chainId vault multicall trader tag batch
    positions s :
  exists entries s',
    Web.positionsBatch remote decodeInt256 chainId vault multicall trader tag
      batch positions s = (Ok (positions ++ entries), s') /\
    Forall2 quotedFor batch entries.
Proof.
  unfold Web.positionsBatch.
  destruct (Web.aggregate3 remote chainId multicall
              (positionCalls vault trader batch) tag s)
    as [[results|e] s1] eqn:Ea.
  - apply web_aggregate3_length in Ea. rewrite length_positionCalls in Ea.
    destruct (web_processPositions_complete batch 0 results positions)
      as (es & -> & R); [lia|]. eauto.
  - apply web_positionsFallback_spec.
Qed.

End WebAligned.

(** X16. When the aggregator answers with one result per call, the stage
    lists of a successful browser run are index-aligned and the report is
    their join: stage 2 holds exactly one metadata entry per discovered
    item, in order, stage 3 exactly one quantity entry per metadata entry,
    for its resolved token; the report holds, in order, the entries of the
    indices whose quantity is successful and not zero; [totalTokens] is the
    number of discovered items and [tokensWithPositions] the number of
    entries. *)
Theorem web_stage_lists_stay_aligned
    (remote : History -> Request -> Response) (isAddress : string -> bool)
    (decodeAddress : Bytes -> option Address)
    (decodeUint8 : Bytes -> option nat)
    (decodeString : Bytes -> option string)
    (decodeInt256 : Bytes -> option Z) (formatUnits : Z -> nat -> string)
    (Haligned : alignedAggregator remote)
    (fuel : nat) (pmm : Address) (chainId : Z) (tag : BlockTag)
    (t0 t1 : Z) (s s' : Fetcher) (report : Report.t)
    (Hrun : Web.listPmmPositions remote isAddress decodeAddress decodeUint8
              decodeString decodeInt256 formatUnits fuel pmm chainId tag
              t0 t1 s = Some (Ok report, s')) :
  exists lps s1,
    Web.getAllLPTokens remote fuel chainId tag s = Some (Ok lps, s1) /\
    Summary.totalTokens (Report.summary report) = length lps /\
    Summary.tokensWithPositions (Report.summary report)
    = length (Report.positions report) /\
    ((lps = [] /\ Report.positions report = [] /\ s' = s1) \/
     exists td prs s2,
       Web.batchGetUnderlyingTokens remote decodeAddress decodeUint8
         decodeString chainId lps tag s1 = (Ok td, s2) /\
       Web.batchGetPositions remote decodeInt256 chainId pmm
         (map TokenData.underlyingAddress td) tag s2 = (Ok prs, s') /\
       Forall2 resolvedFor lps td /\
       Forall2 (fun t p => quotedFor (TokenData.underlyingAddress t) p)
         td prs /\
       Report.positions report
       = omap (fun tp => reported formatUnits (fst tp) (snd tp))
           (zip td prs)).
Proof.
  unfold Web.listPmmPositions in Hrun.
  destruct (negb (isAddress pmm)); [discriminate|].
  destruct (CHAIN_CONFIGS chainId) as [config|] eqn:Hc; [|discriminate].
  destruct (Web.getAllLPTokens remote fuel chainId tag s)
    as [[[lps|e] s1]|]; try discriminate.
  exists lps, s1. split; [reflexivity|].
  destruct lps as [|lp lps].
  - simpl in Hrun. injection Hrun as <- <-. simpl.
    split; [reflexivity|]. split; [reflexivity|]. left. auto.
  - cbn [length Nat.eqb] in Hrun. unfold bind in Hrun.
    destruct (web_getMulticall chainId config Hc s1) as (sa & Hm & _).
    assert (H2: exists td s2,
              Web.batchGetUnderlyingTokens remote decodeAddress decodeUint8
                decodeString chainId (lp :: lps) tag s1 = (Ok td, s2) /\
              Forall2 resolvedFor (lp :: lps) td).
    { unfold Web.batchGetUnderlyingTokens, bind. rewrite Hm.
      destruct (forBatches_app resolvedFor
                  (Web.underlyingBatch remote decodeAddress decodeUint8
                     decodeString chainId (multicall3Address config) tag)
                  (web_underlyingBatch_spec remote decodeAddress decodeUint8
                     decodeString Haligned chainId
                     (multicall3Address config) tag)
                  (batches 10 (lp :: lps)) [] sa) as (es & s2 & H & R).
      rewrite H. exists es, s2. split; [reflexivity|].
      now rewrite concat_batches in R by lia. }
    destruct H2 as (td & s2 & H2 & R2). rewrite H2 in Hrun.
    assert (H3: exists prs s3,
              Web.batchGetPositions remote decodeInt256 chainId pmm
                (map TokenData.underlyingAddress td) tag s2 = (Ok prs, s3) /\
              Forall2 quotedFor (map TokenData.underlyingAddress td) prs).
    { unfold Web.batchGetPositions, bind.
      destruct (web_getCreditVaultContract chainId config Hc s2)
        as (sb & -> & _).
      destruct (web_getMulticall chainId config Hc sb) as (sc & -> & _).
      destruct (forBatches_app quotedFor
                  (Web.positionsBatch remote decodeInt256 chainId
                     (creditVaultAddress config) (multicall3Address config)
                     pmm tag)
                  (web_positionsBatch_spec remote decodeInt256 Haligned
                     chainId (creditVaultAddress config)
                     (multicall3Address config) pmm tag)
                  (batches 20 (map TokenData.underlyingAddress td)) [] sc)
        as (es & s3 & H & R).
      rewrite H. exists es, s3. split; [reflexivity|].
      now rewrite concat_batches in R by lia. }
    destruct H3 as (prs & s3 & H3 & R3). rewrite H3 in Hrun.
    apply quoted_map in R3.
    pose proof (joinLoop_spec formatUnits td prs [] [] R3) as Hj.
    simpl in Hj. unfold liftResult in Hrun. rewrite Hj in Hrun.
    simpl in Hrun. injection Hrun as <- <-. simpl.
    pose proof (Forall2_length _ _ _ R2) as L2. simpl in L2.
    split; [lia|]. split; [reflexivity|]. right.
    exists td, prs, s2. auto.
Qed.

Lemma web_stage_lists_stay_aligned_witness :
  alignedAggregator demoRemote /\
  exists report s',
    Web.listPmmPositions demoRemote demoIsAddress demoDecodeAddress
      demoDecodeUint8 demoDecodeString BigInt format 1001 trader 1 None
      1000 1250 emptyFetcher = Some (Ok report, s') /\
    Summary.totalTokens (Report.summary report) = 3%nat /\
    Report.positions report
    = [PositionData.mk tokenA "USDC" (Some lpA) "-1500" "-0.001500" 6].
Proof.
  split; [exact demoRemote_aligned|].
  eexists _, _. split; [vm_compute; reflexivity|].
  match goal with
  | |- Summary.totalTokens (Report.summary ?r) = _ /\ _ =>
      destruct (web_stage_lists_stay_aligned demoRemote demoIsAddress
                  demoDecodeAddress demoDecodeUint8 demoDecodeString BigInt
                  format demoRemote_aligned 1001 trader 1 None 1000 1250
                  emptyFetcher _ r ltac:(vm_compute; reflexivity))
        as (lps & s1 & H1 & H2 & _)
  end.
  split; [|reflexivity].
  rewrite H2. vm_compute in H1. now injection H1 as <- _.
Defined.

(** ** The browser's serial quantity fallback *)

Lemma positionReads_snoc chainId vault trader tag tokens token :
  positionReads chainId vault trader tag (tokens ++ [token])
  = ReqPositions chainId vault trader token tag
    :: positionReads chainId vault trader tag tokens.
Proof. unfold positionReads. now rewrite map_app, rev_app_distr. Qed.

Lemma web_positionsFallback_rule remote chainId vault trader tag :
  forall batch positions s,
    exists s',
      Web.positionsFallback remote chainId vault trader tag batch positions s
      = (Ok (positions ++
               imap (fun k token =>
                       webQuantity token
                         (remote (positionReads chainId vault trader tag
                                    (take k batch) ++ trace s)
                            (ReqPositions chainId vault trader token tag)))
                 batch), s') /\
      trace s' = positionReads chainId vault trader tag batch ++ trace s /\
      sameMemo s s'.
Proof.
  induction batch as [|token rest IH]; intros positions s.
  - exists s. simpl. rewrite app_nil_r. repeat split.
  - cbn [Web.positionsFallback]. unfold bind at 1, tryCatch, bind, rpc.
    cbn [fst snd].
    set (s1 := mkFetcher (providers s) (contracts s) (multicalls s)
                 (ReqPositions chainId vault trader token tag :: trace s)).
    assert (Hstep: forall ps,
              exists s',
                Web.positionsFallback remote chainId vault trader tag rest
                  ps s1
                = (Ok (ps ++
                         imap (fun k t =>
                                 webQuantity t
                                   (remote (positionReads chainId vault
                                              trader tag (take (S k)
                                                            (token :: rest))
                                            ++ trace s)
                                      (ReqPositions chainId vault trader t
                                         tag))) rest), s') /\
                trace s' = positionReads chainId vault trader tag
                             (token :: rest) ++ trace s /\
                sameMemo s s').
    { intros ps. destruct (IH ps s1) as (s' & H1 & H2 & H3).
      exists s'. split; [|split].
      - rewrite H1. do 3 f_equal. apply imap_ext. intros k t _.
        cbn [take firstn]. f_equal. f_equal.
        change (token :: take k rest) with ([token] ++ take k rest).
        unfold positionReads. rewrite map_app, rev_app_distr.
        rewrite <- app_assoc. reflexivity.
      - rewrite H2. unfold s1. cbn [trace].
        change (token :: rest) with ([token] ++ rest).
        unfold positionReads. rewrite map_app, rev_app_distr.
        rewrite <- app_assoc. reflexivity.
      - exact H3. }
    cbn [imap]. cbn [take firstn positionReads map rev app].
    destruct (remote (trace s) (ReqPositions chainId vault trader token tag))
      as [e|z|a|x|rs]; cbn [expectNumber throw ret badData webQuantity];
      match goal with
      | |- context [Web.positionsFallback _ _ _ _ _ _ (positions ++ [?p]) _] =>
          destruct (Hstep (positions ++ [p])) as (s' & H1 & H2 & H3);
          exists s'; rewrite H1, <- app_assoc; auto
      end.
Qed.

(** X17. The browser's serial fallback of stage 3 records what each direct
    read answered: it sends one [positions] read per token of the batch, in
    order, and appends one entry per token; the entry is
    [{ position: z.toString(), success: true }] exactly when the read was
    answered with the quantity [z], and [{ position: "0", success: false }]
    when the read failed.  The memo maps are untouched. *)
Theorem web_fallback_records_each_read
    (remote : History -> Request -> Response) (chainId : Z)
    (vault trader : Address) (tag : BlockTag) (batch : list Address)
    (positions : list PositionResult.t) (s : Fetcher) :
  exists s',
    Web.positionsFallback remote chainId vault trader tag batch positions s
    = (Ok (positions ++
             imap (fun k token =>
                     webQuantity token
                       (remote (positionReads chainId vault trader tag
                                  (take k batch) ++ trace s)
                          (ReqPositions chainId vault trader token tag)))
               batch), s') /\
    trace s' = positionReads chainId vault trader tag batch ++ trace s /\
    sameMemo s s' /\
    forall token r,
      (PositionResult.success (webQuantity token r) = true <->
       exists z, r = RespNumber z) /\
      (forall z, r = RespNumber z ->
         webQuantity token r = PositionResult.mk token (toString z) true None)
      /\
      (PositionResult.success (webQuantity token r) = false ->
       webQuantity token r = PositionResult.mk token "0" false None).
Proof.
  destruct (web_positionsFallback_rule remote chainId vault trader tag batch
              positions s) as (s' & H1 & H2 & H3).
  exists s'. split; [exact H1|]. split; [exact H2|]. split; [exact H3|].
  intros token r. destruct r; simpl; repeat split; eauto;
    try discriminate; try (intros [z [=]]); try (now intros z' [= <-]).
Qed.

(** ** What a browser run asks the remote *)

Section WebDiscipline.
Variable remote : History -> Request -> Response.
Variable decodeAddress : Bytes -> option Address.
Variable decodeUint8 : Bytes -> option nat.
Variable decodeString : Bytes -> option string.
Variable decodeInt256 : Bytes -> option Z.
Variable chainId : Z.
Variable config : ChainConfig.
Variable pmm : Address.
Variable tag : BlockTag.
Variable lps : list Address.
Hypothesis Hconfig : CHAIN_CONFIGS chainId = Some config.

Abbreviation WI := (fun _ : Fetcher => True).
Abbreviation WP := (fun q => allowedWeb chainId config pmm tag lps q = true).
Abbreviation WKeeps := (Keeps WI WP).

Lemma WI_pushed : forall s q, WI s -> WI (pushed q s).
Proof. intros; exact Logic.I. Qed.

Lemma WKeeps_silent {A} (f : M A) (Q : A -> Prop) :
  (forall s, trace (snd (f s)) = trace s) ->
  (forall s a, fst (f s) = Ok a -> Q a) -> WKeeps f Q.
Proof.
  intros Ht Hq s _. split; [exact Logic.I|]. split.
  - exists []. split; [apply Ht|constructor].
  - apply Hq.
Qed.

Lemma WKeeps_getProvider : WKeeps (Web.getProvider chainId) anything.
Proof.
  apply WKeeps_silent; [|now intros].
  intros s. now destruct (web_getProvider chainId config Hconfig s)
    as (s1 & -> & H).
Qed.

Lemma WKeeps_getCreditVaultContract :
  WKeeps (Web.getCreditVaultContract chainId)
    (fun vault => vault = creditVaultAddress config).
Proof.
  apply WKeeps_silent; intros s;
    destruct (web_getCreditVaultContract chainId config Hconfig s)
      as (s1 & -> & H); [exact H|]. now intros a [= <-].
Qed.

Lemma WKeeps_getMulticall :
  WKeeps (Web.getMulticall chainId)
    (fun multicall => multicall = multicall3Address config).
Proof.
  apply WKeeps_silent; intros s;
    destruct (web_getMulticall chainId config Hconfig s)
      as (s1 & -> & H); [exact H|]. now intros a [= <-].
Qed.

Lemma WKeeps_aggregate3 calls :
  withinLimits (creditVaultAddress config) pmm lps calls = true ->
  WKeeps (Web.aggregate3 remote chainId (multicall3Address config) calls tag)
    anything.
Proof.
  intros Hl. unfold Web.aggregate3.
  apply (Keeps_then WI WP).
  - apply (Keeps_rpc remote WI WP WI_pushed). cbn [allowedWeb].
    now rewrite Z.eqb_refl, String.eqb_refl, tagEqb_refl, Hl.
  - intros r. apply Keeps_expectResults.
Qed.

Lemma allowedWeb_read (lp : Address) :
  mem lp lps = true ->
  allowedWeb chainId config pmm tag lps (ReqUnderlying chainId lp tag) = true
  /\ allowedWeb chainId config pmm tag lps (ReqDecimals chainId lp tag) = true
  /\ allowedWeb chainId config pmm tag lps (ReqSymbol chainId lp tag) = true.
Proof.
  intros H. cbn [allowedWeb allowed].
  now rewrite Z.eqb_refl, H, tagEqb_refl.
Qed.

Lemma WKeeps_underlyingFallback : forall batch tokenData,
  Forall (fun lp => mem lp lps = true) batch ->
  WKeeps (Web.underlyingFallback remote chainId tag batch tokenData)
    anything.
Proof.
  induction batch as [|lp rest IH]; intros tokenData Hb;
    cbn [Web.underlyingFallback]; [now apply Keeps_ret|].
  inversion Hb as [|? ? Hlp Hrest]; subst.
  destruct (allowedWeb_read lp Hlp) as (Hu & Hd & Hy).
  apply (Keeps_then WI WP); [|intros td; now apply IH].
  apply Keeps_tryCatch; [|intros ?; now apply Keeps_ret].
  apply (Keeps_then WI WP); [exact WKeeps_getProvider|]. intros _.
  apply (Keeps_then WI WP);
    [now apply (Keeps_rpc remote WI WP WI_pushed)|]. intros ru.
  apply (Keeps_then WI WP); [apply Keeps_expectAddress|]. intros a.
  apply (Keeps_then WI WP);
    [now apply (Keeps_rpc remote WI WP WI_pushed)|]. intros rd.
  apply (Keeps_then WI WP); [apply Keeps_expectNumber|]. intros d.
  apply (Keeps_then WI WP);
    [now apply (Keeps_rpc remote WI WP WI_pushed)|]. intros rs.
  apply (Keeps_then WI WP); [apply Keeps_expectString|]. intros y.
  destruct (truthy a && strictNe a ZeroAddress); now apply Keeps_ret.
Qed.

Lemma WKeeps_underlyingBatch batch tokenData :
  Forall (fun lp => mem lp lps = true) batch -> (length batch <= 10)%nat ->
  WKeeps (Web.underlyingBatch remote decodeAddress decodeUint8 decodeString
            chainId (multicall3Address config) tag batch tokenData) anything.
Proof.
  intros Hb Hl. unfold Web.underlyingBatch.
  exact (Keeps_tryThen WI WP
           (Web.aggregate3 remote chainId (multicall3Address config)
              (underlyingCalls batch) tag)
           (fun results =>
              Web.processTriplets decodeAddress decodeUint8 decodeString
                batch 0 results tokenData)
           (Web.underlyingFallback remote chainId tag batch)
           (Web.underlyingFallback remote chainId tag batch tokenData)
           (WKeeps_aggregate3 _
              (underlyingCalls_withinLimits config pmm lps batch Hb Hl))
           (fun b => WKeeps_underlyingFallback batch b Hb)
           (WKeeps_underlyingFallback batch tokenData Hb)).
Qed.

Lemma WKeeps_batchGetUnderlyingTokens tokens :
  Forall (fun lp => mem lp lps = true) tokens ->
  WKeeps (Web.batchGetUnderlyingTokens remote decodeAddress decodeUint8
            decodeString chainId tokens tag) anything.
Proof.
  intros Ht. unfold Web.batchGetUnderlyingTokens.
  eapply Keeps_bind; [exact WKeeps_getMulticall|].
  intros mc ->. apply Keeps_forBatches.
  eapply Forall_impl; [apply (batches_bounded _ 10 tokens Ht)|].
  intros batch [Hb Hl] acc. now apply WKeeps_underlyingBatch.
Qed.

Lemma WKeeps_positionsFallback : forall batch positions,
  WKeeps (Web.positionsFallback remote chainId (creditVaultAddress config)
            pmm tag batch positions) anything.
Proof.
  induction batch as [|token rest IH]; intros positions;
    cbn [Web.positionsFallback]; [now apply Keeps_ret|].
  apply (Keeps_then WI WP); [|intros ps; apply IH].
  apply Keeps_tryCatch; [|intros ?; now apply Keeps_ret].
  apply (Keeps_then WI WP).
  - apply (Keeps_rpc remote WI WP WI_pushed). cbn [allowedWeb allowed].
    now rewrite Z.eqb_refl, !String.eqb_refl, tagEqb_refl.
  - intros r. apply (Keeps_then WI WP); [apply Keeps_expectNumber|].
    intros z. now apply Keeps_ret.
Qed.

Lemma WKeeps_positionsBatch batch positions :
  (length batch <= 20)%nat ->
  WKeeps (Web.positionsBatch remote decodeInt256 chainId
            (creditVaultAddress config) (multicall3Address config) pmm tag
            batch positions) anything.
Proof.
  intros Hl. unfold Web.positionsBatch.
  exact (Keeps_tryThen WI WP
           (Web.aggregate3 remote chainId (multicall3Address config)
              (positionCalls (creditVaultAddress config) pmm batch) tag)
           (fun results =>
              Web.processPositions decodeInt256 batch 0 results positions)
           (Web.positionsFallback remote chainId (creditVaultAddress config)
              pmm tag batch)
           (Web.positionsFallback remote chainId (creditVaultAddress config)
              pmm tag batch positions)
           (WKeeps_aggregate3 _
              (positionCalls_withinLimits config pmm lps batch Hl))
           (fun b => WKeeps_positionsFallback batch b)
           (WKeeps_positionsFallback batch positions)).
Qed.

Lemma WKeeps_batchGetPositions tokens :
  WKeeps (Web.batchGetPositions remote decodeInt256 chainId pmm tokens tag)
    anything.
Proof.
  unfold Web.batchGetPositions.
  eapply Keeps_bind; [exact WKeeps_getCreditVaultContract|].
  intros vault ->.
  eapply Keeps_bind; [exact WKeeps_getMulticall|].
  intros mc ->. apply Keeps_forBatches.
  eapply Forall_impl;
    [apply (batches_bounded (fun _ => True) 20 tokens)|].
  - apply Forall_forall. now intros.
  - intros batch [_ Hl] acc. now apply WKeeps_positionsBatch.
Qed.

Lemma WKeepsO_scanLoop : forall fuel index acc,
  KeepsO WI WP (scanLoop remote fuel chainId (creditVaultAddress config) tag
                  index acc) anything.
Proof.
  induction fuel as [|fuel IH]; intros index acc s r s' Hs H; [discriminate|].
  rewrite scanLoop_S in H. cbn zeta in H.
  assert (Hone: exists new,
             trace (pushed (ReqAllLPTokens chainId (creditVaultAddress config)
                              index tag) s) = new ++ trace s /\
             Forall WP new).
  { eexists [_]. split; [reflexivity|]. constructor; [|constructor].
    cbn [allowedWeb allowed].
    now rewrite Z.eqb_refl, String.eqb_refl, tagEqb_refl. }
  assert (Hstop: forall l,
            Some (Ok l, pushed (ReqAllLPTokens chainId
                                  (creditVaultAddress config) index tag) s)
            = Some (r, s') ->
            WI s' /\
            (exists new, trace s' = new ++ trace s /\ Forall WP new) /\
            (forall a, r = Ok a -> anything a)).
  { intros l [= <- <-]. split; [exact Logic.I|]. split; [exact Hone|].
    intros; exact Logic.I. }
  unfold pushed in Hstop.
  destruct (remote (trace s) _); try (eapply Hstop; exact H).
  destruct (truthy a && strictNe a ZeroAddress); [|eapply Hstop; exact H].
  destruct (1000 <? S index)%nat; [eapply Hstop; exact H|].
  destruct (IH _ _ (pushed (ReqAllLPTokens chainId
                              (creditVaultAddress config) index tag) s)
              _ _ Logic.I H) as (K1 & (new & Ht & Hn) & K3).
  split; [exact K1|]. split; [|exact K3].
  destruct Hone as (one & Ho & Hp).
  exists (new ++ one). rewrite Ht, Ho, app_assoc.
  split; [reflexivity|]. now apply Forall_app.
Qed.

Lemma WKeepsO_getAllLPTokens fuel :
  KeepsO WI WP (Web.getAllLPTokens remote fuel chainId tag) anything.
Proof.
  intros s r s' Hs. unfold Web.getAllLPTokens.
  destruct (web_getCreditVaultContract chainId config Hconfig s)
    as (s1 & -> & Ht).
  intros H.
  destruct (WKeepsO_scanLoop _ _ _ _ _ _ Logic.I H)
    as (K1 & (new & Ht' & Hn) & K3).
  split; [exact K1|]. split; [|exact K3].
  exists new. now rewrite Ht', Ht.
Qed.

End WebDiscipline.

Lemma allowedWeb_no_probe chainId config pmm tag lps (new : History) :
  Forall (fun q => allowedWeb chainId config pmm tag lps q = true) new ->
  probes new = 0%nat.
Proof.
  unfold probes. induction 1 as [|q new Hq _ IH]; [reflexivity|].
  simpl. destruct q; simpl in *; try exact IH. discriminate.
Qed.

(** X18. A browser run never sends a liveness probe, and every request it
    sends carries the requested block tag as it was given, the aggregate
    requests included: registry and quantity reads go to the configured
    vault of the requested chain, aggregate requests to its configured
    aggregator with at most 30 metadata sub-calls or at most 20 quantity
    sub-calls, metadata reads and sub-calls to LP tokens the registry
    listed in this run, and quantity reads and sub-calls are for the
    requested owner. *)
Theorem web_run_requests_carry_the_requested_height
    (remote : History -> Request -> Response) (isAddress : string -> bool)
    (decodeAddress : Bytes -> option Address)
    (decodeUint8 : Bytes -> option nat)
    (decodeString : Bytes -> option string)
    (decodeInt256 : Bytes -> option Z) (formatUnits : Z -> nat -> string)
    (fuel : nat) (pmm : Address) (chainId : Z) (tag : BlockTag)
    (t0 t1 : Z) (s s' : Fetcher) (r : Result Report.t)
    (Hrun : Web.listPmmPositions remote isAddress decodeAddress decodeUint8
              decodeString decodeInt256 formatUnits fuel pmm chainId tag
              t0 t1 s = Some (r, s')) :
  exists new,
    trace s' = new ++ trace s /\
    forallb (allowedWeb chainId (configOf chainId) pmm tag
               (discoveredWeb remote fuel chainId tag s)) new = true /\
    probes new = 0%nat.
Proof.
  assert (Hgoal: exists new,
            trace s' = new ++ trace s /\
            Forall (fun q => allowedWeb chainId (configOf chainId) pmm tag
                               (discoveredWeb remote fuel chainId tag s) q
                             = true) new).
  { unfold Web.listPmmPositions, discoveredWeb in *.
    assert (Hnil: forall cfg lps, exists new : History,
              trace s = new ++ trace s /\
              Forall (fun q => allowedWeb chainId cfg pmm tag lps q = true)
                new)
      by (intros; exists []; split; [reflexivity|constructor]).
    destruct (negb (isAddress pmm)); [injection Hrun as <- <-; apply Hnil|].
    unfold configOf.
    destruct (CHAIN_CONFIGS chainId) as [config|] eqn:Hc;
      [|injection Hrun as <- <-; apply Hnil].
    destruct (Web.getAllLPTokens remote fuel chainId tag s)
      as [[[lps|e] s1]|] eqn:Escan; [| |discriminate].
    - destruct (WKeepsO_getAllLPTokens remote chainId config pmm tag lps Hc
                  fuel s _ _ Logic.I Escan) as (_ & (new & Ht & Hn) & _).
      destruct (length lps =? 0)%nat; [injection Hrun as <- <-; eauto|].
      injection Hrun as Hrun.
      assert (Ha: Keeps (fun _ => True)
                    (fun q => allowedWeb chainId config pmm tag lps q = true)
                    (tokenData <-
                       Web.batchGetUnderlyingTokens remote decodeAddress
                         decodeUint8 decodeString chainId lps tag ;;
                     positionResults <-
                       Web.batchGetPositions remote decodeInt256 chainId pmm
                         (map TokenData.underlyingAddress tokenData) tag ;;
                     positions <-
                       liftResult (joinLoop formatUnits tokenData 0
                                     positionResults []) ;;
                     ret (Report.mk chainId (name config) pmm
                            (truthyBlock tag) positions
                            (Summary.mk (length tokenData) (length positions)
                               (t1 - t0)))) anything).
      { apply Keeps_then.
        { apply WKeeps_batchGetUnderlyingTokens; [exact Hc|].
          apply Forall_forall. intros lp Hlp. unfold mem.
          apply existsb_exists. exists lp.
          split; [now apply list_elem_of_In|apply String.eqb_refl]. }
        intros td. apply Keeps_then;
          [now apply WKeeps_batchGetPositions|].
        intros prs. apply Keeps_then; [apply Keeps_liftResult; now intros|].
        intros ?. now apply Keeps_ret. }
      destruct (Ha s1 Logic.I) as (_ & (new' & Ht' & Hn') & _).
      rewrite Hrun in Ht'. cbn [snd] in Ht'.
      exists (new' ++ new). rewrite Ht', Ht, app_assoc.
      split; [reflexivity|]. now apply Forall_app.
    - destruct (WKeepsO_getAllLPTokens remote chainId config pmm tag [] Hc
                  fuel s _ _ Logic.I Escan) as (_ & H2 & _).
      injection Hrun as <- <-. exact H2. }
  destruct Hgoal as (new & Ht & Hn). exists new.
  split; [exact Ht|]. split; [now apply forallb_Forall|].
  eapply allowedWeb_no_probe, Hn.
Qed.

Lemma web_run_requests_carry_the_requested_height_witness :
  exists r s' new,
    Web.listPmmPositions demoRemote demoIsAddress demoDecodeAddress
      demoDecodeUint8 demoDecodeString BigInt format 1001 trader 1 (Some 0)
      1000 1250 emptyFetcher = Some (r, s') /\
    trace s' = new ++ trace emptyFetcher /\
    forallb (allowedWeb 1 (configOf 1) trader (Some 0)
               (discoveredWeb demoRemote 1001 1 (Some 0) emptyFetcher)) new
    = true /\
    probes new = 0%nat.
Proof.
  destruct (Web.listPmmPositions demoRemote demoIsAddress demoDecodeAddress
              demoDecodeUint8 demoDecodeString BigInt format 1001 trader 1
              (Some 0) 1000 1250 emptyFetcher) as [[r s']|] eqn:E;
    [|vm_compute in E; discriminate].
  destruct (web_run_requests_carry_the_requested_height demoRemote
              demoIsAddress demoDecodeAddress demoDecodeUint8
              demoDecodeString BigInt format 1001 trader 1 (Some 0) 1000
              1250 emptyFetcher s' r E) as (new & H).
  exists r, s', new. split; [reflexivity|exact H].
Defined.

(** X19. Whatever the aggregator answers (too few results, too many, none),
    a stage of the browser build never drops an item on a supported chain:
    the stage returns, the items it was given are, in order, a subsequence
    of the items of its entries, so its output is at least as long as its
    input, and every entry is a metadata entry (a quantity entry) of the
    item it names. *)
Theorem web_stages_never_drop_an_item
    (remote : History -> Request -> Response)
    (decodeAddress : Bytes -> option Address)
    (decodeUint8 : Bytes -> option nat)
    (decodeString : Bytes -> option string)
    (decodeInt256 : Bytes -> option Z) (chainId : Z) (config : ChainConfig)
    (tag : BlockTag) (s : Fetcher)
    (Hconfig : CHAIN_CONFIGS chainId = Some config) :
  (forall lps,
     exists tokenData s',
       Web.batchGetUnderlyingTokens remote decodeAddress decodeUint8
         decodeString chainId lps tag s = (Ok tokenData, s') /\
       sublist lps (map TokenData.lpTokenAddress tokenData) /\
       (length lps <= length tokenData)%nat /\
       Forall (fun e => TokenData.lpTokenAddress e ∈ lps /\
                        resolvedFor (TokenData.lpTokenAddress e) e)
         tokenData) /\
  (forall trader tokens,
     exists positions s',
       Web.batchGetPositions remote decodeInt256 chainId trader tokens tag s
         = (Ok positions, s') /\
       sublist tokens (map PositionResult.tokenAddress positions) /\
       (length tokens <= length positions)%nat /\
       Forall (fun p => PositionResult.tokenAddress p ∈ tokens /\
                        quotedFor (PositionResult.tokenAddress p) p)
         positions).
Proof.
  split.
  - intros lps.
    destruct (web_batchGetUnderlyingTokens_shape remote decodeAddress
                decodeUint8 decodeString chainId config Hconfig lps tag s)
      as (td & s' & H1 & H2 & H3).
    exists td, s'. split; [exact H1|]. split; [exact H2|]. split; [|exact H3].
    apply sublist_length in H2. now rewrite length_map in H2.
  - intros trader tokens.
    destruct (web_batchGetPositions_shape remote decodeInt256 chainId config
                Hconfig trader tokens tag s) as (prs & s' & H1 & H2 & H3).
    exists prs, s'. split; [exact H1|]. split; [exact H2|]. split; [|exact H3].
    apply sublist_length in H2. now rewrite length_map in H2.
Qed.

Lemma web_stages_never_drop_an_item_witness :
  CHAIN_CONFIGS 1 = Some (configOf 1) /\
  exists tokenData s',
    Web.batchGetUnderlyingTokens brokenRemote demoDecodeAddress
      demoDecodeUint8 demoDecodeString 1 [lpA] None emptyFetcher
    = (Ok tokenData, s') /\
    (1 <= length tokenData)%nat.
Proof.
  split; [reflexivity|].
  destruct (web_stages_never_drop_an_item brokenRemote demoDecodeAddress
              demoDecodeUint8 demoDecodeString BigInt 1 (configOf 1) None
              emptyFetcher eq_refl) as [H _].
  destruct (H [lpA]) as (td & s' & H1 & _ & H3 & _).
  exists td, s'. split; [exact H1|exact H3].
Defined.
